(** * OutputSPIRV: the SPIR-V generator of the shader translator

    A shallow embedding of [src/compiler/translator/OutputSPIRV.cpp]: the
    access-chain engine, the constructor synthesizer, function-call and
    atomic lowering, and the node-data stack discipline of the traverser.

    Conventions.
    - A [spirv::IdRef] is an [N]; 0 is the invalid id.
    - A [spirv::Blob] is kept as the list of instructions written to it, in
      order, rather than as their 32-bit words.
    - Code that mutates a [NodeData *] returns the updated record.
    - A failed [ASSERT], an index past the end of a list and a call of
      [UNREACHABLE] end the computation with a [Failure]. *)

From stdpp Require Import base numbers option list gmap strings.

Open Scope Z_scope.

(** ** Ids, literals and enumerations *)

Abbreviation IdRef := N (only parsing).
Abbreviation LiteralInteger := N (only parsing).

Definition valid (id : IdRef) : bool := negb (id =? 0)%N.

Definition uint32 (z : Z) : N := Z.to_N (z mod 2 ^ 32).
Definition size_t (z : Z) : N := Z.to_N (z mod 2 ^ 64).

Inductive StorageClass :=
| StorageClassUniformConstant
| StorageClassInput
| StorageClassUniform
| StorageClassOutput
| StorageClassWorkgroup
| StorageClassPrivate
| StorageClassFunction
| StorageClassPushConstant
| StorageClassStorageBuffer
| StorageClassMax.

#[global] Instance StorageClass_eq_dec : EqDecision StorageClass.
Proof. solve_decision. Defined.

Inductive TLayoutBlockStorage :=
| EbsUnspecified | EbsShared | EbsPacked | EbsStd140 | EbsStd430.

#[global] Instance TLayoutBlockStorage_eq_dec : EqDecision TLayoutBlockStorage.
Proof. solve_decision. Defined.

Inductive TBasicType :=
| EbtVoid | EbtFloat | EbtDouble | EbtInt | EbtUInt | EbtBool
| EbtSampler | EbtImage | EbtStruct | EbtInterfaceBlock.

#[global] Instance TBasicType_eq_dec : EqDecision TBasicType.
Proof. solve_decision. Defined.

Inductive TQualifier :=
| EvqTemporary | EvqGlobal | EvqConst | EvqUniform | EvqShared
| EvqIn | EvqOut | EvqInOut.

#[global] Instance TQualifier_eq_dec : EqDecision TQualifier.
Proof. solve_decision. Defined.

(** [spv::ScopeDevice] and [spv::MemorySemanticsMaskNone] (Relaxed) of the
    SPIR-V headers. *)
Definition ScopeDevice : N := 1.
Definition MemorySemanticsMaskNone : N := 0.

(** ** Types *)

(** The fields of [TType] the generator reads.  [primarySize] is the size of
    a vector or the number of columns of a matrix, [secondarySize] the number
    of rows of a matrix (1 otherwise). *)
Record TType := {
  getBasicType : TBasicType;
  getQualifier : TQualifier;
  primarySize : Z;
  secondarySize : Z;
  arraySizes : list N;
  isStruct : bool
}.

Definition getNominalSize (t : TType) : Z := primarySize t.
Definition getCols (t : TType) : Z := primarySize t.
Definition getRows (t : TType) : Z := secondarySize t.
Definition isArray (t : TType) : bool := negb (bool_decide (arraySizes t = [])).
Definition isMatrix (t : TType) : bool :=
  (1 <? primarySize t) && (1 <? secondarySize t).
Definition isVector (t : TType) : bool :=
  (1 <? primarySize t) && (secondarySize t =? 1).
Definition isScalar (t : TType) : bool :=
  (primarySize t =? 1) && (secondarySize t =? 1) && negb (isStruct t)
  && negb (isArray t).
Definition IsOpaqueType (b : TBasicType) : bool :=
  match b with EbtSampler | EbtImage => true | _ => false end.

Record SpirvType := {
  st_type : TBasicType;
  st_primarySize : Z;
  st_secondarySize : Z;
  st_arraySizes : list N;
  st_blockStorage : TLayoutBlockStorage
}.

#[global] Instance SpirvType_eq_dec : EqDecision SpirvType.
Proof. solve_decision. Defined.

(** ** Instructions *)

(** The value of a scalar constant.  A float constant is kept by the integer
    it denotes: the generator itself only interns [0.0f] and [1.0f]. *)
Inductive ConstantValue :=
| UintValue (u : N)
| IntValue (i : Z)
| FloatValue (f : Z)
| BoolValue (b : bool).

Inductive Instruction :=
| OpName (target : IdRef) (name : string)
| OpTypeDecl (result : IdRef) (type : SpirvType)
| OpTypePointer (result : IdRef) (sc : StorageClass) (type : IdRef)
| OpTypeFunction (result returnType : IdRef) (params : list IdRef)
| OpConstant (resultType result : IdRef) (value : ConstantValue)
| OpConstantComposite (resultType result : IdRef) (constituents : list IdRef)
| OpVariable (resultType result : IdRef) (sc : StorageClass)
    (initializer : option IdRef)
| OpFunction (resultType result functionType : IdRef)
| OpFunctionParameter (resultType result : IdRef)
| OpFunctionEnd
| OpLabel (result : IdRef)
| OpReturn
| OpReturnValue (value : IdRef)
| OpAccessChain (resultType result base : IdRef) (indexes : list IdRef)
| OpCompositeExtract (resultType result composite : IdRef)
    (indexes : list LiteralInteger)
| OpCompositeConstruct (resultType result : IdRef) (constituents : list IdRef)
| OpLoad (resultType result pointer : IdRef)
| OpStore (pointer object : IdRef)
| OpVectorShuffle (resultType result vector1 vector2 : IdRef)
    (components : list LiteralInteger)
| OpVectorExtractDynamic (resultType result vector index : IdRef)
| OpFunctionCall (resultType result function : IdRef) (arguments : list IdRef)
| OpAtomicIAdd (resultType result pointer scope semantics value : IdRef)
| OpAtomicSMin (resultType result pointer scope semantics value : IdRef)
| OpAtomicUMin (resultType result pointer scope semantics value : IdRef)
| OpAtomicSMax (resultType result pointer scope semantics value : IdRef)
| OpAtomicUMax (resultType result pointer scope semantics value : IdRef)
| OpAtomicAnd (resultType result pointer scope semantics value : IdRef)
| OpAtomicOr (resultType result pointer scope semantics value : IdRef)
| OpAtomicXor (resultType result pointer scope semantics value : IdRef)
| OpAtomicExchange (resultType result pointer scope semantics value : IdRef)
| OpAtomicCompareExchange
    (resultType result pointer scope equal unequal value comparator : IdRef).

Abbreviation Blob := (list Instruction) (only parsing).

(** ** Failures *)

Inductive Failure :=
| Assert_collapse_storageClass
| Assert_store_swizzle_size
| Assert_store_dynamicComponent
| Assert_load_swizzle_size
| Assert_load_dynamicComponent
| Assert_literalList_id
| Assert_pushSwizzle_empty
| Assert_pushDynamicComponent_unset
| Assert_pushDynamicComponent_swizzle_size
| Assert_block_open
| Assert_no_function_block
| Assert_function_blocks_empty
| Assert_parameters_size
| Assert_parameterCount
| Assert_qualifier
| Assert_symbol_known
| Assert_symbol_fresh
| Assert_stack_size
| Assert_visit
| Assert_constant_folded
| Assert_return_type
| Assert_stack_empty
| IndexOutOfRange
| PopEmptyStack
| Unreachable
| Unimplemented.

#[global] Instance Failure_eq_dec : EqDecision Failure.
Proof. solve_decision. Defined.

Inductive Result (A : Type) :=
| Ok (a : A)
| Err (e : Failure).
Arguments Ok {A} a.
Arguments Err {A} e.

(** ** The state-and-failure monad *)

Definition M (S A : Type) : Type := S -> Result (A * S).

#[global] Instance M_ret {S} : MRet (M S) := fun A a s => Ok (a, s).
#[global] Instance M_bind {S} : MBind (M S) := fun A B f m s =>
  match m s with
  | Ok (a, s') => f a s'
  | Err e => Err e
  end.

Definition fail {S A} (e : Failure) : M S A := fun _ => Err e.
Definition get {S} : M S S := fun s => Ok (s, s).
Definition put {S} (s : S) : M S unit := fun _ => Ok (tt, s).
Definition modify {S} (f : S -> S) : M S unit := fun s => Ok (tt, f s).

(** [ASSERT(c)] *)
Definition ASSERT {S} (c : bool) (e : Failure) : M S unit :=
  if c then mret tt else fail e.

(** [v[i]] and [v[i] = x] on a list; past the end is a failed bounds check. *)
Definition at_index {S A} (l : list A) (i : nat) : M S A :=
  match l !! i with
  | Some x => mret x
  | None => fail IndexOutOfRange
  end.

Definition set_index {S A} (l : list A) (i : nat) (x : A) : M S (list A) :=
  if bool_decide (i < length l)%nat then mret (<[i := x]> l)
  else fail IndexOutOfRange.

(** A [for] loop over the elements of a list, threading an accumulator. *)
Fixpoint foldM {S A B} (f : B -> A -> M S B) (l : list A) (b : B) : M S B :=
  match l with
  | [] => mret b
  | x :: l' => b' ← f b x; foldM f l' b'
  end.

(** ** The SPIR-V builder *)

#[global] Instance StorageClass_countable : Countable StorageClass.
Proof.
  refine (inj_countable'
    (λ s, match s with
          | StorageClassUniformConstant => 0 | StorageClassInput => 1
          | StorageClassUniform => 2 | StorageClassOutput => 3
          | StorageClassWorkgroup => 4 | StorageClassPrivate => 5
          | StorageClassFunction => 6 | StorageClassPushConstant => 7
          | StorageClassStorageBuffer => 8 | StorageClassMax => 9
          end%nat)
    (λ n, match n with
          | 0 => StorageClassUniformConstant | 1 => StorageClassInput
          | 2 => StorageClassUniform | 3 => StorageClassOutput
          | 4 => StorageClassWorkgroup | 5 => StorageClassPrivate
          | 6 => StorageClassFunction | 7 => StorageClassPushConstant
          | 8 => StorageClassStorageBuffer | _ => StorageClassMax
          end%nat) _).
  by intros [].
Defined.

#[global] Instance TBasicType_countable : Countable TBasicType.
Proof.
  refine (inj_countable'
    (λ t, match t with
          | EbtVoid => 0 | EbtFloat => 1 | EbtDouble => 2 | EbtInt => 3
          | EbtUInt => 4 | EbtBool => 5 | EbtSampler => 6 | EbtImage => 7
          | EbtStruct => 8 | EbtInterfaceBlock => 9
          end%nat)
    (λ n, match n with
          | 0 => EbtVoid | 1 => EbtFloat | 2 => EbtDouble | 3 => EbtInt
          | 4 => EbtUInt | 5 => EbtBool | 6 => EbtSampler | 7 => EbtImage
          | 8 => EbtStruct | _ => EbtInterfaceBlock
          end%nat) _).
  by intros [].
Defined.

#[global] Instance TLayoutBlockStorage_countable : Countable TLayoutBlockStorage.
Proof.
  refine (inj_countable'
    (λ t, match t with
          | EbsUnspecified => 0 | EbsShared => 1 | EbsPacked => 2
          | EbsStd140 => 3 | EbsStd430 => 4
          end%nat)
    (λ n, match n with
          | 0 => EbsUnspecified | 1 => EbsShared | 2 => EbsPacked
          | 3 => EbsStd140 | _ => EbsStd430
          end%nat) _).
  by intros [].
Defined.

#[global] Instance SpirvType_countable : Countable SpirvType.
Proof.
  refine (inj_countable'
    (λ t, (st_type t, st_primarySize t, st_secondarySize t, st_arraySizes t,
           st_blockStorage t))
    (λ p, let '(a, b, c, d, e) := p in
          {| st_type := a; st_primarySize := b; st_secondarySize := c;
             st_arraySizes := d; st_blockStorage := e |}) _).
  by intros [].
Defined.

(** One block of the function being generated. *)
Record SpirvBlock := {
  labelId : IdRef;
  localVariables : Blob;
  body : Blob;
  isTerminated : bool
}.

(** Modelled from the spec: the builder class (BuildSPIRV.h/.cpp) is not part
    of the sources at hand.  Section 4.1 gives its contract: ids are issued
    strictly monotonically and never reused; types, pointer types and scalar
    constants are interned (the same key gives the same id); instructions go
    to the current, unterminated function block; Function-class variables go
    to the entry block of the function and the others to the module. *)
Record SPIRVBuilder := {
  mNextAvailableId : N;
  mTypeMap : gmap SpirvType IdRef;
  mTypePointerIdMap : gmap (IdRef * StorageClass) IdRef;
  mFunctionTypeIdMap : gmap (IdRef * list IdRef) IdRef;
  mUintConstants : gmap N IdRef;
  mIntConstants : gmap Z IdRef;
  mFloatConstants : gmap Z IdRef;
  mBoolConstants : gmap bool IdRef;
  mEntryPointId : IdRef;
  mSpirvDebug : Blob;
  mSpirvTypeAndConstantDecls : Blob;
  mSpirvTypePointerDecls : Blob;
  mSpirvVariableDecls : Blob;
  mSpirvFunctions : Blob;
  mSpirvCurrentFunctionBlocks : list SpirvBlock
}.

(** Field updates. *)
Definition with_mNextAvailableId f (b : SPIRVBuilder) : SPIRVBuilder :=
  {| mNextAvailableId := f (mNextAvailableId b); mTypeMap := mTypeMap b;
     mTypePointerIdMap := mTypePointerIdMap b;
     mFunctionTypeIdMap := mFunctionTypeIdMap b;
     mUintConstants := mUintConstants b; mIntConstants := mIntConstants b;
     mFloatConstants := mFloatConstants b; mBoolConstants := mBoolConstants b;
     mEntryPointId := mEntryPointId b; mSpirvDebug := mSpirvDebug b;
     mSpirvTypeAndConstantDecls := mSpirvTypeAndConstantDecls b;
     mSpirvTypePointerDecls := mSpirvTypePointerDecls b;
     mSpirvVariableDecls := mSpirvVariableDecls b;
     mSpirvFunctions := mSpirvFunctions b;
     mSpirvCurrentFunctionBlocks := mSpirvCurrentFunctionBlocks b |}.
Definition with_mTypeMap f (b : SPIRVBuilder) : SPIRVBuilder :=
  {| mNextAvailableId := mNextAvailableId b; mTypeMap := f (mTypeMap b);
     mTypePointerIdMap := mTypePointerIdMap b;
     mFunctionTypeIdMap := mFunctionTypeIdMap b;
     mUintConstants := mUintConstants b; mIntConstants := mIntConstants b;
     mFloatConstants := mFloatConstants b; mBoolConstants := mBoolConstants b;
     mEntryPointId := mEntryPointId b; mSpirvDebug := mSpirvDebug b;
     mSpirvTypeAndConstantDecls := mSpirvTypeAndConstantDecls b;
     mSpirvTypePointerDecls := mSpirvTypePointerDecls b;
     mSpirvVariableDecls := mSpirvVariableDecls b;
     mSpirvFunctions := mSpirvFunctions b;
     mSpirvCurrentFunctionBlocks := mSpirvCurrentFunctionBlocks b |}.
Definition with_mTypePointerIdMap f (b : SPIRVBuilder) : SPIRVBuilder :=
  {| mNextAvailableId := mNextAvailableId b; mTypeMap := mTypeMap b;
     mTypePointerIdMap := f (mTypePointerIdMap b);
     mFunctionTypeIdMap := mFunctionTypeIdMap b;
     mUintConstants := mUintConstants b; mIntConstants := mIntConstants b;
     mFloatConstants := mFloatConstants b; mBoolConstants := mBoolConstants b;
     mEntryPointId := mEntryPointId b; mSpirvDebug := mSpirvDebug b;
     mSpirvTypeAndConstantDecls := mSpirvTypeAndConstantDecls b;
     mSpirvTypePointerDecls := mSpirvTypePointerDecls b;
     mSpirvVariableDecls := mSpirvVariableDecls b;
     mSpirvFunctions := mSpirvFunctions b;
     mSpirvCurrentFunctionBlocks := mSpirvCurrentFunctionBlocks b |}.
Definition with_mFunctionTypeIdMap f (b : SPIRVBuilder) : SPIRVBuilder :=
  {| mNextAvailableId := mNextAvailableId b; mTypeMap := mTypeMap b;
     mTypePointerIdMap := mTypePointerIdMap b;
     mFunctionTypeIdMap := f (mFunctionTypeIdMap b);
     mUintConstants := mUintConstants b; mIntConstants := mIntConstants b;
     mFloatConstants := mFloatConstants b; mBoolConstants := mBoolConstants b;
     mEntryPointId := mEntryPointId b; mSpirvDebug := mSpirvDebug b;
     mSpirvTypeAndConstantDecls := mSpirvTypeAndConstantDecls b;
     mSpirvTypePointerDecls := mSpirvTypePointerDecls b;
     mSpirvVariableDecls := mSpirvVariableDecls b;
     mSpirvFunctions := mSpirvFunctions b;
     mSpirvCurrentFunctionBlocks := mSpirvCurrentFunctionBlocks b |}.
Definition with_mUintConstants f (b : SPIRVBuilder) : SPIRVBuilder :=
  {| mNextAvailableId := mNextAvailableId b; mTypeMap := mTypeMap b;
     mTypePointerIdMap := mTypePointerIdMap b;
     mFunctionTypeIdMap := mFunctionTypeIdMap b;
     mUintConstants := f (mUintConstants b); mIntConstants := mIntConstants b;
     mFloatConstants := mFloatConstants b; mBoolConstants := mBoolConstants b;
     mEntryPointId := mEntryPointId b; mSpirvDebug := mSpirvDebug b;
     mSpirvTypeAndConstantDecls := mSpirvTypeAndConstantDecls b;
     mSpirvTypePointerDecls := mSpirvTypePointerDecls b;
     mSpirvVariableDecls := mSpirvVariableDecls b;
     mSpirvFunctions := mSpirvFunctions b;
     mSpirvCurrentFunctionBlocks := mSpirvCurrentFunctionBlocks b |}.
Definition with_mIntConstants f (b : SPIRVBuilder) : SPIRVBuilder :=
  {| mNextAvailableId := mNextAvailableId b; mTypeMap := mTypeMap b;
     mTypePointerIdMap := mTypePointerIdMap b;
     mFunctionTypeIdMap := mFunctionTypeIdMap b;
     mUintConstants := mUintConstants b; mIntConstants := f (mIntConstants b);
     mFloatConstants := mFloatConstants b; mBoolConstants := mBoolConstants b;
     mEntryPointId := mEntryPointId b; mSpirvDebug := mSpirvDebug b;
     mSpirvTypeAndConstantDecls := mSpirvTypeAndConstantDecls b;
     mSpirvTypePointerDecls := mSpirvTypePointerDecls b;
     mSpirvVariableDecls := mSpirvVariableDecls b;
     mSpirvFunctions := mSpirvFunctions b;
     mSpirvCurrentFunctionBlocks := mSpirvCurrentFunctionBlocks b |}.
Definition with_mFloatConstants f (b : SPIRVBuilder) : SPIRVBuilder :=
  {| mNextAvailableId := mNextAvailableId b; mTypeMap := mTypeMap b;
     mTypePointerIdMap := mTypePointerIdMap b;
     mFunctionTypeIdMap := mFunctionTypeIdMap b;
     mUintConstants := mUintConstants b; mIntConstants := mIntConstants b;
     mFloatConstants := f (mFloatConstants b);
     mBoolConstants := mBoolConstants b; mEntryPointId := mEntryPointId b;
     mSpirvDebug := mSpirvDebug b;
     mSpirvTypeAndConstantDecls := mSpirvTypeAndConstantDecls b;
     mSpirvTypePointerDecls := mSpirvTypePointerDecls b;
     mSpirvVariableDecls := mSpirvVariableDecls b;
     mSpirvFunctions := mSpirvFunctions b;
     mSpirvCurrentFunctionBlocks := mSpirvCurrentFunctionBlocks b |}.
Definition with_mBoolConstants f (b : SPIRVBuilder) : SPIRVBuilder :=
  {| mNextAvailableId := mNextAvailableId b; mTypeMap := mTypeMap b;
     mTypePointerIdMap := mTypePointerIdMap b;
     mFunctionTypeIdMap := mFunctionTypeIdMap b;
     mUintConstants := mUintConstants b; mIntConstants := mIntConstants b;
     mFloatConstants := mFloatConstants b;
     mBoolConstants := f (mBoolConstants b); mEntryPointId := mEntryPointId b;
     mSpirvDebug := mSpirvDebug b;
     mSpirvTypeAndConstantDecls := mSpirvTypeAndConstantDecls b;
     mSpirvTypePointerDecls := mSpirvTypePointerDecls b;
     mSpirvVariableDecls := mSpirvVariableDecls b;
     mSpirvFunctions := mSpirvFunctions b;
     mSpirvCurrentFunctionBlocks := mSpirvCurrentFunctionBlocks b |}.
Definition with_mEntryPointId f (b : SPIRVBuilder) : SPIRVBuilder :=
  {| mNextAvailableId := mNextAvailableId b; mTypeMap := mTypeMap b;
     mTypePointerIdMap := mTypePointerIdMap b;
     mFunctionTypeIdMap := mFunctionTypeIdMap b;
     mUintConstants := mUintConstants b; mIntConstants := mIntConstants b;
     mFloatConstants := mFloatConstants b; mBoolConstants := mBoolConstants b;
     mEntryPointId := f (mEntryPointId b); mSpirvDebug := mSpirvDebug b;
     mSpirvTypeAndConstantDecls := mSpirvTypeAndConstantDecls b;
     mSpirvTypePointerDecls := mSpirvTypePointerDecls b;
     mSpirvVariableDecls := mSpirvVariableDecls b;
     mSpirvFunctions := mSpirvFunctions b;
     mSpirvCurrentFunctionBlocks := mSpirvCurrentFunctionBlocks b |}.
Definition with_mSpirvDebug f (b : SPIRVBuilder) : SPIRVBuilder :=
  {| mNextAvailableId := mNextAvailableId b; mTypeMap := mTypeMap b;
     mTypePointerIdMap := mTypePointerIdMap b;
     mFunctionTypeIdMap := mFunctionTypeIdMap b;
     mUintConstants := mUintConstants b; mIntConstants := mIntConstants b;
     mFloatConstants := mFloatConstants b; mBoolConstants := mBoolConstants b;
     mEntryPointId := mEntryPointId b; mSpirvDebug := f (mSpirvDebug b);
     mSpirvTypeAndConstantDecls := mSpirvTypeAndConstantDecls b;
     mSpirvTypePointerDecls := mSpirvTypePointerDecls b;
     mSpirvVariableDecls := mSpirvVariableDecls b;
     mSpirvFunctions := mSpirvFunctions b;
     mSpirvCurrentFunctionBlocks := mSpirvCurrentFunctionBlocks b |}.
Definition with_mSpirvTypeAndConstantDecls f (b : SPIRVBuilder) : SPIRVBuilder :=
  {| mNextAvailableId := mNextAvailableId b; mTypeMap := mTypeMap b;
     mTypePointerIdMap := mTypePointerIdMap b;
     mFunctionTypeIdMap := mFunctionTypeIdMap b;
     mUintConstants := mUintConstants b; mIntConstants := mIntConstants b;
     mFloatConstants := mFloatConstants b; mBoolConstants := mBoolConstants b;
     mEntryPointId := mEntryPointId b; mSpirvDebug := mSpirvDebug b;
     mSpirvTypeAndConstantDecls := f (mSpirvTypeAndConstantDecls b);
     mSpirvTypePointerDecls := mSpirvTypePointerDecls b;
     mSpirvVariableDecls := mSpirvVariableDecls b;
     mSpirvFunctions := mSpirvFunctions b;
     mSpirvCurrentFunctionBlocks := mSpirvCurrentFunctionBlocks b |}.
Definition with_mSpirvTypePointerDecls f (b : SPIRVBuilder) : SPIRVBuilder :=
  {| mNextAvailableId := mNextAvailableId b; mTypeMap := mTypeMap b;
     mTypePointerIdMap := mTypePointerIdMap b;
     mFunctionTypeIdMap := mFunctionTypeIdMap b;
     mUintConstants := mUintConstants b; mIntConstants := mIntConstants b;
     mFloatConstants := mFloatConstants b; mBoolConstants := mBoolConstants b;
     mEntryPointId := mEntryPointId b; mSpirvDebug := mSpirvDebug b;
     mSpirvTypeAndConstantDecls := mSpirvTypeAndConstantDecls b;
     mSpirvTypePointerDecls := f (mSpirvTypePointerDecls b);
     mSpirvVariableDecls := mSpirvVariableDecls b;
     mSpirvFunctions := mSpirvFunctions b;
     mSpirvCurrentFunctionBlocks := mSpirvCurrentFunctionBlocks b |}.
Definition with_mSpirvVariableDecls f (b : SPIRVBuilder) : SPIRVBuilder :=
  {| mNextAvailableId := mNextAvailableId b; mTypeMap := mTypeMap b;
     mTypePointerIdMap := mTypePointerIdMap b;
     mFunctionTypeIdMap := mFunctionTypeIdMap b;
     mUintConstants := mUintConstants b; mIntConstants := mIntConstants b;
     mFloatConstants := mFloatConstants b; mBoolConstants := mBoolConstants b;
     mEntryPointId := mEntryPointId b; mSpirvDebug := mSpirvDebug b;
     mSpirvTypeAndConstantDecls := mSpirvTypeAndConstantDecls b;
     mSpirvTypePointerDecls := mSpirvTypePointerDecls b;
     mSpirvVariableDecls := f (mSpirvVariableDecls b);
     mSpirvFunctions := mSpirvFunctions b;
     mSpirvCurrentFunctionBlocks := mSpirvCurrentFunctionBlocks b |}.
Definition with_mSpirvFunctions f (b : SPIRVBuilder) : SPIRVBuilder :=
  {| mNextAvailableId := mNextAvailableId b; mTypeMap := mTypeMap b;
     mTypePointerIdMap := mTypePointerIdMap b;
     mFunctionTypeIdMap := mFunctionTypeIdMap b;
     mUintConstants := mUintConstants b; mIntConstants := mIntConstants b;
     mFloatConstants := mFloatConstants b; mBoolConstants := mBoolConstants b;
     mEntryPointId := mEntryPointId b; mSpirvDebug := mSpirvDebug b;
     mSpirvTypeAndConstantDecls := mSpirvTypeAndConstantDecls b;
     mSpirvTypePointerDecls := mSpirvTypePointerDecls b;
     mSpirvVariableDecls := mSpirvVariableDecls b;
     mSpirvFunctions := f (mSpirvFunctions b);
     mSpirvCurrentFunctionBlocks := mSpirvCurrentFunctionBlocks b |}.
Definition with_mSpirvCurrentFunctionBlocks f (b : SPIRVBuilder) : SPIRVBuilder :=
  {| mNextAvailableId := mNextAvailableId b; mTypeMap := mTypeMap b;
     mTypePointerIdMap := mTypePointerIdMap b;
     mFunctionTypeIdMap := mFunctionTypeIdMap b;
     mUintConstants := mUintConstants b; mIntConstants := mIntConstants b;
     mFloatConstants := mFloatConstants b; mBoolConstants := mBoolConstants b;
     mEntryPointId := mEntryPointId b; mSpirvDebug := mSpirvDebug b;
     mSpirvTypeAndConstantDecls := mSpirvTypeAndConstantDecls b;
     mSpirvTypePointerDecls := mSpirvTypePointerDecls b;
     mSpirvVariableDecls := mSpirvVariableDecls b;
     mSpirvFunctions := mSpirvFunctions b;
     mSpirvCurrentFunctionBlocks := f (mSpirvCurrentFunctionBlocks b) |}.

Definition with_body f (k : SpirvBlock) : SpirvBlock :=
  {| labelId := labelId k; localVariables := localVariables k;
     body := f (body k); isTerminated := isTerminated k |}.
Definition with_localVariables f (k : SpirvBlock) : SpirvBlock :=
  {| labelId := labelId k; localVariables := f (localVariables k);
     body := body k; isTerminated := isTerminated k |}.
Definition with_isTerminated f (k : SpirvBlock) : SpirvBlock :=
  {| labelId := labelId k; localVariables := localVariables k;
     body := body k; isTerminated := f (isTerminated k) |}.

(** Apply [f] to the last element of a list ([back()]). *)
Definition on_back {A} (f : A -> A) (l : list A) : list A :=
  match reverse l with
  | [] => []
  | x :: r => reverse r ++ [f x]
  end.

(** Apply [f] to the first element of a list ([front()]). *)
Definition on_front {A} (f : A -> A) (l : list A) : list A :=
  match l with
  | [] => []
  | x :: r => f x :: r
  end.

Module Builder.

(** Modelled from the spec: [fresh_id], strictly monotonic. *)
Definition getNewId : M SPIRVBuilder IdRef := fun b =>
  Ok (mNextAvailableId b, with_mNextAvailableId N.succ b).

(** Modelled from the spec: the current block takes instructions only while
    it is unterminated; inserting after a terminator is a failed assertion. *)
Definition isOpen (b : SPIRVBuilder) : bool :=
  match last (mSpirvCurrentFunctionBlocks b) with
  | Some k => negb (isTerminated k)
  | None => false
  end.

(** [spirv::WriteX(mBuilder.getSpirvCurrentFunctionBlock(), ...)]: append
    one instruction to the body of the current block. *)
Definition write (i : Instruction) : M SPIRVBuilder unit :=
  b ← get;
  _ ← ASSERT (isOpen b) Assert_block_open;
  modify (with_mSpirvCurrentFunctionBlocks (on_back (with_body (.++ [i])))).

(** Modelled from the spec: [intern_type], idempotent.  A type met for the
    first time takes one fresh id and one declaration. *)
Definition getSpirvTypeData (type : SpirvType) : M SPIRVBuilder IdRef :=
  b ← get;
  match mTypeMap b !! type with
  | Some id => mret id
  | None =>
      id ← getNewId;
      _ ← modify (with_mSpirvTypeAndConstantDecls (.++ [OpTypeDecl id type]));
      _ ← modify (with_mTypeMap <[type := id]>);
      mret id
  end.

Definition getSpirvType (type : TType) (blockStorage : TLayoutBlockStorage)
  : SpirvType :=
  {| st_type := getBasicType type;
     st_primarySize := primarySize type;
     st_secondarySize := secondarySize type;
     st_arraySizes := arraySizes type;
     st_blockStorage := blockStorage |}.

Definition getTypeData (type : TType) (blockStorage : TLayoutBlockStorage)
  : M SPIRVBuilder IdRef :=
  getSpirvTypeData (getSpirvType type blockStorage).

(** Modelled from the spec: [intern_pointer_type], idempotent. *)
Definition getTypePointerId (typeId : IdRef) (storageClass : StorageClass)
  : M SPIRVBuilder IdRef :=
  b ← get;
  match mTypePointerIdMap b !! (typeId, storageClass) with
  | Some id => mret id
  | None =>
      id ← getNewId;
      _ ← modify (with_mSpirvTypePointerDecls
                    (.++ [OpTypePointer id storageClass typeId]));
      _ ← modify (with_mTypePointerIdMap <[(typeId, storageClass) := id]>);
      mret id
  end.

Definition scalarType (t : TBasicType) : SpirvType :=
  {| st_type := t; st_primarySize := 1; st_secondarySize := 1;
     st_arraySizes := []; st_blockStorage := EbsUnspecified |}.

(** Modelled from the spec: [intern_scalar_constant], idempotent, one map
    per basic type. *)
Definition getUintConstant (value : N) : M SPIRVBuilder IdRef :=
  b ← get;
  match mUintConstants b !! value with
  | Some id => mret id
  | None =>
      typeId ← getSpirvTypeData (scalarType EbtUInt);
      id ← getNewId;
      _ ← modify (with_mSpirvTypeAndConstantDecls
                    (.++ [OpConstant typeId id (UintValue value)]));
      _ ← modify (with_mUintConstants <[value := id]>);
      mret id
  end.

Definition getIntConstant (value : Z) : M SPIRVBuilder IdRef :=
  b ← get;
  match mIntConstants b !! value with
  | Some id => mret id
  | None =>
      typeId ← getSpirvTypeData (scalarType EbtInt);
      id ← getNewId;
      _ ← modify (with_mSpirvTypeAndConstantDecls
                    (.++ [OpConstant typeId id (IntValue value)]));
      _ ← modify (with_mIntConstants <[value := id]>);
      mret id
  end.

Definition getFloatConstant (value : Z) : M SPIRVBuilder IdRef :=
  b ← get;
  match mFloatConstants b !! value with
  | Some id => mret id
  | None =>
      typeId ← getSpirvTypeData (scalarType EbtFloat);
      id ← getNewId;
      _ ← modify (with_mSpirvTypeAndConstantDecls
                    (.++ [OpConstant typeId id (FloatValue value)]));
      _ ← modify (with_mFloatConstants <[value := id]>);
      mret id
  end.

Definition getBoolConstant (value : bool) : M SPIRVBuilder IdRef :=
  b ← get;
  match mBoolConstants b !! value with
  | Some id => mret id
  | None =>
      typeId ← getSpirvTypeData (scalarType EbtBool);
      id ← getNewId;
      _ ← modify (with_mSpirvTypeAndConstantDecls
                    (.++ [OpConstant typeId id (BoolValue value)]));
      _ ← modify (with_mBoolConstants <[value := id]>);
      mret id
  end.

(** Modelled from the spec: [declare_variable] emits an [OpVariable], in the
    entry block of the function for the Function class and in the module
    section otherwise, and names it. *)
Definition declareVariable (typeId : IdRef) (storageClass : StorageClass)
    (initializerId : option IdRef) (name : string) : M SPIRVBuilder IdRef :=
  b ← get;
  let isFunctionLocal := bool_decide (storageClass = StorageClassFunction) in
  _ ← ASSERT (negb isFunctionLocal
              || negb (bool_decide (mSpirvCurrentFunctionBlocks b = [])))
        Assert_no_function_block;
  variableId ← getNewId;
  typePointerId ← getTypePointerId typeId storageClass;
  let var := OpVariable typePointerId variableId storageClass initializerId in
  _ ← modify (if isFunctionLocal
              then with_mSpirvCurrentFunctionBlocks
                     (on_front (with_localVariables (.++ [var])))
              else with_mSpirvVariableDecls (.++ [var]));
  _ ← modify (with_mSpirvDebug (.++ [OpName variableId name]));
  mret variableId.

End Builder.

(** ** Node data and access chains *)

(** Either a SPIR-V id or a literal: if [id] is not valid, a literal is
    assumed. *)
Record SpirvIdOrLiteral := {
  id : IdRef;
  literal : LiteralInteger
}.

Definition ofId (idIn : IdRef) : SpirvIdOrLiteral :=
  {| id := idIn; literal := 0%N |}.
Definition ofLiteral (literalIn : LiteralInteger) : SpirvIdOrLiteral :=
  {| id := 0%N; literal := literalIn |}.

Record AccessChain := {
  storageClass : StorageClass;
  swizzles : list N;
  dynamicComponent : IdRef;
  preSwizzleTypeId : IdRef;
  postSwizzleTypeId : IdRef;
  postDynamicComponentTypeId : IdRef;
  accessChainId : IdRef;
  areAllIndicesLiteral : bool;
  swizzledVectorComponentCount : N;
  baseBlockStorage : TLayoutBlockStorage
}.

Record NodeData := {
  baseId : IdRef;
  idList : list SpirvIdOrLiteral;
  accessChain : AccessChain
}.

(** The default member initializers of [AccessChain] and [NodeData]. *)
Definition AccessChain_default : AccessChain :=
  {| storageClass := StorageClassMax; swizzles := []; dynamicComponent := 0%N;
     preSwizzleTypeId := 0%N; postSwizzleTypeId := 0%N;
     postDynamicComponentTypeId := 0%N; accessChainId := 0%N;
     areAllIndicesLiteral := true; swizzledVectorComponentCount := 0%N;
     baseBlockStorage := EbsUnspecified |}.

Definition NodeData_default : NodeData :=
  {| baseId := 0%N; idList := []; accessChain := AccessChain_default |}.

Definition set_storageClass v (a : AccessChain) : AccessChain :=
  {| storageClass := v; swizzles := swizzles a;
     dynamicComponent := dynamicComponent a;
     preSwizzleTypeId := preSwizzleTypeId a;
     postSwizzleTypeId := postSwizzleTypeId a;
     postDynamicComponentTypeId := postDynamicComponentTypeId a;
     accessChainId := accessChainId a;
     areAllIndicesLiteral := areAllIndicesLiteral a;
     swizzledVectorComponentCount := swizzledVectorComponentCount a;
     baseBlockStorage := baseBlockStorage a |}.
Definition set_swizzles v (a : AccessChain) : AccessChain :=
  {| storageClass := storageClass a; swizzles := v;
     dynamicComponent := dynamicComponent a;
     preSwizzleTypeId := preSwizzleTypeId a;
     postSwizzleTypeId := postSwizzleTypeId a;
     postDynamicComponentTypeId := postDynamicComponentTypeId a;
     accessChainId := accessChainId a;
     areAllIndicesLiteral := areAllIndicesLiteral a;
     swizzledVectorComponentCount := swizzledVectorComponentCount a;
     baseBlockStorage := baseBlockStorage a |}.
Definition set_dynamicComponent v (a : AccessChain) : AccessChain :=
  {| storageClass := storageClass a; swizzles := swizzles a;
     dynamicComponent := v; preSwizzleTypeId := preSwizzleTypeId a;
     postSwizzleTypeId := postSwizzleTypeId a;
     postDynamicComponentTypeId := postDynamicComponentTypeId a;
     accessChainId := accessChainId a;
     areAllIndicesLiteral := areAllIndicesLiteral a;
     swizzledVectorComponentCount := swizzledVectorComponentCount a;
     baseBlockStorage := baseBlockStorage a |}.
Definition set_preSwizzleTypeId v (a : AccessChain) : AccessChain :=
  {| storageClass := storageClass a; swizzles := swizzles a;
     dynamicComponent := dynamicComponent a; preSwizzleTypeId := v;
     postSwizzleTypeId := postSwizzleTypeId a;
     postDynamicComponentTypeId := postDynamicComponentTypeId a;
     accessChainId := accessChainId a;
     areAllIndicesLiteral := areAllIndicesLiteral a;
     swizzledVectorComponentCount := swizzledVectorComponentCount a;
     baseBlockStorage := baseBlockStorage a |}.
Definition set_postSwizzleTypeId v (a : AccessChain) : AccessChain :=
  {| storageClass := storageClass a; swizzles := swizzles a;
     dynamicComponent := dynamicComponent a;
     preSwizzleTypeId := preSwizzleTypeId a; postSwizzleTypeId := v;
     postDynamicComponentTypeId := postDynamicComponentTypeId a;
     accessChainId := accessChainId a;
     areAllIndicesLiteral := areAllIndicesLiteral a;
     swizzledVectorComponentCount := swizzledVectorComponentCount a;
     baseBlockStorage := baseBlockStorage a |}.
Definition set_postDynamicComponentTypeId v (a : AccessChain) : AccessChain :=
  {| storageClass := storageClass a; swizzles := swizzles a;
     dynamicComponent := dynamicComponent a;
     preSwizzleTypeId := preSwizzleTypeId a;
     postSwizzleTypeId := postSwizzleTypeId a;
     postDynamicComponentTypeId := v; accessChainId := accessChainId a;
     areAllIndicesLiteral := areAllIndicesLiteral a;
     swizzledVectorComponentCount := swizzledVectorComponentCount a;
     baseBlockStorage := baseBlockStorage a |}.
Definition set_accessChainId v (a : AccessChain) : AccessChain :=
  {| storageClass := storageClass a; swizzles := swizzles a;
     dynamicComponent := dynamicComponent a;
     preSwizzleTypeId := preSwizzleTypeId a;
     postSwizzleTypeId := postSwizzleTypeId a;
     postDynamicComponentTypeId := postDynamicComponentTypeId a;
     accessChainId := v; areAllIndicesLiteral := areAllIndicesLiteral a;
     swizzledVectorComponentCount := swizzledVectorComponentCount a;
     baseBlockStorage := baseBlockStorage a |}.
Definition set_areAllIndicesLiteral v (a : AccessChain) : AccessChain :=
  {| storageClass := storageClass a; swizzles := swizzles a;
     dynamicComponent := dynamicComponent a;
     preSwizzleTypeId := preSwizzleTypeId a;
     postSwizzleTypeId := postSwizzleTypeId a;
     postDynamicComponentTypeId := postDynamicComponentTypeId a;
     accessChainId := accessChainId a; areAllIndicesLiteral := v;
     swizzledVectorComponentCount := swizzledVectorComponentCount a;
     baseBlockStorage := baseBlockStorage a |}.
Definition set_swizzledVectorComponentCount v (a : AccessChain) : AccessChain :=
  {| storageClass := storageClass a; swizzles := swizzles a;
     dynamicComponent := dynamicComponent a;
     preSwizzleTypeId := preSwizzleTypeId a;
     postSwizzleTypeId := postSwizzleTypeId a;
     postDynamicComponentTypeId := postDynamicComponentTypeId a;
     accessChainId := accessChainId a;
     areAllIndicesLiteral := areAllIndicesLiteral a;
     swizzledVectorComponentCount := v;
     baseBlockStorage := baseBlockStorage a |}.
Definition set_baseBlockStorage v (a : AccessChain) : AccessChain :=
  {| storageClass := storageClass a; swizzles := swizzles a;
     dynamicComponent := dynamicComponent a;
     preSwizzleTypeId := preSwizzleTypeId a;
     postSwizzleTypeId := postSwizzleTypeId a;
     postDynamicComponentTypeId := postDynamicComponentTypeId a;
     accessChainId := accessChainId a;
     areAllIndicesLiteral := areAllIndicesLiteral a;
     swizzledVectorComponentCount := swizzledVectorComponentCount a;
     baseBlockStorage := v |}.

Definition set_baseId v (d : NodeData) : NodeData :=
  {| baseId := v; idList := idList d; accessChain := accessChain d |}.
Definition set_idList v (d : NodeData) : NodeData :=
  {| baseId := baseId d; idList := v; accessChain := accessChain d |}.
Definition set_accessChain v (d : NodeData) : NodeData :=
  {| baseId := baseId d; idList := idList d; accessChain := v |}.
Definition on_accessChain (f : AccessChain -> AccessChain) (d : NodeData)
  : NodeData :=
  set_accessChain (f (accessChain d)) d.

Definition IsAccessChainRValue (accessChain : AccessChain) : bool :=
  bool_decide (storageClass accessChain = StorageClassMax).

Definition IsAccessChainUnindexedLValue (data : NodeData) : bool :=
  negb (IsAccessChainRValue (accessChain data))
  && bool_decide (idList data = [])
  && bool_decide (swizzles (accessChain data) = [])
  && negb (valid (dynamicComponent (accessChain data))).

Import Builder.

Definition nodeDataInitLValue (baseId typeId : IdRef)
    (storageClass : StorageClass) (blockStorage : TLayoutBlockStorage)
  : NodeData :=
  {| baseId := baseId;
     idList := [];
     accessChain :=
       set_baseBlockStorage blockStorage
         (set_storageClass storageClass
            (set_preSwizzleTypeId typeId AccessChain_default)) |}.

Definition nodeDataInitRValue (baseId typeId : IdRef) : NodeData :=
  {| baseId := baseId;
     idList := [];
     accessChain := set_preSwizzleTypeId typeId AccessChain_default |}.

Definition accessChainPush (data : NodeData) (index typeId : IdRef)
  : NodeData :=
  let data := set_idList (idList data ++ [ofId index]) data in
  let data := on_accessChain (set_areAllIndicesLiteral false) data in
  on_accessChain (set_preSwizzleTypeId typeId) data.

Definition accessChainPushLiteral (data : NodeData) (index : LiteralInteger)
    (typeId : IdRef) : NodeData :=
  let data := set_idList (idList data ++ [ofLiteral index]) data in
  on_accessChain (set_preSwizzleTypeId typeId) data.

Definition accessChainPushSwizzle (data : NodeData) (swizzle : list Z)
    (typeId : IdRef) (componentCount : N) : M SPIRVBuilder NodeData :=
  _ ← ASSERT (bool_decide (swizzles (accessChain data) = []))
        Assert_pushSwizzle_empty;
  match swizzle with
  | [s0] => mret (accessChainPushLiteral data (uint32 s0) typeId)
  | _ =>
      let data :=
        on_accessChain
          (fun a => set_swizzles (swizzles a ++ map uint32 swizzle) a) data in
      let data := on_accessChain (set_postSwizzleTypeId typeId) data in
      mret (on_accessChain (set_swizzledVectorComponentCount componentCount)
              data)
  end.

Definition accessChainPushDynamicComponent (data : NodeData)
    (index typeId : IdRef) : M SPIRVBuilder NodeData :=
  let ac := accessChain data in
  _ ← ASSERT (negb (valid (dynamicComponent ac)))
        Assert_pushDynamicComponent_unset;
  if IsAccessChainRValue ac && areAllIndicesLiteral ac then
    let data := on_accessChain (set_dynamicComponent index) data in
    mret (on_accessChain (set_postDynamicComponentTypeId typeId) data)
  else
    '(index, data) ←
      (if negb (bool_decide (swizzles ac = [])) then
         _ ← ASSERT (bool_decide (1 < length (swizzles ac))%nat)
               Assert_pushDynamicComponent_swizzle_size;
         swizzleIds ←
           foldM (fun ids component =>
                    c ← getUintConstant component; mret (ids ++ [c]))
             (swizzles ac) [];
         uintTypeId ← getSpirvTypeData (scalarType EbtUInt);
         uvecTypeId ←
           getSpirvTypeData
             {| st_type := EbtUInt;
                st_primarySize := Z.of_nat (length swizzleIds) mod 2 ^ 8;
                st_secondarySize := 1; st_arraySizes := [];
                st_blockStorage := EbsUnspecified |};
         swizzlesId ← getNewId;
         _ ← modify (with_mSpirvTypeAndConstantDecls
                       (.++ [OpConstantComposite uvecTypeId swizzlesId
                               swizzleIds]));
         newIndex ← getNewId;
         _ ← write (OpVectorExtractDynamic uintTypeId newIndex swizzlesId
                      index);
         mret (newIndex, on_accessChain (set_swizzles []) data)
       else mret (index, data));
    mret (accessChainPush data index typeId).

Definition makeAccessChainIdList (data : NodeData)
  : M SPIRVBuilder (list IdRef) :=
  foldM (fun idsOut entry =>
           indexId ← (if valid (id entry) then mret (id entry)
                      else getUintConstant (literal entry));
           mret (idsOut ++ [indexId]))
    (idList data) [].

Definition makeAccessChainLiteralList (data : NodeData)
  : M SPIRVBuilder (list LiteralInteger) :=
  foldM (fun literalsOut entry =>
           _ ← ASSERT (negb (valid (id entry))) Assert_literalList_id;
           mret (literalsOut ++ [literal entry]))
    (idList data) [].

Definition accessChainCollapse (data : NodeData)
  : M SPIRVBuilder (IdRef * NodeData) :=
  let ac := accessChain data in
  _ ← ASSERT (negb (bool_decide (storageClass ac = StorageClassMax)))
        Assert_collapse_storageClass;
  if valid (accessChainId ac) then mret (accessChainId ac, data)
  else if bool_decide (idList data = []) then
    mret (baseId data, on_accessChain (set_accessChainId (baseId data)) data)
  else
    indexIds ← makeAccessChainIdList data;
    typePointerId ← getTypePointerId (preSwizzleTypeId ac) (storageClass ac);
    newId ← getNewId;
    let data := on_accessChain (set_accessChainId newId) data in
    _ ← write (OpAccessChain typePointerId newId (baseId data) indexIds);
    mret (newId, data).

Definition accessChainLoad (data : NodeData)
  : M SPIRVBuilder (IdRef * NodeData) :=
  let loadResult := baseId data in
  '(loadResult, data) ←
    (if IsAccessChainRValue (accessChain data) then
       if bool_decide (0 < length (idList data))%nat then
         if areAllIndicesLiteral (accessChain data) then
           indexList ← makeAccessChainLiteralList data;
           result ← getNewId;
           _ ← write (OpCompositeExtract
                        (preSwizzleTypeId (accessChain data)) result
                        loadResult indexList);
           mret (result, data)
         else
           tempVar ← declareVariable (preSwizzleTypeId (accessChain data))
                       StorageClassFunction None "indexable";
           _ ← write (OpStore tempVar loadResult);
           let data := set_baseId tempVar data in
           let data :=
             on_accessChain (set_storageClass StorageClassFunction) data in
           '(accessChainId, data) ← accessChainCollapse data;
           loadResult ← getNewId;
           _ ← write (OpLoad (preSwizzleTypeId (accessChain data)) loadResult
                        accessChainId);
           mret (loadResult, data)
       else mret (loadResult, data)
     else
       '(accessChainId, data) ← accessChainCollapse data;
       loadResult ← getNewId;
       _ ← write (OpLoad (preSwizzleTypeId (accessChain data)) loadResult
                    accessChainId);
       mret (loadResult, data));
  loadResult ←
    (if negb (bool_decide (swizzles (accessChain data) = [])) then
       _ ← ASSERT (bool_decide (1 < length (swizzles (accessChain data)))%nat)
             Assert_load_swizzle_size;
       let swizzleList := swizzles (accessChain data) in
       result ← getNewId;
       _ ← write (OpVectorShuffle (postSwizzleTypeId (accessChain data))
                    result loadResult loadResult swizzleList);
       mret result
     else mret loadResult);
  loadResult ←
    (if valid (dynamicComponent (accessChain data)) then
       _ ← ASSERT (bool_decide (swizzles (accessChain data) = []))
             Assert_load_dynamicComponent;
       result ← getNewId;
       _ ← write (OpVectorExtractDynamic
                    (postDynamicComponentTypeId (accessChain data)) result
                    loadResult (dynamicComponent (accessChain data)));
       mret result
     else mret loadResult);
  mret (loadResult, data).

(** The shuffle mask of a swizzled store: the identity on the
    [swizzledVectorComponentCount] lanes of the destination, then each
    swizzled lane redirected to the matching component of the value. *)
Definition storeSwizzleList (count : N) (swizzles : list N)
  : M SPIRVBuilder (list LiteralInteger) :=
  let swizzleList := map N.of_nat (seq 0 (N.to_nat count)) in
  '(swizzleList, _) ←
    foldM (fun '(swizzleList, srcComponent) dstComponent =>
             swizzleList ←
               set_index swizzleList (N.to_nat dstComponent)
                 ((count + srcComponent) mod 2 ^ 32)%N;
             mret (swizzleList, ((srcComponent + 1) mod 2 ^ 32)%N))
      swizzles (swizzleList, 0%N);
  mret swizzleList.

Definition accessChainStore (data : NodeData) (value : IdRef)
  : M SPIRVBuilder NodeData :=
  _ ← ASSERT (negb (bool_decide (length (swizzles (accessChain data)) = 1%nat)))
        Assert_store_swizzle_size;
  _ ← ASSERT (negb (valid (dynamicComponent (accessChain data))))
        Assert_store_dynamicComponent;
  '(accessChainId, data) ← accessChainCollapse data;
  value ←
    (if negb (bool_decide (swizzles (accessChain data) = [])) then
       loadResult ← getNewId;
       _ ← write (OpLoad (preSwizzleTypeId (accessChain data)) loadResult
                    accessChainId);
       swizzleList ←
         storeSwizzleList (swizzledVectorComponentCount (accessChain data))
           (swizzles (accessChain data));
       result ← getNewId;
       _ ← write (OpVectorShuffle (postSwizzleTypeId (accessChain data))
                    result loadResult value swizzleList);
       mret result
     else mret value);
  _ ← write (OpStore accessChainId value);
  mret data.

Definition getAccessChainTypeId (data : NodeData) : IdRef :=
  let ac := accessChain data in
  if valid (postDynamicComponentTypeId ac) then postDynamicComponentTypeId ac
  else if valid (postSwizzleTypeId ac) then postSwizzleTypeId ac
  else preSwizzleTypeId ac.

(** ** Reasoning about generator runs *)

(** [wp m s Q]: the computation [m] run from [s] returns, and its result and
    final state satisfy [Q]. *)
Definition wp {S A} (m : M S A) (s : S) (Q : A -> S -> Prop) : Prop :=
  exists a s', m s = Ok (a, s') /\ Q a s'.

(** The body of the block instructions are currently written to. *)
Definition currentBody (b : SPIRVBuilder) : Blob :=
  match last (mSpirvCurrentFunctionBlocks b) with
  | Some k => body k
  | None => []
  end.

(** The variables declared so far in the entry block of the function. *)
Definition functionVariables (b : SPIRVBuilder) : Blob :=
  match mSpirvCurrentFunctionBlocks b with
  | k :: _ => localVariables k
  | [] => []
  end.

(** From [b] to [b'] exactly the instructions [ins] were appended to the
    current block, which stays open if it was; no id was taken back, no
    interned uint constant forgotten and no function variable dropped. *)
Definition emits (b b' : SPIRVBuilder) (ins : Blob) : Prop :=
  currentBody b' = currentBody b ++ ins
  /\ isOpen b' = isOpen b
  /\ (mNextAvailableId b <= mNextAvailableId b')%N
  /\ mUintConstants b ⊆ mUintConstants b'
  /\ functionVariables b `prefix_of` functionVariables b'.

(** ** The access-chain decision tables, as relations

    These follow the wording of the specification (section 4.2) and of the
    comments at the head of [accessChainLoad] and [accessChainStore]; the
    theorems relate them to the functions above. *)

(** The ids an [OpAccessChain] takes for an index list: an id stands for
    itself, a literal for the uint constant interned for it. *)
Definition index_ids (b' : SPIRVBuilder) (l : list SpirvIdOrLiteral)
    (ids : list IdRef) : Prop :=
  Forall2 (fun e i => if valid (id e) then i = id e
                      else mUintConstants b' !! literal e = Some i) l ids.

(** [collapse]: the pointer an lvalue chain denotes, and the code that
    computes it. *)
Inductive collapse_table (data : NodeData) (b' : SPIRVBuilder)
  : IdRef -> Blob -> Prop :=
| collapse_cached :
    valid (accessChainId (accessChain data)) = true ->
    collapse_table data b' (accessChainId (accessChain data)) []
| collapse_unindexed :
    valid (accessChainId (accessChain data)) = false ->
    idList data = [] ->
    collapse_table data b' (baseId data) []
| collapse_indexed ptr ptrTy ids :
    valid (accessChainId (accessChain data)) = false ->
    idList data <> [] ->
    index_ids b' (idList data) ids ->
    collapse_table data b' ptr
      [OpAccessChain ptrTy ptr (baseId data) ids].

(** Steps 1 to 4 of [load]: the value before swizzle and dynamic component,
    the record afterwards, and the code. *)
Inductive load_table (data : NodeData) (b b' : SPIRVBuilder)
  : IdRef -> NodeData -> Blob -> Prop :=
| load_rvalue_unindexed :
    IsAccessChainRValue (accessChain data) = true ->
    idList data = [] ->
    load_table data b b' (baseId data) data []
| load_rvalue_literal r :
    IsAccessChainRValue (accessChain data) = true ->
    idList data <> [] ->
    areAllIndicesLiteral (accessChain data) = true ->
    load_table data b b' r data
      [OpCompositeExtract (preSwizzleTypeId (accessChain data)) r
         (baseId data) (map literal (idList data))]
| load_rvalue_spill r tempVar varTy ptr ptrTy ids :
    IsAccessChainRValue (accessChain data) = true ->
    idList data <> [] ->
    areAllIndicesLiteral (accessChain data) = false ->
    tempVar = mNextAvailableId b ->
    OpVariable varTy tempVar StorageClassFunction None
      ∈ functionVariables b' ->
    index_ids b' (idList data) ids ->
    load_table data b b' r
      (on_accessChain (set_accessChainId ptr)
         (on_accessChain (set_storageClass StorageClassFunction)
            (set_baseId tempVar data)))
      [OpStore tempVar (baseId data);
       OpAccessChain ptrTy ptr tempVar ids;
       OpLoad (preSwizzleTypeId (accessChain data)) r ptr]
| load_lvalue r ptr ins :
    IsAccessChainRValue (accessChain data) = false ->
    collapse_table data b' ptr ins ->
    load_table data b b' r
      (on_accessChain (set_accessChainId ptr) data)
      (ins ++ [OpLoad (preSwizzleTypeId (accessChain data)) r ptr]).

(** Step 5 of [load]: a pending multi-component swizzle. *)
Definition swizzle_table (ac : AccessChain) (r1 r2 : IdRef) (ins : Blob)
  : Prop :=
  if bool_decide (swizzles ac = []) then r2 = r1 /\ ins = []
  else ins = [OpVectorShuffle (postSwizzleTypeId ac) r2 r1 r1 (swizzles ac)].

(** Step 6 of [load]: a pending dynamic component. *)
Definition dynamic_table (ac : AccessChain) (r2 r : IdRef) (ins : Blob)
  : Prop :=
  if valid (dynamicComponent ac)
  then ins = [OpVectorExtractDynamic (postDynamicComponentTypeId ac) r r2
                (dynamicComponent ac)]
  else r = r2 /\ ins = [].

(** The whole of [load]: [r] is the value of the chain, [data'] the record
    afterwards and [ins] the code, between the builder states [b] and [b']. *)
Definition loads (data : NodeData) (b b' : SPIRVBuilder) (r : IdRef)
    (data' : NodeData) (ins : Blob) : Prop :=
  exists r1 r2 ins1 ins2 ins3,
    load_table data b b' r1 data' ins1
    /\ swizzle_table (accessChain data) r1 r2 ins2
    /\ dynamic_table (accessChain data) r2 r ins3
    /\ ins = ins1 ++ ins2 ++ ins3.

(** The invariants of a record that [load] relies on (section 3): a pending
    swizzle has several components, a dynamic component is pending only
    when no swizzle is, the all-literal flag tells the truth, and an rvalue
    has no collapsed id. *)
Record load_invariants (data : NodeData) : Prop := {
  inv_swizzle : length (swizzles (accessChain data)) <> 1%nat;
  inv_dynamic :
    valid (dynamicComponent (accessChain data)) = true ->
    swizzles (accessChain data) = [];
  inv_literal :
    areAllIndicesLiteral (accessChain data) = true ->
    Forall (fun e => valid (id e) = false) (idList data);
  inv_rvalue :
    IsAccessChainRValue (accessChain data) = true ->
    valid (accessChainId (accessChain data)) = false
}.

(** [post m s Q E]: if [m] returns from [s], [Q] holds of the result and
    state; if it fails, [E] holds of the failure. *)
Definition post {S A} (m : M S A) (s : S) (Q : A -> S -> Prop)
    (E : Failure -> Prop) : Prop :=
  match m s with
  | Ok (a, s') => Q a s'
  | Err e => E e
  end.


(** ** What the stored-to vector holds afterwards *)

(** The source-language meaning of [v.swizzle = u]: component [k] of [u]
    goes to lane [swizzle[k]] of [v]; the other lanes keep their value. *)
Fixpoint swizzle_assign {A} (v : list A) (swizzle : list N) (u : list A)
  : list A :=
  match swizzle, u with
  | dst :: swizzle', x :: u' => swizzle_assign (<[N.to_nat dst := x]> v) swizzle' u'
  | _, _ => v
  end.

(** Values of ids and contents of pointers, each a vector of components. *)
Record Machine (A : Type) := {
  regs : gmap N (list A);
  mem : gmap N (list A)
}.
Arguments regs {A} _.
Arguments mem {A} _.

(** The three instructions of a swizzled store, by the SPIR-V rules.  A
    value is the vector of its components, and [types] gives the number of
    components of the vector type each type id stands for.  [OpLoad] reads
    the pointer, and its Result Type is the type behind the pointer;
    [OpVectorShuffle] numbers the components of its two operands
    consecutively and picks one per entry of the mask, and its Result Type
    has as many components as the mask has entries; [OpStore] writes the
    pointer, and the object has the type behind the pointer.  An
    instruction that breaks its rule has no result. *)
Definition exec {A} (types : gmap N nat) (i : Instruction) (m : Machine A)
  : option (Machine A) :=
  match i with
  | OpLoad resultType result pointer =>
      v ← mem m !! pointer;
      if decide (types !! resultType = Some (length v))
      then Some {| regs := <[result := v]> (regs m); mem := mem m |}
      else None
  | OpVectorShuffle resultType result vector1 vector2 components =>
      v1 ← regs m !! vector1;
      v2 ← regs m !! vector2;
      r ← mapM (fun c => (v1 ++ v2) !! N.to_nat c) components;
      if decide (types !! resultType = Some (length components))
      then Some {| regs := <[result := r]> (regs m); mem := mem m |}
      else None
  | OpStore pointer object =>
      v ← regs m !! object;
      old ← mem m !! pointer;
      if decide (length v = length old)
      then Some {| regs := regs m; mem := <[pointer := v]> (mem m) |}
      else None
  | _ => None
  end.

Fixpoint exec_all {A} (types : gmap N nat) (ins : Blob) (m : Machine A)
  : option (Machine A) :=
  match ins with
  | [] => Some m
  | i :: ins' => m' ← exec types i m; exec_all types ins' m'
  end.

(** ** Sample states *)

Definition block0 : SpirvBlock :=
  {| labelId := 9%N; localVariables := []; body := []; isTerminated := false |}.

(** A builder inside a function, one open block, ids from 10 on. *)
Definition builder0 : SPIRVBuilder :=
  {| mNextAvailableId := 10%N; mTypeMap := ∅; mTypePointerIdMap := ∅;
     mFunctionTypeIdMap := ∅; mUintConstants := ∅; mIntConstants := ∅; mFloatConstants := ∅;
     mBoolConstants := ∅; mEntryPointId := 0%N; mSpirvDebug := [];
     mSpirvTypeAndConstantDecls := []; mSpirvTypePointerDecls := [];
     mSpirvVariableDecls := []; mSpirvFunctions := [];
     mSpirvCurrentFunctionBlocks := [block0] |}.

(** [vec4 v; ... v.zx]: an lvalue of the Function class, id 5, of type id 2
    (vec4), with the swizzle [zx] of type id 3 (vec2) pending. *)
Definition v_zx : NodeData :=
  {| baseId := 5%N;
     idList := [];
     accessChain :=
       set_swizzledVectorComponentCount 4%N
         (set_postSwizzleTypeId 3%N
            (set_swizzles [2%N; 0%N]
               (accessChain
                  (nodeDataInitLValue 5%N 2%N StorageClassFunction
                     EbsUnspecified)))) |}.

(** [m[1][0].yx] on an rvalue [m] (id 7): two literal indices, then a
    swizzle. *)
Definition rvalue_1_0_yx : NodeData :=
  on_accessChain
    (fun a => set_swizzledVectorComponentCount 4%N
                (set_postSwizzleTypeId 3%N (set_swizzles [1%N; 0%N] a)))
    (accessChainPushLiteral
       (accessChainPushLiteral (nodeDataInitRValue 7%N 1%N) 1%N 2%N) 0%N 4%N).

(** The mask [accessChainStore] computes, as a pure function. *)
Definition store_mask_from (count : N) (swizzles : list N)
    (start : list N * N) : list N * N :=
  fold_left (fun '(l, k) dst => (<[N.to_nat dst := (count + k)%N]> l, (k + 1)%N))
    swizzles start.

Definition store_mask (count : N) (swizzles : list N) : list N :=
  (store_mask_from count swizzles
     (map N.of_nat (seq 0 (N.to_nat count)), 0%N)).1.

(** ** The tree *)

Inductive Visit := PreVisit | InVisit | PostVisit.

#[global] Instance Visit_eq_dec : EqDecision Visit.
Proof. solve_decision. Defined.

Inductive TOperator :=
| EOpConstruct | EOpCallFunctionInAST
| EOpAtomicAdd | EOpAtomicMin | EOpAtomicMax | EOpAtomicAnd | EOpAtomicOr
| EOpAtomicXor | EOpAtomicExchange | EOpAtomicCompSwap
| EOpKill | EOpBreak | EOpContinue | EOpReturn
| EOpOther.

#[global] Instance TOperator_eq_dec : EqDecision TOperator.
Proof. solve_decision. Defined.

(** A symbol is known by its identity (its address in the translator). *)
Record TVariable := {
  var_symbol : N;
  var_type : TType
}.

Record TFunction := {
  fn_symbol : N;
  fn_name : string;
  fn_returnType : TType;
  fn_params : list TVariable;
  isMain : bool
}.

(** The nodes the generator is followed through here.  Each typed node
    carries its type; a symbol also says whether it was folded to a
    constant. *)
#[warnings="-register-all"]
Inductive TIntermNode :=
| TIntermSymbol (type : TType) (variable : TVariable) (constantValue : bool)
| TIntermSwizzle (type : TType) (operand : TIntermNode) (offsets : list Z)
| TIntermAggregate (op : TOperator) (type : TType)
    (function : option TFunction) (sequence : list TIntermNode)
| TIntermBlock (sequence : list TIntermNode)
| TIntermFunctionPrototype (function : TFunction)
| TIntermFunctionDefinition (function : TFunction) (body : TIntermNode)
| TIntermBranch (flowOp : TOperator) (expression : option TIntermNode).

Definition voidType : TType :=
  {| getBasicType := EbtVoid; getQualifier := EvqTemporary; primarySize := 1;
     secondarySize := 1; arraySizes := []; isStruct := false |}.

Definition getType (node : TIntermNode) : TType :=
  match node with
  | TIntermSymbol type _ _ => type
  | TIntermSwizzle type _ _ => type
  | TIntermAggregate _ type _ _ => type
  | _ => voidType
  end.

Fixpoint hasConstantValue (node : TIntermNode) : bool :=
  match node with
  | TIntermSymbol _ _ c => c
  | TIntermSwizzle _ operand _ => hasConstantValue operand
  | _ => false
  end.

(** ** The traverser *)

Record OutputSPIRVTraverser := {
  mBuilder : SPIRVBuilder;
  mNodeData : list NodeData;
  mSymbolIdMap : gmap N IdRef;
  mIsSymbolBeingDeclared : bool;
  mInGlobalScope : bool
}.

Definition with_mBuilder f (t : OutputSPIRVTraverser) : OutputSPIRVTraverser :=
  {| mBuilder := f (mBuilder t); mNodeData := mNodeData t;
     mSymbolIdMap := mSymbolIdMap t;
     mIsSymbolBeingDeclared := mIsSymbolBeingDeclared t;
     mInGlobalScope := mInGlobalScope t |}.
Definition with_mNodeData f (t : OutputSPIRVTraverser) : OutputSPIRVTraverser :=
  {| mBuilder := mBuilder t; mNodeData := f (mNodeData t);
     mSymbolIdMap := mSymbolIdMap t;
     mIsSymbolBeingDeclared := mIsSymbolBeingDeclared t;
     mInGlobalScope := mInGlobalScope t |}.
Definition with_mSymbolIdMap f (t : OutputSPIRVTraverser) : OutputSPIRVTraverser :=
  {| mBuilder := mBuilder t; mNodeData := mNodeData t;
     mSymbolIdMap := f (mSymbolIdMap t);
     mIsSymbolBeingDeclared := mIsSymbolBeingDeclared t;
     mInGlobalScope := mInGlobalScope t |}.
Definition with_mIsSymbolBeingDeclared f (t : OutputSPIRVTraverser)
  : OutputSPIRVTraverser :=
  {| mBuilder := mBuilder t; mNodeData := mNodeData t;
     mSymbolIdMap := mSymbolIdMap t;
     mIsSymbolBeingDeclared := f (mIsSymbolBeingDeclared t);
     mInGlobalScope := mInGlobalScope t |}.
Definition with_mInGlobalScope f (t : OutputSPIRVTraverser)
  : OutputSPIRVTraverser :=
  {| mBuilder := mBuilder t; mNodeData := mNodeData t;
     mSymbolIdMap := mSymbolIdMap t;
     mIsSymbolBeingDeclared := mIsSymbolBeingDeclared t;
     mInGlobalScope := f (mInGlobalScope t) |}.

(** Run a builder computation on [mBuilder]. *)
Definition onBuilder {A} (m : M SPIRVBuilder A) : M OutputSPIRVTraverser A :=
  fun t =>
    match m (mBuilder t) with
    | Ok (a, b') => Ok (a, with_mBuilder (fun _ => b') t)
    | Err e => Err e
    end.

(** [mNodeData.size() - parameterCount + paramIndex], in [size_t]: with more
    parameters than records the difference wraps and the index is past the
    end. *)
Definition paramSlot (parameterCount paramIndex : nat)
  : M OutputSPIRVTraverser nat :=
  t ← get;
  if bool_decide (parameterCount <= length (mNodeData t))%nat
  then mret (length (mNodeData t) - parameterCount + paramIndex)%nat
  else fail IndexOutOfRange.

(** Run an access-chain function on the record [mNodeData[slot]], which it
    may update in place. *)
Definition onNodeData {A} (slot : nat)
    (f : NodeData -> M SPIRVBuilder (A * NodeData))
  : M OutputSPIRVTraverser A :=
  t ← get;
  data ← at_index (mNodeData t) slot;
  '(a, data) ← onBuilder (f data);
  _ ← modify (with_mNodeData <[slot := data]>);
  mret a.

(** [mNodeData.back()] *)
Definition backSlot : M OutputSPIRVTraverser nat :=
  t ← get;
  if bool_decide (mNodeData t = []) then fail IndexOutOfRange
  else mret (length (mNodeData t) - 1)%nat.

(** [mNodeData.pop_back()]; nothing defines it on an empty vector. *)
Definition pop_back : M OutputSPIRVTraverser unit :=
  t ← get;
  if bool_decide (mNodeData t = []) then fail PopEmptyStack
  else modify (with_mNodeData (fun l => take (length l - 1) l)).

Definition emplace_back : M OutputSPIRVTraverser unit :=
  modify (with_mNodeData (.++ [NodeData_default])).

(** ** Swizzles *)

(** [isIdentity]: the swizzle has as many components as the vector and
    selects them in order. *)
Definition isIdentitySwizzle (vectorComponentCount : N) (swizzle : list Z)
  : bool :=
  fold_left
    (fun isIdentity '(index, s) =>
       isIdentity && bool_decide (size_t s = N.of_nat index))
    (imap (fun index s => (index, s)) swizzle)
    (bool_decide (N.of_nat (length swizzle) = vectorComponentCount)).

Definition visitSwizzle (visit : Visit) (node : TIntermNode)
  : M OutputSPIRVTraverser bool :=
  match node with
  | TIntermSwizzle type operand swizzle =>
      _ ← ASSERT (negb (hasConstantValue node)) Assert_constant_folded;
      if bool_decide (visit = PreVisit) then mret true
      else
        _ ← ASSERT (bool_decide (visit = PostVisit)) Assert_visit;
        t ← get;
        _ ← ASSERT (bool_decide (1 <= length (mNodeData t))%nat)
              Assert_stack_size;
        let vectorType := getType operand in
        let vectorComponentCount :=
          Z.to_N (getNominalSize vectorType mod 2 ^ 8) in
        if isIdentitySwizzle vectorComponentCount swizzle then mret true
        else
          slot ← backSlot;
          back ← at_index (mNodeData t) slot;
          typeId ← onBuilder
                     (getTypeData type (baseBlockStorage (accessChain back)));
          _ ← onNodeData slot
                (fun data =>
                   data ← accessChainPushSwizzle data swizzle typeId
                            vectorComponentCount;
                   mret (tt, data));
          mret true
  | _ => fail Unreachable
  end.

(** Load through the record on top of the stack, as the parent of an
    expression does to use its value. *)
Definition loadBack : M OutputSPIRVTraverser IdRef :=
  slot ← backSlot;
  onNodeData slot accessChainLoad.

(** ** Constructors *)

(** The zero and one constants of a basic type.  [one] tells the constant
    apart: the integer and float getters take 0 or 1, the bool getter the
    flag itself. *)
Definition getZeroConstant (basicType : TBasicType) : M SPIRVBuilder IdRef :=
  match basicType with
  | EbtFloat => getFloatConstant 0
  | EbtInt => getIntConstant 0
  | EbtUInt => getUintConstant 0
  | EbtBool => getBoolConstant false
  | _ => fail Unreachable
  end.

(** [for (int i = 0; i < n; ++i)] as the list of the values of [i]. *)
Definition upto (n : Z) : list Z := seqZ 0 n.

Definition createConstructorMatrixFromScalar (node : TIntermNode)
    (typeId : IdRef) (parameters : list IdRef) : M SPIRVBuilder IdRef :=
  let type := getType node in
  scalarId ← at_index parameters 0;
  zeroId ← getZeroConstant (getBasicType type);
  let componentIds := replicate (Z.to_nat (getRows type)) zeroId in
  let columnType :=
    {| st_type := st_type (getSpirvType type EbsUnspecified);
       st_primarySize := st_primarySize (getSpirvType type EbsUnspecified);
       st_secondarySize := 1;
       st_arraySizes := st_arraySizes (getSpirvType type EbsUnspecified);
       st_blockStorage := EbsUnspecified |} in
  columnTypeId ← getSpirvTypeData columnType;
  '(componentIds, columnIds) ←
    foldM (fun '(componentIds, columnIds) columnIndex =>
             columnId ← getNewId;
             let columnIds := columnIds ++ [columnId] in
             componentIds ←
               set_index componentIds (Z.to_nat columnIndex) scalarId;
             componentIds ←
               (if 0 <? columnIndex
                then set_index componentIds (Z.to_nat (columnIndex - 1))
                       zeroId
                else mret componentIds);
             _ ← write (OpCompositeConstruct columnTypeId columnId
                          componentIds);
             mret (componentIds, columnIds))
      (upto (getCols type)) (componentIds, []);
  result ← getNewId;
  _ ← write (OpCompositeConstruct typeId result columnIds);
  mret result.

(** The constant [createConstructorMatrixFromMatrix] puts where the
    parameter has no component. *)
Definition getFillConstant (basicType : TBasicType) (isOnDiagonal : bool)
  : M SPIRVBuilder IdRef :=
  match basicType with
  | EbtFloat => getFloatConstant (if isOnDiagonal then 0 else 1)
  | EbtInt => getIntConstant (if isOnDiagonal then 0 else 1)
  | EbtUInt => getUintConstant (if isOnDiagonal then 0 else 1)
  | EbtBool => getBoolConstant isOnDiagonal
  | _ => fail Unreachable
  end.

(** [std::vector::resize] *)
Definition resize {A} (n : nat) (x : A) (l : list A) : list A :=
  take n l ++ replicate (n - length l) x.

Definition createConstructorMatrixFromMatrix (node : TIntermNode)
    (typeId : IdRef) (parameters : list IdRef) : M SPIRVBuilder IdRef :=
  let type := getType node in
  match node with
  | TIntermAggregate _ _ _ (parameter :: _) =>
      let parameterType := getType parameter in
      _ ← ASSERT (bool_decide (length parameters = 1%nat))
            Assert_parameters_size;
      parameter0 ← at_index parameters 0;
      let columnType :=
        {| st_type := st_type (getSpirvType type EbsUnspecified);
           st_primarySize := st_primarySize (getSpirvType type EbsUnspecified);
           st_secondarySize := 1;
           st_arraySizes := st_arraySizes (getSpirvType type EbsUnspecified);
           st_blockStorage := EbsUnspecified |} in
      columnTypeId ← getSpirvTypeData columnType;
      columnIds ←
        (if (getCols type <=? getCols parameterType)
            && (getRows type <=? getRows parameterType)
         then
           let paramColumnType :=
             {| st_type := st_type (getSpirvType parameterType EbsUnspecified);
                st_primarySize :=
                  st_primarySize (getSpirvType parameterType EbsUnspecified);
                st_secondarySize := 1;
                st_arraySizes :=
                  st_arraySizes (getSpirvType parameterType EbsUnspecified);
                st_blockStorage := EbsUnspecified |} in
           paramColumnTypeId ← getSpirvTypeData paramColumnType;
           let needsSwizzle := getRows type <? getRows parameterType in
           let swizzle :=
             resize (Z.to_nat (getRows type)) 0%N [0%N; 1%N; 2%N; 3%N] in
           foldM (fun columnIds columnIndex =>
                    parameterColumnId ← getNewId;
                    _ ← write (OpCompositeExtract paramColumnTypeId
                                 parameterColumnId parameter0
                                 [uint32 columnIndex]);
                    constructorColumnId ←
                      (if needsSwizzle then
                         constructorColumnId ← getNewId;
                         _ ← write (OpVectorShuffle columnTypeId
                                      constructorColumnId parameterColumnId
                                      parameterColumnId swizzle);
                         mret constructorColumnId
                       else mret parameterColumnId);
                    mret (columnIds ++ [constructorColumnId]))
             (upto (getCols type)) []
         else
           let paramComponentType :=
             {| st_type := st_type (getSpirvType parameterType EbsUnspecified);
                st_primarySize := 1;
                st_secondarySize := 1;
                st_arraySizes :=
                  st_arraySizes (getSpirvType parameterType EbsUnspecified);
                st_blockStorage := EbsUnspecified |} in
           paramComponentTypeId ← getSpirvTypeData paramComponentType;
           foldM (fun columnIds columnIndex =>
                    componentIds ←
                      foldM (fun componentIds componentIndex =>
                               componentId ←
                                 (if componentIndex <? getRows parameterType
                                  then
                                    componentId ← getNewId;
                                    _ ← write (OpCompositeExtract
                                                 paramComponentTypeId
                                                 componentId parameter0
                                                 [uint32 columnIndex;
                                                  uint32 componentIndex]);
                                    mret componentId
                                  else
                                    let isOnDiagonal :=
                                      columnIndex =? componentIndex in
                                    getFillConstant (getBasicType type)
                                      isOnDiagonal);
                               mret (componentIds ++ [componentId]))
                        (upto (getRows type)) [];
                    columnId ← getNewId;
                    _ ← write (OpCompositeConstruct columnTypeId columnId
                                 componentIds);
                    mret (columnIds ++ [columnId]))
             (upto (getCols type)) []);
      result ← getNewId;
      _ ← write (OpCompositeConstruct typeId result columnIds);
      mret result
  | _ => fail IndexOutOfRange
  end.

(** ** The identity overlaid with a matrix, as the comment in
    [createConstructorMatrixFromMatrix] and section 4.3 describe it *)

(** Where component ([column], [row]) of the result comes from. *)
Inductive ComponentSource :=
| FromParameter (column row : Z)
| Constant (value : ConstantValue).

Definition identityConstant (basicType : TBasicType) (isOnDiagonal : bool)
  : ConstantValue :=
  match basicType with
  | EbtInt => IntValue (if isOnDiagonal then 1 else 0)
  | EbtUInt => UintValue (if isOnDiagonal then 1 else 0)
  | EbtBool => BoolValue isOnDiagonal
  | _ => FloatValue (if isOnDiagonal then 1 else 0)
  end.

(** The component the specification asks for. *)
Definition overlaySource (basicType : TBasicType) (paramCols paramRows : Z)
    (column row : Z) : ComponentSource :=
  if (column <? paramCols) && (row <? paramRows)
  then FromParameter column row
  else Constant (identityConstant basicType (column =? row)).

(** The literal indices of the [OpCompositeExtract] that defines [result]
    from [composite] in a block. *)
Definition extractOf (block : Blob) (composite result : IdRef)
  : option (list LiteralInteger) :=
  head (omap (fun i => match i with
                       | OpCompositeExtract _ r c indexes =>
                           if bool_decide (r = result /\ c = composite)
                           then Some indexes else None
                       | _ => None
                       end) block).

(** The value of the constant declared with id [result]. *)
Definition constantOf (decls : Blob) (result : IdRef) : option ConstantValue :=
  head (omap (fun i => match i with
                       | OpConstant _ r value =>
                           if bool_decide (r = result) then Some value
                           else None
                       | _ => None
                       end) decls).

(** The constituents of the [OpCompositeConstruct] that defines [result]. *)
Definition constructOf (block : Blob) (result : IdRef) : option (list IdRef) :=
  head (omap (fun i => match i with
                       | OpCompositeConstruct _ r constituents =>
                           if bool_decide (r = result) then Some constituents
                           else None
                       | _ => None
                       end) block).

(** What an id of the generated code denotes: a component extracted from
    the parameter, or an interned constant. *)
Definition sourceOf (b : SPIRVBuilder) (parameter component : IdRef)
  : option ComponentSource :=
  match extractOf (currentBody b) parameter component with
  | Some [column; row] => Some (FromParameter (Z.of_N column) (Z.of_N row))
  | _ => Constant <$> constantOf (mSpirvTypeAndConstantDecls b) component
  end.

(** The sources of the components of the matrix [result], column by
    column. *)
Definition columnsBuilt (b : SPIRVBuilder) (parameter result : IdRef)
  : option (list (list (option ComponentSource))) :=
  columnIds ← constructOf (currentBody b) result;
  mapM (fun columnId =>
          componentIds ← constructOf (currentBody b) columnId;
          Some (map (sourceOf b parameter) componentIds)) columnIds.

Definition floatMatrix (cols rows : Z) : TType :=
  {| getBasicType := EbtFloat; getQualifier := EvqTemporary;
     primarySize := cols; secondarySize := rows; arraySizes := [];
     isStruct := false |}.

Definition floatScalar : TType := floatMatrix 1 1.

(** A temporary of the given type, already an rvalue. *)
Definition symbolOf (type : TType) : TIntermNode :=
  TIntermSymbol type {| var_symbol := 1%N; var_type := type |} false.

(** [mat3(m)] with [m] a [mat2], and [mat3x2(s)] with [s] a float. *)
Definition mat3_of_mat2 : TIntermNode :=
  TIntermAggregate EOpConstruct (floatMatrix 3 3) None
    [symbolOf (floatMatrix 2 2)].
Definition mat3x2_of_scalar : TIntermNode :=
  TIntermAggregate EOpConstruct (floatMatrix 3 2) None [symbolOf floatScalar].
Definition mat3_of_scalar : TIntermNode :=
  TIntermAggregate EOpConstruct (floatMatrix 3 3) None [symbolOf floatScalar].

(** The matrix section 4.3 asks for: the identity overlaid with the
    components the parameter has. *)
Definition overlayMatrix (basicType : TBasicType)
    (cols rows paramCols paramRows : Z) : list (list (option ComponentSource)) :=
  map (fun column =>
         map (fun row =>
                Some (overlaySource basicType paramCols paramRows column row))
           (upto rows))
    (upto cols).

(** ** Function calls *)

(** What the first loop of [createFunctionCall] keeps: the values passed,
    and for each parameter the temporary made for it and its type, or the
    invalid id. *)
Record CallState := {
  parameters : list IdRef;
  tempVarIds : list IdRef;
  tempVarTypeIds : list IdRef
}.

(** The body of the first loop of [createFunctionCall]: the value passed
    for the parameter [paramIndex]. *)
Definition createFunctionCall_parameter (function : TFunction)
    (parameterCount : nat) (st : CallState) (paramIndex : nat)
  : M OutputSPIRVTraverser CallState :=
  paramVar ← at_index (fn_params function) paramIndex;
  let paramType := var_type paramVar in
  let paramQualifier := getQualifier paramType in
  slot ← paramSlot parameterCount paramIndex;
  t ← get;
  param ← at_index (mNodeData t) slot;
  if IsOpaqueType (getBasicType paramType)
     || bool_decide (paramQualifier = EvqConst)
     || IsAccessChainUnindexedLValue param
  then
    paramValue ← onNodeData slot accessChainLoad;
    mret {| parameters := parameters st ++ [paramValue];
            tempVarIds := tempVarIds st;
            tempVarTypeIds := tempVarTypeIds st |}
  else
    _ ← ASSERT (bool_decide (paramQualifier = EvqIn)
                || bool_decide (paramQualifier = EvqOut)
                || bool_decide (paramQualifier = EvqInOut)) Assert_qualifier;
    tempVarTypeId ← onBuilder (getTypeData paramType EbsUnspecified);
    tempVarTypeIds ← set_index (tempVarTypeIds st) paramIndex tempVarTypeId;
    tempVarId ← onBuilder (declareVariable tempVarTypeId StorageClassFunction
                             None "param");
    tempVarIds ← set_index (tempVarIds st) paramIndex tempVarId;
    _ ← (if bool_decide (paramQualifier = EvqIn)
            || bool_decide (paramQualifier = EvqInOut)
         then
           paramValue ← onNodeData slot accessChainLoad;
           onBuilder (write (OpStore tempVarId paramValue))
         else mret tt);
    mret {| parameters := parameters st ++ [tempVarId];
            tempVarIds := tempVarIds;
            tempVarTypeIds := tempVarTypeIds |}.

(** The body of the second loop of [createFunctionCall]: the copy from the
    temporary of the parameter [paramIndex] back to the argument. *)
Definition createFunctionCall_copyBack (function : TFunction)
    (parameterCount : nat) (st : CallState) (paramIndex : nat)
  : M OutputSPIRVTraverser unit :=
  tempVarId ← at_index (tempVarIds st) paramIndex;
  if negb (valid tempVarId) then mret tt
  else
    paramVar ← at_index (fn_params function) paramIndex;
    let paramQualifier := getQualifier (var_type paramVar) in
    slot ← paramSlot parameterCount paramIndex;
    if bool_decide (paramQualifier = EvqIn) then mret tt
    else
      tempVarTypeId ← at_index (tempVarTypeIds st) paramIndex;
      let tempVarData :=
        nodeDataInitLValue tempVarId tempVarTypeId StorageClassFunction
          EbsUnspecified in
      '(tempVarValue, _) ← onBuilder (accessChainLoad tempVarData);
      onNodeData slot
        (fun param => param ← accessChainStore param tempVarValue;
                      mret (tt, param)).

Definition getFunction (node : TIntermNode) : option TFunction :=
  match node with
  | TIntermAggregate _ _ function _ => function
  | _ => None
  end.

Definition getChildCount (node : TIntermNode) : nat :=
  match node with
  | TIntermSwizzle _ _ _ => 1%nat
  | TIntermAggregate _ _ _ sequence => length sequence
  | TIntermBlock sequence => length sequence
  | TIntermFunctionDefinition _ _ => 2%nat
  | TIntermBranch _ (Some _) => 1%nat
  | _ => 0%nat
  end.

Definition createFunctionCall (node : TIntermNode) (resultTypeId : IdRef)
  : M OutputSPIRVTraverser IdRef :=
  match getFunction node with
  | None => fail Assert_symbol_known
  | Some function =>
      t ← get;
      match mSymbolIdMap t !! fn_symbol function with
      | None => fail Assert_symbol_known
      | Some functionId =>
          let parameterCount := getChildCount node in
          st ← foldM (createFunctionCall_parameter function parameterCount)
                 (seq 0 parameterCount)
                 {| parameters := [];
                    tempVarIds := replicate parameterCount 0%N;
                    tempVarTypeIds := replicate parameterCount 0%N |};
          result ← onBuilder getNewId;
          _ ← onBuilder (write (OpFunctionCall resultTypeId result functionId
                                  (parameters st)));
          _ ← foldM (fun _ paramIndex =>
                       createFunctionCall_copyBack function parameterCount st
                         paramIndex)
                (seq 0 parameterCount) tt;
          mret result
      end
  end.

(** ** Atomic built-ins *)

Definition getOp (node : TIntermNode) : TOperator :=
  match node with
  | TIntermAggregate op _ _ _ => op
  | TIntermBranch op _ => op
  | _ => EOpOther
  end.

Definition getChildNode (node : TIntermNode) (index : nat)
  : option TIntermNode :=
  match node with
  | TIntermSwizzle _ operand _ => [operand] !! index
  | TIntermAggregate _ _ _ sequence => sequence !! index
  | TIntermBlock sequence => sequence !! index
  | TIntermFunctionDefinition function body =>
      [TIntermFunctionPrototype function; body] !! index
  | TIntermBranch _ (Some expression) => [expression] !! index
  | _ => None
  end.

(** The type of the writers of the one-value atomic instructions. *)
Abbreviation WriteAtomicOp :=
  (IdRef -> IdRef -> IdRef -> IdRef -> IdRef -> IdRef -> Instruction)
  (only parsing).

Definition createAtomicBuiltIn (node : TIntermNode) (resultTypeId : IdRef)
  : M OutputSPIRVTraverser IdRef :=
  let parameterCount := getChildCount node in
  _ ← ASSERT (bool_decide (2 <= parameterCount)%nat) Assert_parameterCount;
  slot0 ← paramSlot parameterCount 0;
  pointerId ← onNodeData slot0 accessChainCollapse;
  parameters ←
    foldM (fun parameters paramIndex =>
             slot ← paramSlot parameterCount paramIndex;
             value ← onNodeData slot accessChainLoad;
             mret (parameters ++ [value]))
      (seq 1 (parameterCount - 1)) [];
  scopeId ← onBuilder (getUintConstant ScopeDevice);
  semanticsId ← onBuilder (getUintConstant MemorySemanticsMaskNone);
  result ← onBuilder getNewId;
  child0 ← match getChildNode node 0 with
           | Some c => mret c
           | None => fail IndexOutOfRange
           end;
  let isUnsigned := bool_decide (getBasicType (getType child0) = EbtUInt) in
  let finish (writeAtomicOp : WriteAtomicOp) :=
    _ ← ASSERT (bool_decide (length parameters = 1%nat))
          Assert_parameters_size;
    parameter0 ← at_index parameters 0;
    _ ← onBuilder (write (writeAtomicOp resultTypeId result pointerId scopeId
                            semanticsId parameter0));
    mret result in
  match getOp node with
  | EOpAtomicAdd => finish OpAtomicIAdd
  | EOpAtomicMin => finish (if isUnsigned then OpAtomicUMin else OpAtomicSMin)
  | EOpAtomicMax => finish (if isUnsigned then OpAtomicUMax else OpAtomicSMax)
  | EOpAtomicAnd => finish OpAtomicAnd
  | EOpAtomicOr => finish OpAtomicOr
  | EOpAtomicXor => finish OpAtomicXor
  | EOpAtomicExchange => finish OpAtomicExchange
  | EOpAtomicCompSwap =>
      _ ← ASSERT (bool_decide (length parameters = 2%nat))
            Assert_parameters_size;
      parameter1 ← at_index parameters 1;
      parameter0 ← at_index parameters 0;
      _ ← onBuilder (write (OpAtomicCompareExchange resultTypeId result
                              pointerId scopeId semanticsId semanticsId
                              parameter1 parameter0));
      mret result
  | _ => fail Unreachable
  end.

(** The instruction section 4.4 asks of a one-value atomic built-in. *)
Definition atomicInstruction (op : TOperator) (isUnsigned : bool)
  : option WriteAtomicOp :=
  match op with
  | EOpAtomicAdd => Some OpAtomicIAdd
  | EOpAtomicMin => Some (if isUnsigned then OpAtomicUMin else OpAtomicSMin)
  | EOpAtomicMax => Some (if isUnsigned then OpAtomicUMax else OpAtomicSMax)
  | EOpAtomicAnd => Some OpAtomicAnd
  | EOpAtomicOr => Some OpAtomicOr
  | EOpAtomicXor => Some OpAtomicXor
  | EOpAtomicExchange => Some OpAtomicExchange
  | _ => None
  end.











(** ** Sample calls *)


Definition uintOf (q : TQualifier) : TType :=
  {| getBasicType := EbtUInt; getQualifier := q; primarySize := 1;
     secondarySize := 1; arraySizes := []; isStruct := false |}.







(** [atomicCompSwap(counter, cmp, val)]: [counter] a uint of a buffer
    (id 5, Uniform class), [cmp] and [val] values with ids 7 and 8. *)
Definition call_atomicCompSwap : TIntermNode :=
  TIntermAggregate EOpAtomicCompSwap (uintOf EvqTemporary) None
    [symbolOf (uintOf EvqTemporary); symbolOf (uintOf EvqTemporary);
     symbolOf (uintOf EvqTemporary)].

Definition traverser_atomicCompSwap : OutputSPIRVTraverser :=
  {| mBuilder := builder0;
     mNodeData :=
       [NodeData_default;
        nodeDataInitLValue 5%N 1%N StorageClassUniform EbsStd140;
        nodeDataInitRValue 7%N 1%N; nodeDataInitRValue 8%N 1%N];
     mSymbolIdMap := ∅; mIsSymbolBeingDeclared := false;
     mInGlobalScope := false |}.

(** ** The other constructors *)

Definition createArrayOrStructConstructor (node : TIntermNode)
    (typeId : IdRef) (parameters : list IdRef) : M SPIRVBuilder IdRef :=
  result ← getNewId;
  _ ← write (OpCompositeConstruct typeId result parameters);
  mret result.

Definition createConstructorVectorFromScalar (type : TType) (typeId : IdRef)
    (parameters : list IdRef) : M SPIRVBuilder IdRef :=
  _ ← ASSERT (bool_decide (length parameters = 1%nat)) Assert_parameters_size;
  parameter0 ← at_index parameters 0;
  let replicatedParameter :=
    replicate (Z.to_nat (getNominalSize type)) parameter0 in
  result ← getNewId;
  _ ← write (OpCompositeConstruct typeId result replicatedParameter);
  mret result.

Definition getSequence (node : TIntermNode) : list TIntermNode :=
  match node with
  | TIntermAggregate _ _ _ sequence => sequence
  | TIntermBlock sequence => sequence
  | _ => []
  end.

(** One scalar type of the basic type of [type]. *)
Definition componentTypeOf (type : TType) : SpirvType :=
  {| st_type := st_type (getSpirvType type EbsUnspecified);
     st_primarySize := 1;
     st_secondarySize := 1;
     st_arraySizes := st_arraySizes (getSpirvType type EbsUnspecified);
     st_blockStorage := EbsUnspecified |}.

(** The column type the constructors compute: the type with its secondary
    size set to 1. *)
Definition columnTypeOf (type : TType) : SpirvType :=
  {| st_type := st_type (getSpirvType type EbsUnspecified);
     st_primarySize := st_primarySize (getSpirvType type EbsUnspecified);
     st_secondarySize := 1;
     st_arraySizes := st_arraySizes (getSpirvType type EbsUnspecified);
     st_blockStorage := EbsUnspecified |}.

(** A loop body guarded by [extractedComponentsOut->size() < componentCount];
    once the guard fails it fails for the rest of the loop. *)
Definition whileFewer (componentCount : nat) (extracted : list IdRef)
    (body : M SPIRVBuilder (list IdRef)) : M SPIRVBuilder (list IdRef) :=
  if bool_decide (length extracted < componentCount)%nat then body
  else mret extracted.

Definition extractComponents (node : TIntermNode) (componentCount : nat)
    (parameters : list IdRef) : M SPIRVBuilder (list IdRef) :=
  let arguments := getSequence node in
  _ ← ASSERT (bool_decide (length arguments = length parameters))
        Assert_parameters_size;
  foldM (fun extracted '(argumentIndex, argument) =>
           whileFewer componentCount extracted
             (let argumentType := getType argument in
              parameterId ← at_index parameters argumentIndex;
              if isScalar argumentType then mret (extracted ++ [parameterId])
              else if isVector argumentType then
                componentTypeId ←
                  getSpirvTypeData
                    {| st_type :=
                         st_type (getSpirvType argumentType EbsUnspecified);
                       st_primarySize := 1;
                       st_secondarySize :=
                         st_secondarySize
                           (getSpirvType argumentType EbsUnspecified);
                       st_arraySizes :=
                         st_arraySizes
                           (getSpirvType argumentType EbsUnspecified);
                       st_blockStorage := EbsUnspecified |};
                foldM (fun extracted componentIndex =>
                         whileFewer componentCount extracted
                           (componentId ← getNewId;
                            _ ← write (OpCompositeExtract componentTypeId
                                         componentId parameterId
                                         [uint32 componentIndex]);
                            mret (extracted ++ [componentId])))
                  (upto (getNominalSize argumentType)) extracted
              else
                _ ← ASSERT (isMatrix argumentType) Assert_visit;
                componentTypeId ←
                  getSpirvTypeData (componentTypeOf argumentType);
                foldM (fun extracted columnIndex =>
                         whileFewer componentCount extracted
                           (foldM (fun extracted componentIndex =>
                                     whileFewer componentCount extracted
                                       (componentId ← getNewId;
                                        _ ← write (OpCompositeExtract
                                                     componentTypeId
                                                     componentId parameterId
                                                     [uint32 columnIndex;
                                                      uint32 componentIndex]);
                                        mret (extracted ++ [componentId])))
                              (upto (getRows argumentType)) extracted))
                  (upto (getCols argumentType)) extracted))
    (imap (fun argumentIndex argument => (argumentIndex, argument)) arguments)
    [].

Definition createConstructorVectorFromNonScalar (node : TIntermNode)
    (typeId : IdRef) (parameters : list IdRef) : M SPIRVBuilder IdRef :=
  extractedComponents ←
    extractComponents node (Z.to_nat (getNominalSize (getType node)))
      parameters;
  result ← getNewId;
  _ ← write (OpCompositeConstruct typeId result extractedComponents);
  mret result.

Definition createConstructorMatrixFromVectors (node : TIntermNode)
    (typeId : IdRef) (parameters : list IdRef) : M SPIRVBuilder IdRef :=
  let type := getType node in
  extractedComponents ←
    extractComponents node (Z.to_nat (getCols type * getRows type)) parameters;
  columnTypeId ← getSpirvTypeData (columnTypeOf type);
  columnIds ←
    foldM (fun columnIds columnIndex =>
             columnId ← getNewId;
             let componentsStart := Z.to_nat (columnIndex * getRows type) in
             _ ← ASSERT (bool_decide
                           (componentsStart + Z.to_nat (getRows type)
                            <= length extractedComponents)%nat)
                   IndexOutOfRange;
             let componentIds :=
               take (Z.to_nat (getRows type))
                 (drop componentsStart extractedComponents) in
             _ ← write (OpCompositeConstruct columnTypeId columnId
                          componentIds);
             mret (columnIds ++ [columnId]))
      (upto (getCols type)) [];
  result ← getNewId;
  _ ← write (OpCompositeConstruct typeId result columnIds);
  mret result.

Definition createConstructor (node : TIntermNode) (typeId : IdRef)
  : M OutputSPIRVTraverser IdRef :=
  let type := getType node in
  let arguments := getSequence node in
  argument0 ← at_index arguments 0;
  let arg0Type := getType argument0 in
  let parameterCount := getChildCount node in
  parameters ←
    foldM (fun parameters paramIndex =>
             slot ← paramSlot parameterCount paramIndex;
             paramValue ← onNodeData slot accessChainLoad;
             mret (parameters ++ [paramValue]))
      (seq 0 parameterCount) [];
  if isArray type || isStruct type then
    onBuilder (createArrayOrStructConstructor node typeId parameters)
  else if isScalar type then at_index parameters 0
  else if isVector type then
    if bool_decide (length arguments = 1%nat) && isScalar arg0Type
    then onBuilder (createConstructorVectorFromScalar type typeId parameters)
    else onBuilder (createConstructorVectorFromNonScalar node typeId
                      parameters)
  else
    _ ← ASSERT (isMatrix type) Assert_visit;
    if isScalar arg0Type
    then onBuilder (createConstructorMatrixFromScalar node typeId parameters)
    else if isMatrix arg0Type
    then onBuilder (createConstructorMatrixFromMatrix node typeId parameters)
    else onBuilder (createConstructorMatrixFromVectors node typeId parameters).

(** ** Functions and blocks of the builder *)

Module FunctionBuilder.

(** Modelled from the spec: function types are interned like the other
    types. *)
Definition getFunctionTypeId (returnTypeId : IdRef) (paramTypeIds : list IdRef)
  : M SPIRVBuilder IdRef :=
  b ← get;
  match mFunctionTypeIdMap b !! (returnTypeId, paramTypeIds) with
  | Some id => mret id
  | None =>
      id ← getNewId;
      _ ← modify (with_mSpirvTypeAndConstantDecls
                    (.++ [OpTypeFunction id returnTypeId paramTypeIds]));
      _ ← modify (with_mFunctionTypeIdMap
                    <[(returnTypeId, paramTypeIds) := id]>);
      mret id
  end.

Definition setEntryPointId (id : IdRef) : M SPIRVBuilder unit :=
  modify (with_mEntryPointId (fun _ => id)).

(** Modelled from the spec: [start_function] opens the entry block of a
    function; no function may be in progress. *)
Definition startNewFunction (functionId : IdRef) (name : string)
  : M SPIRVBuilder unit :=
  b ← get;
  _ ← ASSERT (bool_decide (mSpirvCurrentFunctionBlocks b = []))
        Assert_function_blocks_empty;
  label ← getNewId;
  _ ← modify (with_mSpirvCurrentFunctionBlocks
                (fun _ => [{| labelId := label; localVariables := [];
                              body := []; isTerminated := false |}]));
  modify (with_mSpirvDebug (.++ [OpName functionId name])).

Definition isCurrentFunctionBlockTerminated : M SPIRVBuilder bool :=
  b ← get;
  match last (mSpirvCurrentFunctionBlocks b) with
  | Some k => mret (isTerminated k)
  | None => fail Assert_no_function_block
  end.

(** Modelled from the spec: [terminate_block]. *)
Definition terminateCurrentFunctionBlock : M SPIRVBuilder unit :=
  b ← get;
  _ ← ASSERT (negb (bool_decide (mSpirvCurrentFunctionBlocks b = [])))
        Assert_no_function_block;
  modify (with_mSpirvCurrentFunctionBlocks
            (on_back (with_isTerminated (fun _ => true)))).

(** Modelled from the spec: [assemble_function_blocks] puts the blocks of
    the function, each as its label, its variables and its body, after the
    functions emitted so far, entry block first. *)
Definition assembleSpirvFunctionBlocks : M SPIRVBuilder unit :=
  b ← get;
  _ ← ASSERT (forallb isTerminated (mSpirvCurrentFunctionBlocks b))
        Assert_block_open;
  _ ← modify (with_mSpirvFunctions
                (.++ concat (map (fun k => OpLabel (labelId k)
                                           :: localVariables k ++ body k)
                               (mSpirvCurrentFunctionBlocks b))));
  modify (with_mSpirvCurrentFunctionBlocks (fun _ => [])).

Definition writeFunctions (i : Instruction) : M SPIRVBuilder unit :=
  modify (with_mSpirvFunctions (.++ [i])).

End FunctionBuilder.

Import FunctionBuilder.

(** ** The visits *)

(** [UNIMPLEMENTED()]: by section 7 the pass fails on what is not yet
    implemented. *)
Definition UNIMPLEMENTED {S A} : M S A := fail Unimplemented.

(** The storage class of a variable.  The types followed here are neither
    shader inputs or outputs nor members of an interface block. *)
Definition GetStorageClass (type : TType) : M OutputSPIRVTraverser StorageClass :=
  if IsOpaqueType (getBasicType type) then mret StorageClassUniformConstant
  else if bool_decide (getBasicType type = EbtInterfaceBlock)
  then mret StorageClassUniform
  else match getQualifier type with
       | EvqShared => mret StorageClassWorkgroup
       | EvqGlobal => mret StorageClassPrivate
       | EvqTemporary | EvqIn | EvqOut | EvqInOut => mret StorageClassFunction
       | _ => UNIMPLEMENTED
       end.

(** [getSymbolIdAndStorageClass] for a symbol that was declared; the
    implicitly defined built-in variables are left out. *)
Definition getSymbolIdAndStorageClass (symbol : N) (type : TType)
  : M OutputSPIRVTraverser (IdRef * StorageClass) :=
  storageClass ← GetStorageClass type;
  t ← get;
  match mSymbolIdMap t !! symbol with
  | Some id => mret (id, storageClass)
  | None => UNIMPLEMENTED
  end.

Definition setBack (data : NodeData) : M OutputSPIRVTraverser unit :=
  slot ← backSlot;
  modify (with_mNodeData <[slot := data]>).

Definition visitSymbol (node : TIntermNode) : M OutputSPIRVTraverser unit :=
  match node with
  | TIntermSymbol type variable constantValue =>
      _ ← ASSERT (negb constantValue) Assert_constant_folded;
      t ← get;
      if mIsSymbolBeingDeclared t then
        modify (with_mIsSymbolBeingDeclared (fun _ => false))
      else
        _ ← emplace_back;
        let symbol := var_symbol variable in
        let blockStorage := EbsUnspecified in
        typeId ← onBuilder (getTypeData type blockStorage);
        if bool_decide (getQualifier type = EvqConst) then
          match mSymbolIdMap t !! symbol with
          | Some id => setBack (nodeDataInitRValue id typeId)
          | None => fail Assert_symbol_known
          end
        else
          '(symbolId, storageClass) ← getSymbolIdAndStorageClass symbol type;
          setBack (nodeDataInitLValue symbolId typeId storageClass
                     blockStorage)
  | _ => fail Unreachable
  end.

Definition visitBlock (visit : Visit) (depth : nat) (node : TIntermNode)
  : M OutputSPIRVTraverser bool :=
  if bool_decide (depth = 0%nat) then mret true
  else if bool_decide (visit = PreVisit)
  then mret (bool_decide (0 < getChildCount node)%nat)
  else
    _ ← pop_back;
    mret true.

Definition visitFunctionPrototype (node : TIntermNode)
  : M OutputSPIRVTraverser unit :=
  mret tt.

Definition visitFunctionDefinition (visit : Visit) (node : TIntermNode)
  : M OutputSPIRVTraverser bool :=
  match node with
  | TIntermFunctionDefinition function body =>
      if bool_decide (visit = PreVisit) then
        returnTypeId ←
          onBuilder (getTypeData (fn_returnType function) EbsUnspecified);
        paramTypeIds ←
          foldM (fun paramTypeIds paramVar =>
                   let paramType := var_type paramVar in
                   paramId ← onBuilder (getTypeData paramType EbsUnspecified);
                   paramId ←
                     (if negb (bool_decide (getQualifier paramType = EvqConst))
                      then onBuilder (getTypePointerId paramId
                                        StorageClassFunction)
                      else mret paramId);
                   mret (paramTypeIds ++ [paramId]))
            (fn_params function) [];
        functionTypeId ←
          onBuilder (getFunctionTypeId returnTypeId paramTypeIds);
        functionId ← onBuilder getNewId;
        _ ← onBuilder (writeFunctions
                         (OpFunction returnTypeId functionId functionTypeId));
        _ ← foldM (fun _ '(paramIndex, paramVariable) =>
                     paramId ← onBuilder getNewId;
                     paramTypeId ← at_index paramTypeIds paramIndex;
                     _ ← onBuilder (writeFunctions
                                      (OpFunctionParameter paramTypeId
                                         paramId));
                     t ← get;
                     _ ← ASSERT (bool_decide
                                   (mSymbolIdMap t
                                      !! var_symbol paramVariable = None))
                           Assert_symbol_fresh;
                     modify (with_mSymbolIdMap
                               <[var_symbol paramVariable := paramId]>))
              (imap (fun paramIndex paramVariable =>
                       (paramIndex, paramVariable)) (fn_params function))
              tt;
        _ ← (if isMain function then onBuilder (setEntryPointId functionId)
             else mret tt);
        _ ← onBuilder (startNewFunction functionId (fn_name function));
        t ← get;
        _ ← ASSERT (bool_decide (mSymbolIdMap t !! fn_symbol function = None))
              Assert_symbol_fresh;
        _ ← modify (with_mSymbolIdMap <[fn_symbol function := functionId]>);
        mret true
      else if bool_decide (visit = PostVisit) then
        terminated ← onBuilder isCurrentFunctionBlockTerminated;
        _ ← (if negb terminated then
               _ ← ASSERT (bool_decide
                             (getBasicType (fn_returnType function) = EbtVoid))
                     Assert_return_type;
               _ ← onBuilder (write OpReturn);
               onBuilder terminateCurrentFunctionBlock
             else mret tt);
        _ ← onBuilder assembleSpirvFunctionBlocks;
        _ ← onBuilder (writeFunctions OpFunctionEnd);
        mret true
      else mret true
  | _ => fail Unreachable
  end.

Definition visitAggregate (visit : Visit) (node : TIntermNode)
  : M OutputSPIRVTraverser bool :=
  _ ← ASSERT (negb (hasConstantValue node)) Assert_constant_folded;
  if bool_decide (visit = PreVisit) then
    _ ← emplace_back;
    mret true
  else if bool_decide (visit = InVisit) then mret true
  else
    t ← get;
    _ ← ASSERT (bool_decide (getChildCount node < length (mNodeData t))%nat)
          Assert_stack_size;
    typeId ← onBuilder (getTypeData (getType node) EbsUnspecified);
    result ←
      match getOp node with
      | EOpConstruct => createConstructor node typeId
      | EOpCallFunctionInAST => createFunctionCall node typeId
      | EOpAtomicAdd | EOpAtomicMin | EOpAtomicMax | EOpAtomicAnd
      | EOpAtomicOr | EOpAtomicXor | EOpAtomicExchange | EOpAtomicCompSwap =>
          createAtomicBuiltIn node typeId
      | _ => UNIMPLEMENTED
      end;
    _ ← modify (with_mNodeData
                  (fun l => take (length l - getChildCount node) l));
    _ ← (if negb (bool_decide (getBasicType (getType node) = EbtVoid))
         then setBack (nodeDataInitRValue result typeId)
         else mret tt);
    mret false.

Definition visitBranch (visit : Visit) (node : TIntermNode)
  : M OutputSPIRVTraverser bool :=
  match node with
  | TIntermBranch flowOp expression =>
      if bool_decide (visit = PreVisit) then
        _ ← emplace_back;
        mret true
      else
        _ ← ASSERT (negb (bool_decide (visit = InVisit))) Assert_visit;
        _ ← match flowOp with
            | EOpKill | EOpBreak | EOpContinue => UNIMPLEMENTED
            | EOpReturn =>
                match expression with
                | Some _ =>
                    t ← get;
                    _ ← ASSERT (bool_decide (1 <= length (mNodeData t))%nat)
                          Assert_stack_size;
                    expressionValue ← loadBack;
                    _ ← pop_back;
                    _ ← onBuilder (write (OpReturnValue expressionValue));
                    onBuilder terminateCurrentFunctionBlock
                | None =>
                    _ ← onBuilder (write OpReturn);
                    onBuilder terminateCurrentFunctionBlock
                end
            | _ => fail Unreachable
            end;
        mret true
  | _ => fail Unreachable
  end.

(** ** The walk *)

(** Modelled from the spec: the tree walker (IntermTraverse) is not among
    the sources.  By section 2 every node is visited before its children
    (pre-visit), between two children (in-visit) and after them
    (post-visit); a visit that returns false ends the walk of the node: no
    further child and no later visit of it.  [children] are the walks of
    the children. *)
Definition walkChildren {S} (visit : Visit -> M S bool)
    (children : list (M S unit)) : M S unit :=
  visit PreVisit ≫= fun v : bool =>
  if v then
    foldM (fun (v : bool) '(childIndex, child) =>
             if v then
               _ ← child;
               if bool_decide (childIndex <> length children - 1)%nat
               then visit InVisit
               else mret v
             else mret v)
      (imap (fun childIndex child => (childIndex, child)) children) true
    ≫= fun v : bool =>
    if v then _ ← visit PostVisit; mret tt else mret tt
  else mret tt.

(** The walk of a node at a depth of the tree; the root is at depth 0.  The
    body of a function is walked outside the global scope. *)
Fixpoint traverse (depth : nat) (node : TIntermNode) {struct node}
  : M OutputSPIRVTraverser unit :=
  match node with
  | TIntermSymbol _ _ _ => visitSymbol node
  | TIntermFunctionPrototype _ => visitFunctionPrototype node
  | TIntermSwizzle _ operand _ =>
      walkChildren (fun visit => visitSwizzle visit node)
        [traverse (S depth) operand]
  | TIntermAggregate _ _ _ sequence =>
      walkChildren (fun visit => visitAggregate visit node)
        (map (traverse (S depth)) sequence)
  | TIntermBlock sequence =>
      walkChildren (fun visit => visitBlock visit depth node)
        (map (traverse (S depth)) sequence)
  | TIntermFunctionDefinition function body =>
      walkChildren (fun visit => visitFunctionDefinition visit node)
        [visitFunctionPrototype (TIntermFunctionPrototype function);
         (_ ← modify (with_mInGlobalScope (fun _ => false));
          _ ← traverse (S depth) body;
          modify (with_mInGlobalScope (fun _ => true)))]
  | TIntermBranch _ expression =>
      walkChildren (fun visit => visitBranch visit node)
        match expression with
        | Some e => [traverse (S depth) e]
        | None => []
        end
  end.

Definition traverser_initial : OutputSPIRVTraverser :=
  {| mBuilder :=
       {| mNextAvailableId := 1%N; mTypeMap := ∅; mTypePointerIdMap := ∅;
          mFunctionTypeIdMap := ∅; mUintConstants := ∅; mIntConstants := ∅;
          mFloatConstants := ∅; mBoolConstants := ∅; mEntryPointId := 0%N;
          mSpirvDebug := []; mSpirvTypeAndConstantDecls := [];
          mSpirvTypePointerDecls := []; mSpirvVariableDecls := [];
          mSpirvFunctions := []; mSpirvCurrentFunctionBlocks := [] |};
     mNodeData := []; mSymbolIdMap := ∅; mIsSymbolBeingDeclared := false;
     mInGlobalScope := true |}.

(** [OutputSPIRV]: walk the tree with a new traverser, then destroy the
    traverser, which asserts that its stack is empty.  The result is the
    functions section of the module. *)
Definition OutputSPIRV (root : TIntermNode) : Result Blob :=
  match traverse 0 root traverser_initial with
  | Ok (_, t) =>
      if bool_decide (mNodeData t = []) then Ok (mSpirvFunctions (mBuilder t))
      else Err Assert_stack_empty
  | Err e => Err e
  end.

(** ** Sample programs *)

Definition main_function : TFunction :=
  {| fn_symbol := 200%N; fn_name := "main"; fn_returnType := voidType;
     fn_params := []; isMain := true |}.

(** [void main() { return; }] *)
Definition program_return : TIntermNode :=
  TIntermBlock
    [TIntermFunctionDefinition main_function
       (TIntermBlock [TIntermBranch EOpReturn None])].

(** [void main() { { return; } }] *)
Definition program_nested_block : TIntermNode :=
  TIntermBlock
    [TIntermFunctionDefinition main_function
       (TIntermBlock [TIntermBlock [TIntermBranch EOpReturn None]])].

(** A statement is balanced at a depth, under a condition [P] on the state
    of the traverser, when its walk returns and adds exactly one record to
    the stack. *)
Definition leavesOneRecord (P : OutputSPIRVTraverser -> Prop) (depth : nat)
    (statement : TIntermNode) : Prop :=
  forall t, P t ->
    wp (traverse depth statement) t
      (fun _ t' => P t' /\ exists data, mNodeData t' = mNodeData t ++ [data]).

(** The condition does not look at the stack. *)
Definition stackBlind (P : OutputSPIRVTraverser -> Prop) : Prop :=
  forall t f, P t -> P (with_mNodeData f t).

(** ** Notions used to state further properties *)

(** The number of components an argument of a constructor supplies: one
    for a scalar, its size for a vector, columns times rows for a matrix
    (the three cases of [extractComponents]). *)
Definition componentCountOf (type : TType) : nat :=
  if isScalar type then 1%nat
  else if isVector type then Z.to_nat (getNominalSize type)
  else (Z.to_nat (getCols type) * Z.to_nat (getRows type))%nat.

(** An [OpCompositeExtract] from one of the parameters. *)
Definition extractsFrom (parameters : list IdRef) (i : Instruction) : Prop :=
  exists resultType result composite indexes,
    i = OpCompositeExtract resultType result composite indexes
    /\ composite ∈ parameters.

(** A component is a parameter itself or the result of one of the
    extractions [ins]. *)
Definition componentFrom (parameters : list IdRef) (ins : Blob)
    (component : IdRef) : Prop :=
  component ∈ parameters
  \/ exists resultType composite indexes,
       OpCompositeExtract resultType component composite indexes ∈ ins.

(** From [b] to [b'] the list of extracted components grew from [extracted]
    to [out], by parameters and by results of extractions from parameters,
    which are all the code written. *)
Definition extracts (parameters : list IdRef) (extracted : list IdRef)
    (b : SPIRVBuilder) (out : list IdRef) (b' : SPIRVBuilder) : Prop :=
  exists new ins,
    out = extracted ++ new
    /\ emits b b' ins
    /\ Forall (extractsFrom parameters) ins
    /\ Forall (componentFrom parameters ins) new.

(** The stack of [t] is as long as [l0], and its records below the top [k]
    are those of [l0]. *)
Definition framed (l0 : list NodeData) (k : nat) (t : OutputSPIRVTraverser)
  : Prop :=
  length (mNodeData t) = length l0
  /\ take (length l0 - k) (mNodeData t) = take (length l0 - k) l0.

(** [keeps P phi m]: from a state where [P] holds, if [m] returns then [P]
    holds again and the result satisfies [phi]. *)
Definition keeps {A} (P : OutputSPIRVTraverser -> Prop) (phi : A -> Prop)
    (m : M OutputSPIRVTraverser A) : Prop :=
  forall t, P t -> post m t (fun a t' => P t' /\ phi a) (fun _ => True).

(** The records [params] are loaded one after the other, from the builder
    state [b] to [b']: [values] are the values, [params'] the records
    afterwards and [ins] the code, in order. *)
Inductive loadsAll
  : list NodeData -> SPIRVBuilder -> list IdRef -> list NodeData -> Blob
    -> SPIRVBuilder -> Prop :=
| loadsAll_nil b : loadsAll [] b [] [] [] b
| loadsAll_cons data params b b1 b' value values data' params' ins inss :
    loads data b b1 value data' ins ->
    emits b b1 ins ->
    loadsAll params b1 values params' inss b' ->
    loadsAll (data :: params) b (value :: values) (data' :: params')
      (ins ++ inss) b'.

(** From [b] to [b'] nothing was written to the functions section or to the
    function in progress, the entry point is the same, and the interned
    types and pointer types are still interned. *)
Definition declaresOnly (b b' : SPIRVBuilder) : Prop :=
  mSpirvFunctions b' = mSpirvFunctions b
  /\ mSpirvCurrentFunctionBlocks b' = mSpirvCurrentFunctionBlocks b
  /\ mEntryPointId b' = mEntryPointId b
  /\ mTypeMap b ⊆ mTypeMap b'
  /\ mTypePointerIdMap b ⊆ mTypePointerIdMap b'.

(** The type id a function parameter is declared with: the id of its type
    when it is [const], that of the Function-class pointer to its type
    otherwise. *)
Definition parameterTyped (b : SPIRVBuilder) (param : TVariable)
    (paramTypeId : IdRef) : Prop :=
  exists valueTypeId,
    mTypeMap b !! getSpirvType (var_type param) EbsUnspecified
    = Some valueTypeId
    /\ if bool_decide (getQualifier (var_type param) = EvqConst)
       then paramTypeId = valueTypeId
       else mTypePointerIdMap b !! (valueTypeId, StorageClassFunction)
            = Some paramTypeId.



(** * Properties *)

(** ** The monad *)

Section Monad.
Context {S : Type}.

Lemma wp_ret {A} (a : A) (s : S) Q : Q a s -> wp (mret a) s Q.
Proof. intros H. exists a, s. split; [reflexivity | exact H]. Qed.

Lemma wp_bind {A B} (m : M S A) (f : A -> M S B) s Q :
  wp m s (fun a s' => wp (f a) s' Q) -> wp (m ≫= f) s Q.
Proof.
  intros (a & s' & Hm & b & s'' & Hf & HQ).
  exists b, s''. split; [| exact HQ].
  unfold mbind, M_bind. rewrite Hm. exact Hf.
Qed.

Lemma wp_mono {A} (m : M S A) s (Q Q' : A -> S -> Prop) :
  wp m s Q -> (forall a s', Q a s' -> Q' a s') -> wp m s Q'.
Proof. intros (a & s' & Hm & HQ) H. exists a, s'. auto. Qed.

Lemma wp_ASSERT (c : bool) e (s : S) Q :
  c = true -> Q tt s -> wp (ASSERT c e) s Q.
Proof. intros -> H. apply wp_ret, H. Qed.

Lemma wp_get (s : S) Q : Q s s -> wp get s Q.
Proof. intros H. exists s, s. auto. Qed.

Lemma wp_modify (f : S -> S) (s : S) Q : Q tt (f s) -> wp (modify f) s Q.
Proof. intros H. exists tt, (f s). auto. Qed.

Lemma wp_Ok {A} (m : M S A) s Q a s' :
  m s = Ok (a, s') -> Q a s' -> wp m s Q.
Proof. intros H HQ. exists a, s'. auto. Qed.

Lemma wp_inv {A} (m : M S A) s Q a s' :
  wp m s Q -> m s = Ok (a, s') -> Q a s'.
Proof. intros (a0 & s0 & H0 & HQ) H. congruence. Qed.

Lemma bind_Err {A B} (m : M S A) (f : A -> M S B) s e :
  m s = Err e -> (m ≫= f) s = Err e.
Proof. intros H. unfold mbind, M_bind. by rewrite H. Qed.

Lemma bind_Ok {A B} (m : M S A) (f : A -> M S B) s a s' :
  m s = Ok (a, s') -> (m ≫= f) s = f a s'.
Proof. intros H. unfold mbind, M_bind. by rewrite H. Qed.

Lemma wp_strengthen {A} (m : M S A) s Q :
  wp m s (fun a s' => m s = Ok (a, s') -> Q a s') -> wp m s Q.
Proof. intros (a & s' & H & HQ). exists a, s'. auto. Qed.

Lemma wp_bind_assoc {A B C} (m : M S A) (f : A -> M S B) (g : B -> M S C)
    s Q :
  wp ((m ≫= f) ≫= g) s Q -> wp (m ≫= fun x => f x ≫= g) s Q.
Proof.
  intros (c & s' & H & HQ). exists c, s'. split; [| exact HQ].
  unfold mbind, M_bind in *. by destruct (m s) as [[a s1]|e].
Qed.
End Monad.

Arguments ASSERT : simpl never.

(** One step of a run: split a bind, discharge a return. *)
Ltac wp_step :=
  lazymatch goal with
  | |- wp (mret _) _ _ => apply wp_ret
  | |- wp (_ ≫= _) _ _ => apply wp_bind
  | |- wp get _ _ => apply wp_get
  | |- wp (modify _) _ _ => apply wp_modify
  | |- wp (let _ := _ in _) _ _ => cbv zeta
  end.

(** Enter the next statement of a sequence. *)
Ltac wp_seq := cbv zeta; apply wp_bind.

(** ** The builder *)

Section BuilderFacts.
Implicit Types (b : SPIRVBuilder) (ins : Blob).

Lemma emits_refl b : emits b b [].
Proof. unfold emits. rewrite app_nil_r. split_and!; [done | done | lia | done | done]. Qed.

Lemma emits_trans b1 b2 b3 ins1 ins2 :
  emits b1 b2 ins1 -> emits b2 b3 ins2 -> emits b1 b3 (ins1 ++ ins2).
Proof.
  intros (H1 & H2 & H3 & H4 & H5) (H6 & H7 & H8 & H9 & H10). unfold emits.
  rewrite H6, H1, H7, H2, app_assoc.
  split_and!; [done | done | lia | by etrans | by etrans].
Qed.

Lemma emits_nil_r b1 b2 b3 ins1 :
  emits b1 b2 ins1 -> emits b2 b3 [] -> emits b1 b3 ins1.
Proof. intros H1 H2. rewrite <- (app_nil_r ins1). eapply emits_trans; eauto. Qed.

Lemma emits_nil_l b1 b2 b3 ins2 :
  emits b1 b2 [] -> emits b2 b3 ins2 -> emits b1 b3 ins2.
Proof. intros H1 H2. change ins2 with ([] ++ ins2). eapply emits_trans; eauto. Qed.

Lemma emits_isOpen b b' ins : emits b b' ins -> isOpen b = true -> isOpen b' = true.
Proof. intros (_ & H & _). congruence. Qed.

Lemma emits_uint b b' ins v r :
  emits b b' ins -> mUintConstants b !! v = Some r ->
  mUintConstants b' !! v = Some r.
Proof. intros (_ & _ & _ & H & _) Hv. eapply lookup_weaken; eauto. Qed.

Lemma emits_variable b b' ins i :
  emits b b' ins -> i ∈ functionVariables b -> i ∈ functionVariables b'.
Proof.
  intros (_ & _ & _ & _ & [k ->]) Hi. apply elem_of_app. by left.
Qed.

Lemma last_on_back {A} (f : A -> A) (l : list A) :
  last (on_back f l) = f <$> last l.
Proof.
  unfold on_back. destruct (reverse l) as [|x r] eqn:E.
  - apply (f_equal reverse) in E. rewrite reverse_involutive in E.
    by subst.
  - apply (f_equal reverse) in E. rewrite reverse_involutive in E.
    subst l. rewrite reverse_cons, !last_snoc. done.
Qed.

Lemma head_on_back {A B} (f : A -> A) (g : A -> B) (l : list A) :
  (forall x, g (f x) = g x) -> g <$> head (on_back f l) = g <$> head l.
Proof.
  intros Hg. unfold on_back. destruct (reverse l) as [|x r] eqn:E.
  - apply (f_equal reverse) in E. rewrite reverse_involutive in E.
    by subst.
  - apply (f_equal reverse) in E. rewrite reverse_involutive in E.
    subst l. rewrite reverse_cons.
    destruct (reverse r); simpl; by rewrite ?Hg.
Qed.

Lemma functionVariables_head b :
  functionVariables b =
  default [] (localVariables <$> head (mSpirvCurrentFunctionBlocks b)).
Proof. unfold functionVariables. by destruct (mSpirvCurrentFunctionBlocks b). Qed.

Lemma currentBody_last b :
  currentBody b = default [] (body <$> last (mSpirvCurrentFunctionBlocks b)).
Proof. unfold currentBody. by destruct (last _). Qed.

Lemma isOpen_last b :
  isOpen b =
  default false (negb ∘ isTerminated <$> last (mSpirvCurrentFunctionBlocks b)).
Proof. unfold isOpen. by destruct (last _). Qed.

(** A step that leaves the function blocks alone emits nothing. *)
Lemma emits_same_blocks b b' :
  mSpirvCurrentFunctionBlocks b' = mSpirvCurrentFunctionBlocks b ->
  (mNextAvailableId b <= mNextAvailableId b')%N ->
  mUintConstants b ⊆ mUintConstants b' ->
  emits b b' [].
Proof.
  intros H1 H2 H3. unfold emits, currentBody, isOpen, functionVariables.
  rewrite H1, app_nil_r. done.
Qed.

Lemma emits_getNewId b : emits b (with_mNextAvailableId N.succ b) [].
Proof. apply emits_same_blocks; simpl; [done | lia | done]. Qed.

Lemma getNewId_spec b Q :
  (forall b', emits b b' [] ->
              mNextAvailableId b' = N.succ (mNextAvailableId b) ->
              mUintConstants b' = mUintConstants b ->
              Q (mNextAvailableId b) b') ->
  wp getNewId b Q.
Proof.
  intros H. eexists _, _. split; [reflexivity |]. apply H; [| done | done].
  apply emits_same_blocks; simpl; [done | lia | done].
Qed.

Lemma write_spec i b Q :
  isOpen b = true ->
  (forall b', emits b b' [i] -> Q tt b') ->
  wp (write i) b Q.
Proof.
  intros Hopen HQ. unfold write.
  wp_step. wp_step. wp_step. apply wp_ASSERT; [done |]. wp_step.
  apply HQ. unfold emits.
  rewrite !currentBody_last, !isOpen_last, !functionVariables_head. simpl.
  rewrite last_on_back.
  rewrite (head_on_back _ localVariables) by done.
  rewrite isOpen_last in Hopen.
  destruct (last (mSpirvCurrentFunctionBlocks b)) as [k|]; [| done].
  simpl. split_and!; [done | done | lia | done | done].
Qed.


Lemma getSpirvTypeData_spec t b Q :
  (forall r b', emits b b' [] -> mTypeMap b' !! t = Some r ->
                mUintConstants b' = mUintConstants b -> Q r b') ->
  wp (getSpirvTypeData t) b Q.
Proof.
  intros HQ. unfold getSpirvTypeData. wp_step. wp_step.
  destruct (mTypeMap b !! t) as [r|] eqn:E.
  - wp_step. apply HQ; [apply emits_refl | done | done].
  - wp_step. apply getNewId_spec. intros b1 H1 _ Hu.
    wp_step. wp_step. wp_step. wp_step. wp_step.
    apply HQ; [| simpl; apply lookup_insert_eq | done].
    eapply emits_nil_r; [exact H1 |].
    apply emits_same_blocks; simpl; [done | lia | done].
Qed.

Lemma getTypePointerId_spec t sc b Q :
  (forall r b', emits b b' [] -> Q r b') ->
  wp (getTypePointerId t sc) b Q.
Proof.
  intros HQ. unfold getTypePointerId. wp_step. wp_step.
  destruct (mTypePointerIdMap b !! (t, sc)) as [r|] eqn:E.
  - wp_step. apply HQ. apply emits_refl.
  - wp_step. apply getNewId_spec. intros b1 H1 _ _.
    wp_step. wp_step. wp_step. wp_step. wp_step.
    apply HQ.
    eapply emits_nil_r; [exact H1 |].
    apply emits_same_blocks; simpl; [done | lia | done].
Qed.

Lemma getUintConstant_spec v b Q :
  (forall r b', emits b b' [] -> mUintConstants b' !! v = Some r -> Q r b') ->
  wp (getUintConstant v) b Q.
Proof.
  intros HQ. unfold getUintConstant. wp_step. wp_step.
  destruct (mUintConstants b !! v) as [r|] eqn:E.
  - wp_step. apply HQ; [apply emits_refl | done].
  - wp_step. apply getSpirvTypeData_spec. intros ty b1 H1 _ Hu1.
    wp_step. apply getNewId_spec. intros b2 H2 _ Hu2.
    wp_step. wp_step. wp_step. wp_step. wp_step.
    apply HQ; [| simpl; apply lookup_insert_eq].
    eapply emits_nil_r; [exact H1 |].
    eapply emits_nil_r; [exact H2 |].
    apply emits_same_blocks; simpl; [done | lia |].
    apply insert_subseteq. by rewrite Hu2, Hu1.
Qed.

Lemma declareVariable_Function_spec t init name b Q :
  isOpen b = true ->
  (forall ptr b',
      emits b b' [] ->
      OpVariable ptr (mNextAvailableId b) StorageClassFunction init
        ∈ functionVariables b' ->
      (mNextAvailableId b < mNextAvailableId b')%N ->
      Q (mNextAvailableId b) b') ->
  wp (declareVariable t StorageClassFunction init name) b Q.
Proof.
  intros Hopen HQ. unfold declareVariable.
  wp_step. wp_step. wp_step. apply wp_ASSERT.
  { rewrite isOpen_last in Hopen. simpl.
    destruct (mSpirvCurrentFunctionBlocks b); [done |].
    by rewrite bool_decide_eq_false_2. }
  wp_step. apply getNewId_spec. intros b1 H1 Hn1 _.
  wp_step. apply getTypePointerId_spec. intros ptr b2 H2.
  rewrite bool_decide_eq_true_2 by done.
  wp_step. wp_step. wp_step. wp_step. wp_step.
  pose proof (emits_nil_r _ _ _ _ H1 H2) as H12.
  apply (HQ ptr).
  - eapply emits_nil_r; [exact H12 |].
    destruct H12 as (_ & Ho & _).
    unfold emits. rewrite !currentBody_last, !isOpen_last,
      !functionVariables_head. simpl.
    rewrite isOpen_last, Hopen in Ho.
    destruct (mSpirvCurrentFunctionBlocks b2) as [|k [|k' r]]; [done | |].
    + simpl. rewrite app_nil_r.
      split_and!; [done | done | lia | done | by apply prefix_app_r].
    + simpl. rewrite app_nil_r.
      split_and!; [done | done | lia | done | by apply prefix_app_r].
  - rewrite functionVariables_head. simpl.
    destruct H12 as (_ & Ho & _). rewrite isOpen_last, Hopen in Ho.
    destruct (mSpirvCurrentFunctionBlocks b2) as [|k r]; [done |].
    simpl. apply elem_of_app. right. by apply list_elem_of_singleton.
  - simpl. destruct H2 as (_ & _ & Hle & _). lia.
Qed.
End BuilderFacts.

(** ** The access-chain engine *)

Section Loops.
Context {S A B : Type}.

(** Loop invariant rule: [I done acc s] holds after the elements [done]. *)
Lemma wp_foldM (f : B -> A -> M S B) (I : list A -> B -> S -> Prop) :
  forall l done b0 s,
    I done b0 s ->
    (forall done x b s, I done b s ->
       wp (f b x) s (fun b' s' => I (done ++ [x]) b' s')) ->
    wp (foldM f l b0) s (fun b s' => I (done ++ l) b s').
Proof.
  induction l as [|x l IH]; intros done b0 s H0 Hstep; simpl.
  - apply wp_ret. by rewrite app_nil_r.
  - apply wp_bind. eapply wp_mono; [apply Hstep, H0 |].
    intros b' s' H'. simpl.
    replace (done ++ x :: l) with ((done ++ [x]) ++ l)
      by (by rewrite <- app_assoc).
    by apply IH.
Qed.

(** The same, knowing where in the list the loop is. *)
Lemma wp_foldM_at (f : B -> A -> M S B) (whole : list A)
    (I : list A -> B -> S -> Prop) :
  forall l done b0 s,
    whole = done ++ l ->
    I done b0 s ->
    (forall done x rest b s, whole = done ++ x :: rest -> I done b s ->
       wp (f b x) s (fun b' s' => I (done ++ [x]) b' s')) ->
    wp (foldM f l b0) s (fun b s' => I whole b s').
Proof.
  induction l as [|x l IH]; intros done b0 s Hw H0 Hstep; simpl.
  - apply wp_ret. by rewrite Hw, app_nil_r.
  - apply wp_bind. eapply wp_mono; [by eapply Hstep |].
    intros b' s' H'. simpl. apply (IH (done ++ [x])); [| done | done].
    by rewrite <- app_assoc.
Qed.
End Loops.

Section AccessChain.
Implicit Types (b : SPIRVBuilder) (data : NodeData).

Lemma index_ids_weaken b b' ins l ids :
  emits b b' ins -> index_ids b l ids -> index_ids b' l ids.
Proof.
  intros He H. unfold index_ids in *.
  eapply Forall2_impl; [exact H |]. intros e i. simpl.
  destruct (valid (id e)); [done |]. by eapply emits_uint.
Qed.

Lemma makeAccessChainIdList_spec data b Q :
  (forall ids b', emits b b' [] -> index_ids b' (idList data) ids ->
                  Q ids b') ->
  wp (makeAccessChainIdList data) b Q.
Proof.
  intros HQ. unfold makeAccessChainIdList.
  eapply wp_mono.
  - apply (wp_foldM _ (fun done ids b' =>
             emits b b' [] /\ index_ids b' done ids) _ []).
    + split; [apply emits_refl | constructor].
    + intros done x ids b1 [H1 H2]. wp_step.
      destruct (valid (id x)) eqn:Ev.
      * wp_step. wp_step. split; [done |].
        apply Forall2_app; [done |]. constructor; [| constructor].
        by rewrite Ev.
      * apply getUintConstant_spec. intros r b2 H3 H4. wp_step.
        split; [by eapply emits_nil_r |].
        apply Forall2_app; [by eapply index_ids_weaken |].
        constructor; [| constructor]. by rewrite Ev.
  - intros ids b' [H1 H2]. by apply HQ.
Qed.

Lemma makeAccessChainLiteralList_spec data b Q :
  Forall (fun e => valid (id e) = false) (idList data) ->
  Q (map literal (idList data)) b ->
  wp (makeAccessChainLiteralList data) b Q.
Proof.
  intros Hl HQ. unfold makeAccessChainLiteralList.
  revert Hl HQ. generalize (idList data). intros l Hl HQ.
  clear data. assert (Hgen : forall acc,
    wp (foldM (fun literalsOut entry =>
                 _ ← ASSERT (negb (valid (id entry))) Assert_literalList_id;
                 mret (literalsOut ++ [literal entry])) l acc) b
       (fun r b' => r = acc ++ map literal l /\ b' = b)).
  { clear HQ. induction Hl as [|x l Hx Hl IH]; intros acc; simpl.
    - apply wp_ret. by rewrite app_nil_r.
    - wp_step. wp_step. apply wp_ASSERT; [by rewrite Hx |].
      wp_step. eapply wp_mono; [apply IH |].
      intros r b' [-> ->]. by rewrite <- app_assoc. }
  eapply wp_mono; [apply (Hgen []) |]. by intros r b' [-> ->].
Qed.

Lemma set_accessChainId_same (a : AccessChain) :
  set_accessChainId (accessChainId a) a = a.
Proof. by destruct a. Qed.

Lemma on_accessChain_same data :
  on_accessChain (set_accessChainId (accessChainId (accessChain data))) data
  = data.
Proof.
  unfold on_accessChain. rewrite set_accessChainId_same. by destruct data.
Qed.

(** [accessChainCollapse] on an lvalue returns the pointer of the
    collapse table and records it in the chain. *)
Lemma accessChainCollapse_spec data b Q :
  IsAccessChainRValue (accessChain data) = false ->
  isOpen b = true ->
  (forall ptr b' ins,
      emits b b' ins ->
      collapse_table data b' ptr ins ->
      Q (ptr, on_accessChain (set_accessChainId ptr) data) b') ->
  wp (accessChainCollapse data) b Q.
Proof.
  intros Hl Hopen HQ. unfold accessChainCollapse.
  wp_step. apply wp_ASSERT.
  { unfold IsAccessChainRValue in Hl. by rewrite Hl. }
  destruct (valid (accessChainId (accessChain data))) eqn:Ev.
  { wp_step. rewrite <- (on_accessChain_same data) at 2.
    apply (HQ _ _ []); [apply emits_refl | by constructor]. }
  case_bool_decide as Ei.
  { wp_step. apply (HQ _ _ []); [apply emits_refl | by constructor]. }
  wp_step. apply makeAccessChainIdList_spec. intros ids b1 H1 Hids.
  wp_step. apply getTypePointerId_spec. intros ptrTy b2 H2.
  wp_step. apply getNewId_spec. intros b3 H3 _ _.
  wp_step. apply write_spec.
  { eapply emits_isOpen; [exact H3 |]. eapply emits_isOpen; [exact H2 |].
    by eapply emits_isOpen. }
  intros b4 H4. simpl in H4. wp_step.
  pose proof (emits_nil_l _ _ _ _ H1 (emits_nil_l _ _ _ _ H2
                (emits_nil_l _ _ _ _ H3 H4))) as H14.
  apply (HQ _ _ _ H14). constructor; [done | done |].
  eapply index_ids_weaken; [| exact Hids].
  exact (emits_nil_l _ _ _ _ H2 (emits_nil_l _ _ _ _ H3 H4)).
Qed.

Lemma accessChainCollapse_rvalue data b :
  IsAccessChainRValue (accessChain data) = true ->
  accessChainCollapse data b = Err Assert_collapse_storageClass.
Proof.
  intros Hr. unfold accessChainCollapse, IsAccessChainRValue in *.
  by rewrite Hr.
Qed.
End AccessChain.

Section Load.
Implicit Types (b : SPIRVBuilder) (data : NodeData).

Lemma collapse_table_weaken data b b' ins0 ptr ins :
  emits b b' ins0 -> collapse_table data b ptr ins ->
  collapse_table data b' ptr ins.
Proof.
  intros He H. destruct H.
  - by constructor.
  - by constructor.
  - constructor; [done | done |]. by eapply index_ids_weaken.
Qed.

Lemma swizzles_nil_length (l : list N) :
  l <> [] -> length l <> 1%nat -> (1 < length l)%nat.
Proof. destruct l as [|x [|y l]]; simpl; [done | done | lia]. Qed.

(** Steps 5 and 6 of the load, run after the value [r1] is at hand. *)
Lemma load_tail_spec (ac : AccessChain) (r1 : IdRef) b Q :
  isOpen b = true ->
  length (swizzles ac) <> 1%nat ->
  (valid (dynamicComponent ac) = true -> swizzles ac = []) ->
  (forall r2 r ins2 ins3 b',
      swizzle_table ac r1 r2 ins2 ->
      dynamic_table ac r2 r ins3 ->
      emits b b' (ins2 ++ ins3) ->
      Q r b') ->
  wp (loadResult ←
        (if negb (bool_decide (swizzles ac = [])) then
           _ ← ASSERT (bool_decide (1 < length (swizzles ac))%nat)
                 Assert_load_swizzle_size;
           let swizzleList := swizzles ac in
           result ← getNewId;
           _ ← write (OpVectorShuffle (postSwizzleTypeId ac) result r1 r1
                        swizzleList);
           mret result
         else mret r1);
      (if valid (dynamicComponent ac) then
         _ ← ASSERT (bool_decide (swizzles ac = []))
               Assert_load_dynamicComponent;
         result ← getNewId;
         _ ← write (OpVectorExtractDynamic (postDynamicComponentTypeId ac)
                      result loadResult (dynamicComponent ac));
         mret result
       else mret loadResult)) b Q.
Proof.
  intros Hopen Hs Hd HQ. wp_step.
  destruct (valid (dynamicComponent ac)) eqn:Ed.
  - (* a dynamic component: no swizzle is pending *)
    rewrite (bool_decide_eq_true_2 _ (Hd eq_refl)). simpl. wp_step.
    wp_step. apply wp_ASSERT; [done |].
    wp_step. apply getNewId_spec. intros b1 H1 _ _.
    wp_step. apply write_spec; [by eapply emits_isOpen |].
    intros b2 H2. wp_step.
    eapply (HQ r1 _ [] _).
    + unfold swizzle_table. by rewrite (bool_decide_eq_true_2 _ (Hd eq_refl)).
    + unfold dynamic_table. by rewrite Ed.
    + simpl. by eapply emits_nil_l.
  - case_bool_decide as Es; simpl.
    + wp_step. wp_step. eapply (HQ r1 r1 [] []).
      * unfold swizzle_table. by rewrite bool_decide_eq_true_2.
      * unfold dynamic_table. by rewrite Ed.
      * apply emits_refl.
    + wp_step. apply wp_ASSERT.
      { apply bool_decide_eq_true_2. by apply swizzles_nil_length. }
      wp_step. apply getNewId_spec. intros b1 H1 _ _.
      wp_step. apply write_spec; [by eapply emits_isOpen |].
      intros b2 H2. wp_step. wp_step.
      eapply (HQ _ _ _ []).
      * unfold swizzle_table. by rewrite bool_decide_eq_false_2.
      * unfold dynamic_table. by rewrite Ed.
      * simpl. by eapply emits_nil_l.
Qed.

Lemma load_table_weaken data b b1 b2 ins0 r d ins :
  emits b1 b2 ins0 -> load_table data b b1 r d ins ->
  load_table data b b2 r d ins.
Proof.
  intros He H. destruct H.
  - by constructor.
  - by constructor.
  - econstructor; [done | done | done | done | | ].
    + by eapply emits_variable.
    + by eapply index_ids_weaken.
  - constructor; [done |]. by eapply collapse_table_weaken.
Qed.

Lemma idList_nil_length data :
  idList data <> [] <-> (0 < length (idList data))%nat.
Proof. destruct (idList data); simpl; split; (done || lia). Qed.

(** Steps 1 to 4 of the load. *)
Lemma load_head_spec data b Q :
  isOpen b = true ->
  load_invariants data ->
  (forall r1 data1 ins1 b',
      load_table data b b' r1 data1 ins1 ->
      accessChain data1 =
        set_accessChainId (accessChainId (accessChain data1))
          (set_storageClass (storageClass (accessChain data1))
             (accessChain data)) ->
      emits b b' ins1 ->
      Q (r1, data1) b') ->
  wp (if IsAccessChainRValue (accessChain data) then
     if bool_decide (0 < length (idList data))%nat then
       if areAllIndicesLiteral (accessChain data) then
         indexList ← makeAccessChainLiteralList data;
         result ← getNewId;
         _ ← write (OpCompositeExtract
                      (preSwizzleTypeId (accessChain data)) result
                      (baseId data) indexList);
         mret (result, data)
       else
         tempVar ← declareVariable (preSwizzleTypeId (accessChain data))
                     StorageClassFunction None "indexable";
         _ ← write (OpStore tempVar (baseId data));
         let data := set_baseId tempVar data in
         let data :=
           on_accessChain (set_storageClass StorageClassFunction) data in
         '(accessChainId, data) ← accessChainCollapse data;
         loadResult ← getNewId;
         _ ← write (OpLoad (preSwizzleTypeId (accessChain data)) loadResult
                      accessChainId);
         mret (loadResult, data)
     else mret (baseId data, data)
   else
     '(accessChainId, data) ← accessChainCollapse data;
     loadResult ← getNewId;
     _ ← write (OpLoad (preSwizzleTypeId (accessChain data)) loadResult
                  accessChainId);
     mret (loadResult, data)) b Q.
Proof.
  intros Hopen [Hs Hd Hlit Hrv] HQ.
  destruct (IsAccessChainRValue (accessChain data)) eqn:Er.
  - case_bool_decide as Ei.
    + apply idList_nil_length in Ei.
      destruct (areAllIndicesLiteral (accessChain data)) eqn:El.
      * wp_step. apply makeAccessChainLiteralList_spec; [by apply Hlit |].
        wp_step. apply getNewId_spec. intros b1 H1 _ _.
        wp_step. apply write_spec; [by eapply emits_isOpen |].
        intros b2 H2. wp_step.
        apply (HQ _ _ _ _ (load_rvalue_literal _ _ _ _ Er Ei El)).
        { by destruct data as [? ? []]. }
        by eapply emits_nil_l.
      * wp_step. apply declareVariable_Function_spec; [done |].
        intros varTy b1 H1 Hvar _.
        wp_step. apply write_spec; [by eapply emits_isOpen |].
        intros b2 H2. pose proof (emits_nil_l _ _ _ _ H1 H2) as H12.
        wp_step. wp_step. apply accessChainCollapse_spec;
          [done | by eapply emits_isOpen |].
        intros ptr b3 ins H3 Hc. simpl.
        inversion Hc as [Hv | Hv Hnil | ptr' ptrTy ids Hv Hne Hids];
          simpl in *; subst.
        { rewrite Hrv in Hv; done. }
        { done. }
        wp_step. apply getNewId_spec. intros b4 H4 _ _.
        wp_step. apply write_spec.
        { eapply emits_isOpen; [exact H4 |].
          eapply emits_isOpen; [exact H3 |]. by eapply emits_isOpen. }
        intros b5 H5. wp_step.
        pose proof (emits_nil_l _ _ _ _ H4 H5) as H45.
        pose proof (emits_trans _ _ _ _ _ H3 H45) as H35.
        pose proof (emits_trans _ _ _ _ _ H12 H35) as H15.
        apply (HQ _ _ _ _
                 (load_rvalue_spill _ _ _ _ _ varTy ptr ptrTy ids
                    Er Ei El eq_refl
                    (emits_variable _ _ _ _
                       (emits_trans _ _ _ _ _ H2 H35) Hvar)
                    (index_ids_weaken _ _ _ _ _ H45 Hids))).
        { by destruct data as [? ? []]. }
        exact H15.
    + wp_step.
      assert (idList data = []) as Hnil.
      { destruct (idList data); [done | simpl in Ei; lia]. }
      apply (HQ _ _ _ _ (load_rvalue_unindexed _ _ _ Er Hnil)).
      { by destruct data as [? ? []]. }
      apply emits_refl.
  - wp_step. apply accessChainCollapse_spec; [done | done |].
    intros ptr b1 ins H1 Hc. simpl.
    wp_step. apply getNewId_spec. intros b2 H2 _ _.
    wp_step. apply write_spec; [by do 2 (eapply emits_isOpen; [eassumption |]) |].
    intros b3 H3. wp_step.
    pose proof (emits_nil_l _ _ _ _ H2 H3) as H23.
    apply (HQ _ _ _ _
             (load_lvalue _ _ _ _ ptr ins Er
                (collapse_table_weaken _ _ _ _ _ _ H23 Hc))).
    { by destruct data as [? ? []]. }
    by eapply emits_trans.
Qed.
End Load.

Lemma loads_weaken data b b1 b2 ins0 r d ins :
  emits b1 b2 ins0 -> loads data b b1 r d ins -> loads data b b2 r d ins.
Proof.
  intros He (r1 & r2 & ins1 & ins2 & ins3 & H1 & H2 & H3 & H4).
  exists r1, r2, ins1, ins2, ins3. split_and!; try done.
  by eapply load_table_weaken.
Qed.

(** The load returns, with the value and the code of the decision table. *)
Lemma accessChainLoad_spec (data : NodeData) (b : SPIRVBuilder) Q :
  isOpen b = true ->
  load_invariants data ->
  (forall r data' b' ins,
      loads data b b' r data' ins -> emits b b' ins -> Q (r, data') b') ->
  wp (accessChainLoad data) b Q.
Proof.
  intros Hopen Hinv HQ. unfold accessChainLoad.
  wp_step. apply load_head_spec; [done | done |].
  intros r1 data1 ins1 b1 Ht Hac H1. simpl.
  assert (swizzles (accessChain data1) = swizzles (accessChain data)) as Es
    by (by rewrite Hac).
  assert (dynamicComponent (accessChain data1)
          = dynamicComponent (accessChain data)) as Ed by (by rewrite Hac).
  assert (postSwizzleTypeId (accessChain data1)
          = postSwizzleTypeId (accessChain data)) as Ep by (by rewrite Hac).
  assert (postDynamicComponentTypeId (accessChain data1)
          = postDynamicComponentTypeId (accessChain data)) as Eq
    by (by rewrite Hac).
  destruct Hinv as [Hs Hd _ _].
  rewrite <- Es in Hs, Hd. rewrite <- Ed in Hd.
  apply wp_bind_assoc. wp_step.
  apply load_tail_spec; [by eapply emits_isOpen | done | done |].
  intros r2 r ins2 ins3 b2 Hsw Hdy H2. wp_step.
  apply (HQ r data1 b2 (ins1 ++ ins2 ++ ins3)).
  - exists r1, r2, ins1, ins2, ins3. split_and!.
    + by eapply load_table_weaken.
    + unfold swizzle_table in *. by rewrite <- Es, <- Ep.
    + unfold dynamic_table in *. by rewrite <- Ed, <- Eq.
    + done.
  - by eapply emits_trans.
Qed.

(** X25.  [accessChainLoad] follows the load decision table on a record
    that satisfies the invariants of the data model: in an open block the
    load returns; an rvalue without indices gives [baseId] and no code; an
    rvalue with all-literal indices gives one [OpCompositeExtract] with the
    literal path; an rvalue with a non-literal index is stored to a fresh
    Function-class variable, the record becomes an lvalue on it, and the
    value is read by [OpAccessChain] and [OpLoad]; an lvalue is collapsed
    and read by [OpLoad]; then a pending multi-component swizzle adds one
    [OpVectorShuffle] and a pending dynamic component one
    [OpVectorExtractDynamic]. *)
Theorem accessChainLoad_decision_table (data : NodeData) (b : SPIRVBuilder) :
  isOpen b = true ->
  load_invariants data ->
  wp (accessChainLoad data) b (fun res b' =>
    exists r1 r2 ins1 ins2 ins3,
      load_table data b b' r1 res.2 ins1
      /\ swizzle_table (accessChain data) r1 r2 ins2
      /\ dynamic_table (accessChain data) r2 res.1 ins3
      /\ emits b b' (ins1 ++ ins2 ++ ins3)).
Proof.
  intros Hopen Hinv. apply accessChainLoad_spec; [done | done |].
  intros r data' b' ins (r1 & r2 & ins1 & ins2 & ins3 & H1 & H2 & H3 & ->) He.
  by exists r1, r2, ins1, ins2, ins3.
Qed.

Lemma accessChainLoad_decision_table_witness :
  isOpen builder0 = true
  /\ load_invariants rvalue_1_0_yx
  /\ wp (accessChainLoad rvalue_1_0_yx) builder0 (fun res b' =>
       exists r1 r2 ins1 ins2 ins3,
         load_table rvalue_1_0_yx builder0 b' r1 res.2 ins1
         /\ swizzle_table (accessChain rvalue_1_0_yx) r1 r2 ins2
         /\ dynamic_table (accessChain rvalue_1_0_yx) r2 res.1 ins3
         /\ emits builder0 b' (ins1 ++ ins2 ++ ins3)).
Proof.
  assert (load_invariants rvalue_1_0_yx) as Hinv.
  { constructor; simpl; intros; try done. repeat constructor. }
  split; [reflexivity |]. split; [exact Hinv |].
  exact (accessChainLoad_decision_table rvalue_1_0_yx builder0 eq_refl Hinv).
Defined.

(** C1.  [accessChainLoad] does not follow the decision table on every
    access chain.  For [v.yx[i]] on an rvalue [v] (id 7, a vec4) the pushes
    of the code leave both the swizzle [yx] and the dynamic component [i]
    pending, since [accessChainPushDynamicComponent] keeps the index apart on
    an rvalue with all-literal indices; the table asks for one
    [OpVectorShuffle] and then one [OpVectorExtractDynamic], but the load
    stops at its assertion that no swizzle is pending with a dynamic
    component. *)
Example accessChainLoad_rvalue_swizzle_dynamic :
  (data ← accessChainPushSwizzle (nodeDataInitRValue 7%N 1%N) [1; 0] 3%N 4%N;
   data ← accessChainPushDynamicComponent data 8%N 6%N;
   accessChainLoad data) builder0
  = Err Assert_load_dynamicComponent.
Proof. vm_compute. reflexivity. Qed.

(** ** Stores *)

Section Post.
Context {S : Type}.


Lemma post_bind {A B} (m : M S A) (f : A -> M S B) s Q E :
  post m s (fun a s' => post (f a) s' Q E) E -> post (m ≫= f) s Q E.
Proof.
  unfold post. unfold mbind, M_bind. by destruct (m s) as [[a s']|e].
Qed.

Lemma post_ret {A} (a : A) (s : S) Q E : Q a s -> post (mret a) s Q E.
Proof. done. Qed.

Lemma post_ASSERT (c : bool) e (s : S) (Q : unit -> S -> Prop) (E : _ -> Prop) :
  (c = true -> Q tt s) -> (c = false -> E e) -> post (ASSERT c e) s Q E.
Proof. destruct c; unfold post; simpl; auto. Qed.

Lemma post_mono {A} (m : M S A) s (Q Q' : A -> S -> Prop) (E E' : _ -> Prop) :
  post m s Q E -> (forall a s', Q a s' -> Q' a s') ->
  (forall e, E e -> E' e) -> post m s Q' E'.
Proof. unfold post. destruct (m s) as [[a s']|e]; auto. Qed.

End Post.

Section Store.
Implicit Types (b : SPIRVBuilder) (data : NodeData).


Lemma store_mask_from_length count swizzles l k :
  length (store_mask_from count swizzles (l, k)).1 = length l.
Proof.
  revert l k. induction swizzles as [|dst s IH]; intros l k; [done |].
  change (store_mask_from count (dst :: s) (l, k))
    with (store_mask_from count s
            (<[N.to_nat dst := (count + k)%N]> l, (k + 1)%N)).
  by rewrite IH, length_insert.
Qed.

Lemma store_mask_length count swizzles :
  length (store_mask count swizzles) = N.to_nat count.
Proof.
  unfold store_mask.
  by rewrite store_mask_from_length, length_map, length_seq.
Qed.

(** The loop that builds the mask returns the pure mask when every
    swizzled lane exists; the 32-bit arithmetic does not wrap. *)
Lemma storeSwizzleList_spec count swizzles b :
  (count < 256)%N -> (length swizzles <= 4)%nat ->
  Forall (fun c => (c < count)%N) swizzles ->
  storeSwizzleList count swizzles b = Ok (store_mask count swizzles, b).
Proof.
  intros Hc Hlen Hr. unfold storeSwizzleList, store_mask.
  set (l0 := map N.of_nat (seq 0 (N.to_nat count))).
  assert (length l0 = N.to_nat count) as Hl0
    by (unfold l0; by rewrite length_map, length_seq).
  assert (Hgen : forall l k,
    length l = N.to_nat count ->
    (N.to_nat k + length swizzles <= 4)%nat ->
    foldM (fun '(swizzleList, srcComponent) dstComponent =>
             swizzleList ←
               set_index swizzleList (N.to_nat dstComponent)
                 ((count + srcComponent) mod 2 ^ 32)%N;
             mret (swizzleList, ((srcComponent + 1) mod 2 ^ 32)%N))
      swizzles (l, k) b
    = Ok (store_mask_from count swizzles (l, k), b)).
  { clear Hlen. induction Hr as [|dst s Hdst Hr IH]; intros l k Hl Hk.
    - done.
    - simpl in *. unfold mbind at 1, M_bind at 1.
      unfold set_index. rewrite bool_decide_eq_true_2 by lia.
      unfold mbind at 1, M_bind at 1. simpl.
      rewrite !N.mod_small by lia.
      rewrite IH; [done | by rewrite length_insert | lia]. }
  unfold mbind, M_bind. rewrite Hgen by (simpl; lia).
  by destruct (store_mask_from _ _ _).
Qed.

End Store.

Section Mask.
Context {A : Type}.
Implicit Types (v u : list A) (s : list N) (l : list N).

Lemma store_mask_from_cons count dst s l k :
  store_mask_from count (dst :: s) (l, k)
  = store_mask_from count s (<[N.to_nat dst := (count + k)%N]> l, (k + 1)%N).
Proof. done. Qed.

(** Lanes the swizzle does not name keep their entry. *)
Lemma store_mask_from_other count s : forall l k i,
  N.of_nat i ∉ s ->
  (store_mask_from count s (l, k)).1 !! i = l !! i.
Proof.
  induction s as [|dst s IH]; intros l k i Hi; [done |].
  rewrite store_mask_from_cons. apply not_elem_of_cons in Hi as [Hne Hi].
  rewrite IH by done. apply list_lookup_insert_ne. lia.
Qed.

(** The lane named by the [j]-th component of the swizzle reads component
    [j] of the value. *)
Lemma store_mask_from_routed count s : forall l k j dst,
  NoDup s -> s !! j = Some dst -> (N.to_nat dst < length l)%nat ->
  (store_mask_from count s (l, k)).1 !! N.to_nat dst
  = Some (count + k + N.of_nat j)%N.
Proof.
  induction s as [|d s IH]; intros l k j dst Hnd Hj Hlt; [done |].
  rewrite store_mask_from_cons. apply NoDup_cons in Hnd as [Hd Hnd].
  destruct j as [|j]; simpl in Hj.
  - injection Hj as ->.
    rewrite store_mask_from_other by (by rewrite N2Nat.id).
    rewrite list_lookup_insert_eq by done. f_equal. lia.
  - rewrite (IH _ _ j) by (by rewrite ?length_insert).
    f_equal. lia.
Qed.

Lemma drop_cons_inv (n : nat) u x u' :
  drop n u = x :: u' -> u !! n = Some x /\ drop (S n) u = u'.
Proof.
  intros H.
  assert (u !! n = Some x) as Hx.
  { pose proof (lookup_drop u n 0) as Hd. rewrite H in Hd. simpl in Hd.
    by rewrite Nat.add_0_r in Hd. }
  split; [done |]. rewrite (drop_S _ _ _ Hx) in H. by injection H.
Qed.

Lemma swizzle_assign_length v s u :
  length (swizzle_assign v s u) = length v.
Proof.
  revert v u. induction s as [|dst s IH]; intros v [|x u]; simpl; try done.
  by rewrite IH, length_insert.
Qed.

(** Reading the two operands through the mask gives, lane by lane, the
    assigned vector. *)
Lemma store_mask_from_shuffle count v u s : forall l k vc u',
  length v = N.to_nat count ->
  length l = N.to_nat count ->
  length vc = N.to_nat count ->
  Forall (fun c => (c < count)%N) s ->
  drop (N.to_nat k) u = u' ->
  length u' = length s ->
  (forall i, l !! i ≫= (fun c => (v ++ u) !! N.to_nat c) = vc !! i) ->
  forall i, (store_mask_from count s (l, k)).1 !! i
            ≫= (fun c => (v ++ u) !! N.to_nat c)
            = swizzle_assign vc s u' !! i.
Proof.
  induction s as [|dst s IH]; intros l k vc u' Hv Hl Hvc Hr Hu Hlen Hinv i.
  - by destruct u'.
  - destruct u' as [|x u'']; [done |].
    rewrite store_mask_from_cons. simpl.
    apply Forall_cons in Hr as [Hdst Hr].
    apply drop_cons_inv in Hu as [Hx Hu].
    apply (IH _ _ _ u''); try done.
    + by rewrite length_insert.
    + by rewrite length_insert.
    + by replace (N.to_nat (k + 1)) with (S (N.to_nat k)) by lia.
    + simpl in Hlen. lia.
    + intros i'. destruct (decide (i' = N.to_nat dst)) as [-> | Hne].
      * rewrite !list_lookup_insert_eq by lia. simpl.
        rewrite lookup_app_r by lia.
        by replace (N.to_nat (count + k) - length v)%nat with (N.to_nat k)
          by lia.
      * rewrite !list_lookup_insert_ne by done. apply Hinv.
Qed.
End Mask.

Section SwizzledStore.
Context {A : Type}.
Implicit Types (v u : list A) (m : Machine A) (b : SPIRVBuilder).

Lemma store_mask_shuffle count v u (s : list N) :
  length v = N.to_nat count -> length u = length s ->
  Forall (fun c => (c < count)%N) s ->
  mapM (fun c => (v ++ u) !! N.to_nat c) (store_mask count s)
  = Some (swizzle_assign v s u).
Proof.
  intros Hv Hu Hr. apply mapM_Some, Forall2_same_length_lookup_2.
  - by rewrite store_mask_length, swizzle_assign_length.
  - intros i c y Hc Hy.
    pose proof (store_mask_from_shuffle count v u s
                  (map N.of_nat (seq 0 (N.to_nat count))) 0%N v u Hv) as H.
    specialize (H ltac:(by rewrite length_map, length_seq) Hv Hr eq_refl Hu).
    unfold store_mask in Hc. rewrite <- Hy, <- H; [by rewrite Hc |].
    intros j. rewrite list_lookup_fmap.
    destruct (decide (j < N.to_nat count)%nat) as [Hj | Hj].
    + rewrite lookup_seq_lt by done. simpl.
      rewrite Nat2N.id. apply lookup_app_l. lia.
    + rewrite lookup_seq_ge by lia. simpl. symmetry.
      apply lookup_ge_None. lia.
Qed.

(** With the type of the vector as Result Type of the shuffle, the load,
    shuffle and store of a swizzled assignment leave the assigned vector
    behind the pointer. *)
Lemma exec_swizzled_store types m count v u (s : list N) ptr value loaded
    shuffled t t' :
  mem m !! ptr = Some v -> regs m !! value = Some u ->
  loaded <> value ->
  length v = N.to_nat count -> length u = length s ->
  Forall (fun c => (c < count)%N) s ->
  types !! t = Some (N.to_nat count) ->
  types !! t' = Some (N.to_nat count) ->
  exists m',
    exec_all types
      [OpLoad t loaded ptr;
       OpVectorShuffle t' shuffled loaded value (store_mask count s);
       OpStore ptr shuffled] m = Some m'
    /\ mem m' = <[ptr := swizzle_assign v s u]> (mem m).
Proof.
  intros Hm Hval Hne Hv Hu Hr Ht Ht'. destruct m as [rg mm]. simpl in *.
  exists {| regs := <[shuffled := swizzle_assign v s u]> (<[loaded := v]> rg);
            mem := <[ptr := swizzle_assign v s u]> mm |}.
  split; [| done]. rewrite Hm. simpl.
  rewrite decide_True by (by rewrite Hv). simpl.
  rewrite lookup_insert_eq. simpl.
  rewrite lookup_insert_ne by done. rewrite Hval. simpl.
  rewrite store_mask_shuffle by done. simpl.
  rewrite decide_True by (by rewrite store_mask_length).
  simpl. rewrite lookup_insert_eq. simpl. rewrite Hm. simpl.
  by rewrite decide_True by (by rewrite swizzle_assign_length).
Qed.

(** With a Result Type that has another number of components than the mask
    has entries, the shuffle has no result, whatever the machine holds. *)
Lemma exec_shuffle_ill_typed types m ptr value loaded shuffled t t'
    (mask : list N) :
  types !! t' <> Some (length mask) ->
  exec_all types
    [OpLoad t loaded ptr;
     OpVectorShuffle t' shuffled loaded value mask;
     OpStore ptr shuffled] m = None.
Proof.
  intros Ht'. simpl.
  destruct (mem m !! ptr) as [v|]; simpl; [| done].
  destruct (decide (types !! t = Some (length v))); simpl; [| done].
  rewrite lookup_insert_eq. simpl.
  destruct (<[loaded := v]> (regs m) !! value) as [u|]; simpl; [| done].
  destruct (mapM _ mask) as [r|]; simpl; [| done].
  by rewrite decide_False by done.
Qed.
End SwizzledStore.

(** The code of a store through a chain with a pending swizzle. *)
Lemma accessChainStore_swizzled_spec (data : NodeData) (value : IdRef)
    (b : SPIRVBuilder) Q :
  isOpen b = true ->
  IsAccessChainRValue (accessChain data) = false ->
  valid (dynamicComponent (accessChain data)) = false ->
  (1 < length (swizzles (accessChain data)) <= 4)%nat ->
  (swizzledVectorComponentCount (accessChain data) < 256)%N ->
  Forall (fun c => (c < swizzledVectorComponentCount (accessChain data))%N)
    (swizzles (accessChain data)) ->
  (forall b' ptr insC loaded shuffled,
      collapse_table data b' ptr insC ->
      (mNextAvailableId b <= loaded)%N ->
      emits b b'
        (insC ++
         [OpLoad (preSwizzleTypeId (accessChain data)) loaded ptr;
          OpVectorShuffle (postSwizzleTypeId (accessChain data)) shuffled
            loaded value
            (store_mask (swizzledVectorComponentCount (accessChain data))
               (swizzles (accessChain data)));
          OpStore ptr shuffled]) ->
      Q (on_accessChain (set_accessChainId ptr) data) b') ->
  wp (accessChainStore data value) b Q.
Proof.
  intros Hopen Hl Hd Hlen Hc Hr HQ. unfold accessChainStore.
  assert (swizzles (accessChain data) <> []) as Hne
    by (destruct (swizzles (accessChain data)); [simpl in Hlen; lia | done]).
  wp_step. apply wp_ASSERT.
  { rewrite bool_decide_eq_false_2 by lia. done. }
  wp_step. apply wp_ASSERT; [by rewrite Hd |].
  wp_step. apply accessChainCollapse_spec; [done | done |].
  intros ptr b1 insC H1 Hct. simpl.
  rewrite (bool_decide_eq_false_2 _ Hne). simpl.
  wp_step. wp_step. apply getNewId_spec. intros b2 H2 _ _.
  wp_step. apply write_spec; [by do 2 (eapply emits_isOpen; [eassumption |]) |].
  intros b3 H3.
  wp_step. eapply wp_Ok; [by apply storeSwizzleList_spec; [| lia |] |].
  wp_step. apply getNewId_spec. intros b4 H4 _ _.
  wp_step. apply write_spec; [by do 4 (eapply emits_isOpen; [eassumption |]) |].
  intros b5 H5. wp_step.
  wp_step. apply write_spec; [by do 5 (eapply emits_isOpen; [eassumption |]) |].
  intros b6 H6. wp_step.
  pose proof (emits_nil_l _ _ _ _ H2 H3) as H23.
  pose proof (emits_nil_l _ _ _ _ H4 H5) as H45.
  pose proof (emits_trans _ _ _ _ _ H23 (emits_trans _ _ _ _ _ H45 H6)) as H26.
  apply (HQ b6 ptr insC (mNextAvailableId b1) (mNextAvailableId b3)).
  - by eapply collapse_table_weaken.
  - by destruct H1 as (_ & _ & ? & _).
  - by eapply emits_trans.
Qed.

(** X26.  The mask of a store through a chain that ends in a pending
    multi-component swizzle: the store loads the vector, shuffles it with
    the value through a mask that is the identity on the lanes the swizzle
    does not name and sends the lane named by the j-th swizzle component to
    component j of the value, and stores the result through the same
    pointer.  The Result Type of the shuffle is the type after the
    swizzle. *)
Lemma accessChainStore_swizzle_mask (data : NodeData) (value : IdRef)
    (b : SPIRVBuilder) :
  isOpen b = true ->
  IsAccessChainRValue (accessChain data) = false ->
  valid (dynamicComponent (accessChain data)) = false ->
  (1 < length (swizzles (accessChain data)) <= 4)%nat ->
  (swizzledVectorComponentCount (accessChain data) < 256)%N ->
  Forall (fun c => (c < swizzledVectorComponentCount (accessChain data))%N)
    (swizzles (accessChain data)) ->
  let count := swizzledVectorComponentCount (accessChain data) in
  let swz := swizzles (accessChain data) in
  wp (accessChainStore data value) b (fun data' b' =>
    exists ptr insC loaded shuffled mask,
      collapse_table data b' ptr insC
      /\ emits b b'
           (insC ++
            [OpLoad (preSwizzleTypeId (accessChain data)) loaded ptr;
             OpVectorShuffle (postSwizzleTypeId (accessChain data)) shuffled
               loaded value mask;
             OpStore ptr shuffled])
      /\ mask = store_mask count swz
      /\ length mask = N.to_nat count
      /\ (forall i, N.of_nat i ∉ swz ->
            mask !! i = (N.of_nat <$> seq 0 (N.to_nat count)) !! i)
      /\ (NoDup swz -> forall j dst, swz !! j = Some dst ->
            mask !! N.to_nat dst = Some (count + N.of_nat j)%N)).
Proof.
  intros Hopen Hl Hd Hlen Hc Hr count swz.
  apply accessChainStore_swizzled_spec; try done.
  intros b' ptr insC loaded shuffled Hct Hfresh Hemit.
  exists ptr, insC, loaded, shuffled, (store_mask count swz).
  split_and!; try done.
  - apply store_mask_length.
  - intros i Hi. unfold store_mask. by apply store_mask_from_other.
  - intros Hnd j dst Hj. unfold store_mask.
    rewrite (store_mask_from_routed _ _ _ _ j) ; [f_equal; lia | done | done |].
    rewrite length_map, length_seq.
    eapply Forall_lookup_1 in Hr; [| exact Hj]. simpl in Hr. lia.
Qed.

Lemma accessChainStore_swizzle_mask_witness :
  exists data' b', accessChainStore v_zx 8%N builder0 = Ok (data', b').
Proof.
  destruct (accessChainStore_swizzle_mask v_zx 8%N builder0)
    as (data' & b' & H & _).
  - reflexivity.
  - reflexivity.
  - reflexivity.
  - simpl. lia.
  - reflexivity.
  - simpl. repeat constructor.
  - by exists data', b'.
Defined.

(** Whenever the swizzle has fewer components than the vector, the code of
    the store has no result by the SPIR-V rules: the shuffle is given the
    type after the swizzle as Result Type, and a mask with one entry per
    component of the vector. *)
Lemma accessChainStore_swizzle_ill_typed (data : NodeData) (value : IdRef)
    (b : SPIRVBuilder) (types : gmap N nat) :
  isOpen b = true ->
  IsAccessChainRValue (accessChain data) = false ->
  valid (dynamicComponent (accessChain data)) = false ->
  (1 < length (swizzles (accessChain data)) <= 4)%nat ->
  (swizzledVectorComponentCount (accessChain data) < 256)%N ->
  Forall (fun c => (c < swizzledVectorComponentCount (accessChain data))%N)
    (swizzles (accessChain data)) ->
  types !! postSwizzleTypeId (accessChain data)
  = Some (length (swizzles (accessChain data))) ->
  length (swizzles (accessChain data))
  <> N.to_nat (swizzledVectorComponentCount (accessChain data)) ->
  wp (accessChainStore data value) b (fun data' b' =>
    exists insC code,
      emits b b' (insC ++ code)
      /\ length code = 3%nat
      /\ forall (A : Type) (m : Machine A), exec_all types code m = None).
Proof.
  intros Hopen Hl Hd Hlen Hc Hr Hty Hne.
  apply accessChainStore_swizzled_spec; try done.
  intros b' ptr insC loaded shuffled _ _ He.
  eexists insC, _. split_and!; [exact He | done |].
  intros A m. apply exec_shuffle_ill_typed.
  rewrite Hty, store_mask_length. congruence.
Qed.

(** C2.  [v.zx = u] on a [vec4 v] (pointer 5, type id 2; the swizzle is of
    type id 3, a [vec2]; [u] has id 8): the store loads [v], shuffles it
    with [u] through the mask [5, 1, 4, 3] and stores the result through
    the pointer of [v], but it gives the shuffle the [vec2] type as Result
    Type.  By the SPIR-V rules a shuffle with four mask entries and a
    two-component Result Type has no result, so the code leaves no
    [(q,b,p,d)] behind the pointer; with the type of [v] as Result Type the
    same instructions do. *)
Theorem accessChainStore_swizzle_result_type :
  let types : gmap N nat := {[ 2%N := 4%nat; 3%N := 2%nat ]} in
  exists data' b',
    accessChainStore v_zx 8%N builder0 = Ok (data', b')
    /\ currentBody b'
       = [OpLoad 2%N 10%N 5%N;
          OpVectorShuffle 3%N 11%N 10%N 8%N [5%N; 1%N; 4%N; 3%N];
          OpStore 5%N 11%N]
    /\ (forall (A : Type) (m : Machine A),
          exec_all types (currentBody b') m = None)
    /\ forall (A : Type) (a b c d p q : A),
        exists m',
          exec_all types
            [OpLoad 2%N 10%N 5%N;
             OpVectorShuffle 2%N 11%N 10%N 8%N [5%N; 1%N; 4%N; 3%N];
             OpStore 5%N 11%N]
            {| regs := {[ 8%N := [p; q] ]}; mem := {[ 5%N := [a; b; c; d] ]} |}
          = Some m'
          /\ mem m' !! 5%N = Some [q; b; p; d].
Proof.
  intros types.
  assert (exists data' b',
             accessChainStore v_zx 8%N builder0 = Ok (data', b')
             /\ currentBody b'
                = [OpLoad 2%N 10%N 5%N;
                   OpVectorShuffle 3%N 11%N 10%N 8%N [5%N; 1%N; 4%N; 3%N];
                   OpStore 5%N 11%N]) as (data' & b' & Hrun & Hbody)
    by (eexists _, _; split; vm_compute; reflexivity).
  exists data', b'. split_and!; [done | done | |].
  - intros A m. rewrite Hbody. by apply exec_shuffle_ill_typed.
  - intros A a b c d p q.
    destruct (exec_swizzled_store types
                {| regs := {[ 8%N := [p; q] ]};
                   mem := {[ 5%N := [a; b; c; d] ]} |}
                4%N [a; b; c; d] [p; q] [2%N; 0%N]
                5%N 8%N 10%N 11%N 2%N 2%N) as (m' & Hx & Hmem);
      [done | done | done | done | done | by repeat constructor | done | done
      |].
    exists m'. split; [exact Hx |]. rewrite Hmem. by rewrite lookup_insert_eq.
Qed.

Section StoreFailures.
Implicit Types (b : SPIRVBuilder) (data : NodeData).



Lemma accessChainStore_unswizzled_spec data value b Q :
  isOpen b = true ->
  IsAccessChainRValue (accessChain data) = false ->
  valid (dynamicComponent (accessChain data)) = false ->
  swizzles (accessChain data) = [] ->
  (forall b' ptr insC,
      collapse_table data b' ptr insC ->
      emits b b' (insC ++ [OpStore ptr value]) ->
      Q (on_accessChain (set_accessChainId ptr) data) b') ->
  wp (accessChainStore data value) b Q.
Proof.
  intros Hopen Hl Hd Hs HQ. unfold accessChainStore.
  wp_step. apply wp_ASSERT; [by rewrite Hs |].
  wp_step. apply wp_ASSERT; [by rewrite Hd |].
  wp_step. apply accessChainCollapse_spec; [done | done |].
  intros ptr b1 insC H1 Hct. simpl.
  rewrite (bool_decide_eq_true_2 _ Hs). simpl.
  wp_step. wp_step.
  wp_step. apply write_spec; [by eapply emits_isOpen |].
  intros b2 H2. wp_step.
  apply (HQ b2 ptr insC).
  - by eapply collapse_table_weaken.
  - by eapply emits_trans.
Qed.
End StoreFailures.


(** ** Swizzle nodes *)

Section Swizzle.
Implicit Types (t : OutputSPIRVTraverser) (swizzle : list Z).

Lemma isIdentitySwizzle_fold swizzle : forall (k : nat) (acc : bool),
  fold_left
    (fun isIdentity '(index, s) =>
       isIdentity && bool_decide (size_t s = N.of_nat index))
    (imap (fun index s => (k + index, s)%nat) swizzle) acc = true
  <-> acc = true
      /\ forall i s, swizzle !! i = Some s -> size_t s = N.of_nat (k + i).
Proof.
  induction swizzle as [|s0 swizzle IH]; intros k acc; simpl.
  - split; [by intros -> | by intros [-> _]].
  - assert (imap ((fun index s => (k + index, s)%nat) ∘ S) swizzle
            = imap (fun index s => (S k + index, s)%nat) swizzle) as ->.
    { apply imap_ext. intros i x _. simpl. f_equal. lia. }
    rewrite IH, andb_true_iff, bool_decide_eq_true, Nat.add_0_r.
    split.
    + intros [[Hacc H0] H]. split; [done |]. intros [|i] s Hs; simpl in Hs.
      * injection Hs as <-. by rewrite Nat.add_0_r.
      * rewrite (H i s Hs). f_equal. lia.
    + intros [Hacc H]. split_and!; [done | |].
      * rewrite (H 0%nat s0 eq_refl). f_equal. lia.
      * intros i s Hs. rewrite (H (S i) s Hs). f_equal. lia.
Qed.

(** The test of [visitSwizzle] says exactly that the swizzle lists the
    components of the vector in their order. *)
Lemma isIdentitySwizzle_iff (n : N) swizzle :
  isIdentitySwizzle n swizzle = true
  <-> N.of_nat (length swizzle) = n
      /\ forall i s, swizzle !! i = Some s -> size_t s = N.of_nat i.
Proof.
  unfold isIdentitySwizzle.
  pose proof (isIdentitySwizzle_fold swizzle 0) as H. simpl in H.
  by rewrite H, bool_decide_eq_true.
Qed.

Lemma isIdentitySwizzle_seqZ (n : Z) :
  0 <= n < 256 -> isIdentitySwizzle (Z.to_N n) (seqZ 0 n) = true.
Proof.
  intros Hn. apply isIdentitySwizzle_iff. split.
  - rewrite length_seqZ. lia.
  - intros i s Hs. apply lookup_seqZ in Hs as [-> Hi].
    unfold size_t. rewrite Z.mod_small by lia. lia.
Qed.
End Swizzle.

(** C9.  A swizzle that selects all the components of its operand vector in
    their order is skipped: neither visit of the node changes the state of
    the traverser (no instruction, no id, the record of the operand as it
    was), so a load through the record on top of the stack after the node
    is the load of the operand. *)
Theorem visitSwizzle_identity (type : TType) (operand : TIntermNode)
    (t : OutputSPIRVTraverser) :
  hasConstantValue operand = false ->
  mNodeData t <> [] ->
  0 <= getNominalSize (getType operand) < 256 ->
  let node :=
    TIntermSwizzle type operand (seqZ 0 (getNominalSize (getType operand))) in
  visitSwizzle PreVisit node t = Ok (true, t)
  /\ visitSwizzle PostVisit node t = Ok (true, t)
  /\ (_ ← visitSwizzle PostVisit node; loadBack) t = loadBack t.
Proof.
  intros Hc Hne Hn node.
  assert (visitSwizzle PostVisit node t = Ok (true, t)) as Hpost.
  { unfold visitSwizzle, node. simpl. rewrite Hc. simpl.
    unfold mbind at 1, M_bind at 1. simpl.
    unfold mbind at 1, M_bind at 1. simpl.
    unfold mbind at 1, M_bind at 1. simpl.
    unfold mbind at 1, M_bind at 1.
    rewrite bool_decide_eq_true_2
      by (destruct (mNodeData t); [done | simpl; lia]).
    simpl. rewrite Z.mod_small by lia.
    by rewrite isIdentitySwizzle_seqZ. }
  split_and!.
  - unfold visitSwizzle, node. simpl. by rewrite Hc.
  - exact Hpost.
  - exact (bind_Ok _ _ _ _ _ Hpost).
Qed.

Lemma visitSwizzle_identity_witness :
  let operand :=
    TIntermSymbol
      {| getBasicType := EbtFloat; getQualifier := EvqTemporary;
         primarySize := 4; secondarySize := 1; arraySizes := [];
         isStruct := false |}
      {| var_symbol := 1%N;
         var_type :=
           {| getBasicType := EbtFloat; getQualifier := EvqTemporary;
              primarySize := 4; secondarySize := 1; arraySizes := [];
              isStruct := false |} |}
      false in
  let t := {| mBuilder := builder0; mNodeData := [v_zx];
              mSymbolIdMap := ∅; mIsSymbolBeingDeclared := false;
              mInGlobalScope := false |} in
  visitSwizzle PostVisit (TIntermSwizzle (getType operand) operand [0; 1; 2; 3]) t
  = Ok (true, t).
Proof.
  intros operand t.
  refine (proj1 (proj2 (visitSwizzle_identity (getType operand) operand t
                          _ _ _))).
  - reflexivity.
  - discriminate.
  - simpl. lia.
Defined.

(** ** Matrix constructors *)

(** C3.  [mat3(m)] with [m] a [mat2] takes the identity-overlay branch.
    The specification asks for the columns
    [(m00, m01, 0)], [(m10, m11, 0)], [(0, 0, 1)].  The generator instead
    puts the constant one off the diagonal and zero on it, and extracts
    rows 0 and 1 of a column 2 the parameter does not have: it builds
    [(m00, m01, 1)], [(m10, m11, 1)], [(m20, m21, 0)]. *)
Theorem createConstructorMatrixFromMatrix_mat3_of_mat2 :
  exists result b',
    createConstructorMatrixFromMatrix mat3_of_mat2 2%N [7%N] builder0
    = Ok (result, b')
    /\ columnsBuilt b' 7%N result
       = Some [[Some (FromParameter 0 0); Some (FromParameter 0 1);
                Some (Constant (FloatValue 1))];
               [Some (FromParameter 1 0); Some (FromParameter 1 1);
                Some (Constant (FloatValue 1))];
               [Some (FromParameter 2 0); Some (FromParameter 2 1);
                Some (Constant (FloatValue 0))]]
    /\ overlayMatrix EbtFloat 3 3 2 2
       = [[Some (FromParameter 0 0); Some (FromParameter 0 1);
           Some (Constant (FloatValue 0))];
          [Some (FromParameter 1 0); Some (FromParameter 1 1);
           Some (Constant (FloatValue 0))];
          [Some (Constant (FloatValue 0)); Some (Constant (FloatValue 0));
           Some (Constant (FloatValue 1))]]
    /\ columnsBuilt b' 7%N result <> Some (overlayMatrix EbtFloat 3 3 2 2).
Proof.
  eexists _, _. split; [vm_compute; reflexivity |].
  split; [vm_compute; reflexivity |].
  split; [vm_compute; reflexivity |].
  vm_compute. discriminate.
Qed.

(** C6.  [mat3x2(s)]: three columns of two rows.  The list of components has
    two entries, and the generator writes the scalar at index 2 of it for
    the third column: the construction stops on the bounds check instead of
    emitting a third, all-zero column and the matrix. *)
Theorem createConstructorMatrixFromScalar_mat3x2 :
  createConstructorMatrixFromScalar mat3x2_of_scalar 2%N [7%N] builder0
  = Err IndexOutOfRange.
Proof. vm_compute. reflexivity. Qed.

(** For comparison, [mat3(s)] comes out as the specification describes. *)
Example createConstructorMatrixFromScalar_mat3 :
  exists zero column result b',
    createConstructorMatrixFromScalar mat3_of_scalar 2%N [7%N] builder0
    = Ok (result, b')
    /\ constantOf (mSpirvTypeAndConstantDecls b') zero = Some (FloatValue 0)
    /\ currentBody b'
       = [OpCompositeConstruct column 13%N [7%N; zero; zero];
          OpCompositeConstruct column 14%N [zero; 7%N; zero];
          OpCompositeConstruct column 15%N [zero; zero; 7%N];
          OpCompositeConstruct 2%N result [13%N; 14%N; 15%N]].
Proof.
  exists 11%N, 12%N. eexists _, _. split; [vm_compute; reflexivity |].
  split; vm_compute; reflexivity.
Qed.

Lemma wp_at_index {S A} (l : list A) (i : nat) (x : A) (s : S) Q :
  l !! i = Some x -> Q x s -> wp (at_index l i) s Q.
Proof. intros Hl HQ. unfold at_index. rewrite Hl. by apply wp_ret. Qed.

Lemma wp_set_index {S A} (l : list A) (i : nat) (x : A) (s : S) Q :
  (i < length l)%nat -> Q (<[i := x]> l) s -> wp (set_index l i x) s Q.
Proof.
  intros Hi HQ. unfold set_index. rewrite bool_decide_eq_true_2 by done.
  by apply wp_ret.
Qed.

Section MatrixFromScalar.
Implicit Types (b : SPIRVBuilder).

Lemma getFloatConstant_spec (v : Z) b Q :
  (forall r b', emits b b' [] -> Q r b') -> wp (getFloatConstant v) b Q.
Proof.
  intros HQ. unfold getFloatConstant. wp_seq. wp_step.
  destruct (mFloatConstants b !! v) as [r|].
  - wp_step. apply HQ, emits_refl.
  - wp_seq. apply getSpirvTypeData_spec. intros ty b1 H1 _ _.
    wp_seq. apply getNewId_spec. intros b2 H2 _ _.
    wp_seq. wp_step. wp_seq. wp_step. wp_step. apply HQ.
    eapply emits_nil_r; [exact H1 |]. eapply emits_nil_r; [exact H2 |].
    apply emits_same_blocks; simpl; [done | lia | done].
Qed.

Lemma getIntConstant_spec (v : Z) b Q :
  (forall r b', emits b b' [] -> Q r b') -> wp (getIntConstant v) b Q.
Proof.
  intros HQ. unfold getIntConstant. wp_seq. wp_step.
  destruct (mIntConstants b !! v) as [r|].
  - wp_step. apply HQ, emits_refl.
  - wp_seq. apply getSpirvTypeData_spec. intros ty b1 H1 _ _.
    wp_seq. apply getNewId_spec. intros b2 H2 _ _.
    wp_seq. wp_step. wp_seq. wp_step. wp_step. apply HQ.
    eapply emits_nil_r; [exact H1 |]. eapply emits_nil_r; [exact H2 |].
    apply emits_same_blocks; simpl; [done | lia | done].
Qed.

Lemma getBoolConstant_spec (v : bool) b Q :
  (forall r b', emits b b' [] -> Q r b') -> wp (getBoolConstant v) b Q.
Proof.
  intros HQ. unfold getBoolConstant. wp_seq. wp_step.
  destruct (mBoolConstants b !! v) as [r|].
  - wp_step. apply HQ, emits_refl.
  - wp_seq. apply getSpirvTypeData_spec. intros ty b1 H1 _ _.
    wp_seq. apply getNewId_spec. intros b2 H2 _ _.
    wp_seq. wp_step. wp_seq. wp_step. wp_step. apply HQ.
    eapply emits_nil_r; [exact H1 |]. eapply emits_nil_r; [exact H2 |].
    apply emits_same_blocks; simpl; [done | lia | done].
Qed.

Lemma getZeroConstant_spec (basicType : TBasicType) b Q :
  basicType = EbtFloat \/ basicType = EbtInt \/ basicType = EbtUInt
  \/ basicType = EbtBool ->
  (forall zeroId b', emits b b' [] ->
                     getZeroConstant basicType b = Ok (zeroId, b') ->
                     Q zeroId b') ->
  wp (getZeroConstant basicType) b Q.
Proof.
  intros Hbt HQ. apply wp_strengthen.
  destruct Hbt as [-> | [-> | [-> | ->]]]; simpl.
  - apply getFloatConstant_spec. intros r b' He Hrun. by apply HQ.
  - apply getIntConstant_spec. intros r b' He Hrun. by apply HQ.
  - apply getUintConstant_spec. intros r b' He _ Hrun. by apply HQ.
  - apply getBoolConstant_spec. intros r b' He Hrun. by apply HQ.
Qed.

(** A column of the diagonal matrix: zero everywhere but [scalar] in row
    [column]. *)
Lemma diagonal_column_step (rows j : nat) (zero scalar : IdRef) :
  (S j < rows)%nat ->
  <[j := zero]> (<[S j := scalar]> (<[j := scalar]> (replicate rows zero)))
  = <[S j := scalar]> (replicate rows zero).
Proof.
  intros Hj. rewrite list_insert_insert_ne by lia.
  rewrite list_insert_insert_eq.
  f_equal. apply list_insert_id. apply lookup_replicate_2. lia.
Qed.

(** The first [n] columns of the diagonal matrix, for [n] no more than the
    number of rows. *)
Lemma matrixFromScalar_loop_spec (rows : nat) (n : Z)
    (columnTypeId scalarId zeroId : IdRef) b Q :
  isOpen b = true ->
  (Z.to_nat n <= rows)%nat ->
  (forall componentIds columnIds b',
      length columnIds = Z.to_nat n ->
      length componentIds = rows ->
      emits b b'
        (imap (fun j columnId =>
                 OpCompositeConstruct columnTypeId columnId
                   (<[j := scalarId]> (replicate rows zeroId)))
           columnIds) ->
      Q (componentIds, columnIds) b') ->
  wp (foldM (fun '(componentIds, columnIds) columnIndex =>
               columnId ← getNewId;
               let columnIds := columnIds ++ [columnId] in
               componentIds ←
                 set_index componentIds (Z.to_nat columnIndex) scalarId;
               componentIds ←
                 (if 0 <? columnIndex
                  then set_index componentIds (Z.to_nat (columnIndex - 1))
                         zeroId
                  else mret componentIds);
               _ ← write (OpCompositeConstruct columnTypeId columnId
                            componentIds);
               mret (componentIds, columnIds))
        (upto n) (replicate rows zeroId, [])) b Q.
Proof.
  intros Hopen Hn HQ.
  set (column := fun (j : nat) (columnId : IdRef) =>
         OpCompositeConstruct columnTypeId columnId
           (<[j := scalarId]> (replicate rows zeroId))).
  eapply wp_mono.
  - apply (wp_foldM_at _ (upto n)
             (fun done (acc : list IdRef * list IdRef) b' =>
                length acc.2 = length done
                /\ acc.1 = match length done with
                           | O => replicate rows zeroId
                           | S j => <[j := scalarId]> (replicate rows zeroId)
                           end
                /\ emits b b' (imap column acc.2))
             (upto n) []); [done | |].
    + split_and!; [done | done | apply emits_refl].
    + intros done x rest [componentIds columnIds] b2 Hw (Hlen & Hcomp & He).
      simpl in Hlen, Hcomp, He.
      assert (x = Z.of_nat (length done) /\ Z.of_nat (length done) < n)
        as [-> Hx].
      { assert (upto n !! length done = Some x) as Hl
          by (rewrite Hw; by apply list_lookup_middle).
        unfold upto in Hl. apply lookup_seqZ in Hl as [-> ?]. lia. }
      wp_seq. apply getNewId_spec. intros b3 H3 _ _.
      wp_seq. rewrite Nat2Z.id.
      assert (length componentIds = rows) as Hcl.
      { rewrite Hcomp. destruct (length done);
          by rewrite ?length_insert, length_replicate. }
      apply wp_set_index; [lia |].
      wp_seq.
      assert (isOpen b3 = true) as Hopen3.
      { eapply emits_isOpen; [exact H3 |]. by eapply emits_isOpen. }
      assert (forall comps,
        comps = <[length done := scalarId]> (replicate rows zeroId) ->
        wp (_ ← write (OpCompositeConstruct columnTypeId (mNextAvailableId b2)
                         comps);
            mret (comps, columnIds ++ [mNextAvailableId b2])) b3
          (fun acc b' =>
             length acc.2 = length (done ++ [Z.of_nat (length done)])
             /\ acc.1 = match length (done ++ [Z.of_nat (length done)]) with
                        | O => replicate rows zeroId
                        | S j => <[j := scalarId]> (replicate rows zeroId)
                        end
             /\ emits b b' (imap column acc.2))) as Hwrite.
      { intros comps ->. wp_seq. apply write_spec; [done |].
        intros b4 H4. wp_step. simpl.
        rewrite !length_app. simpl length. rewrite !Nat.add_1_r.
        split_and!; [lia | done |].
        rewrite imap_app. simpl. rewrite Hlen, Nat.add_0_r.
        eapply emits_trans; [exact He |]. by eapply emits_nil_l. }
      destruct (length done) as [|j] eqn:Ej.
      * simpl. wp_step. apply Hwrite. by rewrite Hcomp.
      * rewrite (proj2 (Z.ltb_lt 0 (Z.of_nat (S j)))) by lia.
        replace (Z.to_nat (Z.of_nat (S j) - 1)) with j by lia.
        apply wp_set_index; [rewrite length_insert; lia |].
        apply Hwrite. rewrite Hcomp.
        apply diagonal_column_step. lia.
  - intros [componentIds columnIds] b2 (Hlen & Hcomp & He). simpl in *.
    apply HQ; [| | done].
    + rewrite Hlen. unfold upto. by rewrite length_seqZ.
    + rewrite Hcomp. destruct (length (upto n));
        by rewrite ?length_insert, length_replicate.
Qed.

(** X14.  With no more columns than rows [createConstructorMatrixFromScalar]
    emits one [OpCompositeConstruct] per column, holding the scalar on the
    diagonal and the zero constant elsewhere, then the [OpCompositeConstruct]
    of the columns. *)
Lemma createConstructorMatrixFromScalar_diagonal (node : TIntermNode)
    (typeId scalarId : IdRef) b :
  let type := getType node in
  getBasicType type = EbtFloat \/ getBasicType type = EbtInt
  \/ getBasicType type = EbtUInt \/ getBasicType type = EbtBool ->
  0 <= getCols type <= getRows type ->
  isOpen b = true ->
  wp (createConstructorMatrixFromScalar node typeId [scalarId]) b
    (fun result b' =>
       exists zeroId b0 columnTypeId columnIds,
         getZeroConstant (getBasicType type) b = Ok (zeroId, b0)
         /\ length columnIds = Z.to_nat (getCols type)
         /\ emits b b'
              (imap (fun j columnId =>
                       OpCompositeConstruct columnTypeId columnId
                         (<[j := scalarId]>
                            (replicate (Z.to_nat (getRows type)) zeroId)))
                 columnIds
               ++ [OpCompositeConstruct typeId result columnIds])).
Proof.
  intros type Hbt Hsize Hopen. unfold createConstructorMatrixFromScalar.
  fold type.
  wp_seq. eapply wp_at_index; [done |].
  wp_seq. apply getZeroConstant_spec; [done |]. intros zeroId b0 H0 Hzero.
  wp_seq. apply getSpirvTypeData_spec. intros columnTypeId b1 H1 _ _.
  pose proof (emits_nil_r _ _ _ _ H0 H1) as H01.
  assert (isOpen b1 = true) as Hopen1 by (by eapply emits_isOpen).
  wp_seq. apply matrixFromScalar_loop_spec; [done | lia |].
  intros componentIds columnIds b2 Hlen _ He.
  wp_seq. apply getNewId_spec. intros b3 H3 _ _.
  wp_seq. apply write_spec.
  { eapply emits_isOpen; [exact H3 |]. by eapply emits_isOpen. }
  intros b4 H4. wp_step.
  exists zeroId, b0, columnTypeId, columnIds. split_and!; [done | done |].
  eapply emits_nil_l; [exact H01 |].
  eapply emits_trans; [exact He |]. by eapply emits_nil_l.
Qed.
End MatrixFromScalar.

(** ** The traverser *)

Section Traverser.
Implicit Types (t : OutputSPIRVTraverser) (b : SPIRVBuilder).

Lemma wp_onBuilder {A} (m : M SPIRVBuilder A) t Q :
  wp m (mBuilder t) (fun a b' => Q a (with_mBuilder (fun _ => b') t)) ->
  wp (onBuilder m) t Q.
Proof.
  intros (a & b' & Hm & HQ). exists a, (with_mBuilder (fun _ => b') t).
  split; [| done]. unfold onBuilder. by rewrite Hm.
Qed.

Lemma wp_paramSlot (parameterCount paramIndex : nat) t Q :
  (parameterCount <= length (mNodeData t))%nat ->
  Q (length (mNodeData t) - parameterCount + paramIndex)%nat t ->
  wp (paramSlot parameterCount paramIndex) t Q.
Proof.
  intros Hle HQ. unfold paramSlot. wp_step. wp_step.
  rewrite bool_decide_eq_true_2 by done. by wp_step.
Qed.

Lemma wp_onNodeData {A} (slot : nat)
    (f : NodeData -> M SPIRVBuilder (A * NodeData)) t data Q :
  mNodeData t !! slot = Some data ->
  wp (f data) (mBuilder t)
    (fun res b' =>
       Q res.1 (with_mNodeData <[slot := res.2]>
                  (with_mBuilder (fun _ => b') t))) ->
  wp (onNodeData slot f) t Q.
Proof.
  intros Hslot Hf. unfold onNodeData. wp_step. wp_step.
  wp_step. eapply wp_at_index; [done |].
  wp_step. apply wp_onBuilder. eapply wp_mono; [exact Hf |].
  intros [a data'] b' HQ. simpl in *. wp_step. wp_step. by wp_step.
Qed.
End Traverser.

(** ** Atomic built-ins *)

Section Atomic.
Implicit Types (t : OutputSPIRVTraverser) (b : SPIRVBuilder).

(** The part common to all atomic built-ins: the pointer, the loaded
    values, the two constants and the result id. *)
Lemma atomic_head_spec {A} (stack : list NodeData) (d0 d1 : NodeData) t
    (k : IdRef -> list IdRef -> IdRef -> IdRef -> IdRef
         -> M OutputSPIRVTraverser A) Q :
  mNodeData t = stack ++ [d0; d1] ->
  isOpen (mBuilder t) = true ->
  IsAccessChainRValue (accessChain d0) = false ->
  load_invariants d1 ->
  (forall ptr insC value insL b1 b2 d1' scopeId semId t',
      collapse_table d0 (mBuilder t') ptr insC ->
      emits (mBuilder t) b1 insC ->
      loads d1 b1 (mBuilder t') value d1' insL ->
      emits b1 b2 insL ->
      emits b2 (mBuilder t') [] ->
      mUintConstants (mBuilder t') !! ScopeDevice = Some scopeId ->
      mUintConstants (mBuilder t') !! MemorySemanticsMaskNone = Some semId ->
      wp (k ptr [value] scopeId semId (mNextAvailableId (mBuilder t')))
        (with_mBuilder (with_mNextAvailableId N.succ) t') Q) ->
  wp (slot0 ← paramSlot 2 0;
      pointerId ← onNodeData slot0 accessChainCollapse;
      parameters ←
        foldM (fun parameters paramIndex =>
                 slot ← paramSlot 2 paramIndex;
                 value ← onNodeData slot accessChainLoad;
                 mret (parameters ++ [value]))
          (seq 1 (2 - 1)) [];
      scopeId ← onBuilder (getUintConstant ScopeDevice);
      semanticsId ← onBuilder (getUintConstant MemorySemanticsMaskNone);
      result ← onBuilder getNewId;
      k pointerId parameters scopeId semanticsId result) t Q.
Proof.
  intros Hst Hopen Hl Hinv HQ.
  destruct t as [b nd sym sb gs]. simpl in *. subst nd.
  assert (length (stack ++ [d0; d1]) = length stack + 2)%nat as Hlen
    by (rewrite length_app; simpl; lia).
  wp_step. apply wp_paramSlot; [simpl; lia |]. simpl. rewrite Hlen.
  replace (length stack + 2 - 2 + 0)%nat with (length stack) by lia.
  wp_step. eapply wp_onNodeData; [by apply list_lookup_middle |].
  apply accessChainCollapse_spec; [done | done |].
  intros ptr b1 insC H1 Hct. simpl.
  wp_step. simpl. wp_step. wp_step.
  apply wp_paramSlot; [simpl; rewrite length_insert; lia |].
  simpl. rewrite length_insert, Hlen.
  replace (length stack + 2 - 2 + 1)%nat with (S (length stack)) by lia.
  wp_step. eapply wp_onNodeData.
  { simpl. rewrite list_lookup_insert_ne by lia.
    rewrite lookup_app_r by lia.
    by replace (S (length stack) - length stack)%nat with 1%nat by lia. }
  simpl. apply accessChainLoad_spec; [by eapply emits_isOpen | done |].
  intros value d1' b2 insL Hloads H2. simpl.
  wp_step. wp_step.
  wp_step. apply wp_onBuilder. simpl.
  apply getUintConstant_spec. intros scopeId b3 H3 Hscope.
  wp_step. apply wp_onBuilder. simpl.
  apply getUintConstant_spec. intros semId b4 H4 Hsem.
  wp_step. apply wp_onBuilder. simpl.
  eexists _, _. split; [reflexivity |].
  pose proof (emits_nil_r _ _ _ _ H3 H4) as H34.
  match goal with
  | |- wp _ (with_mBuilder _ ?t0) _ =>
      pose proof (HQ ptr insC value insL b1 b2 d1' scopeId semId t0) as HQ'
  end.
  simpl in HQ', H1. apply HQ'; clear HQ' HQ.
  - eapply collapse_table_weaken; [| exact Hct].
    exact (emits_trans _ _ _ _ _ H2 H34).
  - exact H1.
  - eapply loads_weaken; [exact H34 | exact Hloads].
  - exact H2.
  - exact H34.
  - eapply emits_uint; [exact H4 | exact Hscope].
  - exact Hsem.
Qed.

(** Writing the instruction of a one-value atomic built-in. *)
Lemma atomic_finish_spec (w : IdRef -> IdRef -> IdRef -> IdRef -> IdRef
                              -> IdRef -> Instruction)
    (resultTypeId result ptr scopeId semId value : IdRef) t Q :
  isOpen (mBuilder t) = true ->
  (forall b', emits (mBuilder t) b'
                [w resultTypeId result ptr scopeId semId value] ->
              Q result (with_mBuilder (fun _ => b') t)) ->
  wp (_ ← ASSERT (bool_decide (length [value] = 1%nat))
            Assert_parameters_size;
      parameter0 ← at_index [value] 0;
      _ ← onBuilder (write (w resultTypeId result ptr scopeId semId
                              parameter0));
      mret result) t Q.
Proof.
  intros Hopen HQ. wp_step. apply wp_ASSERT; [done |].
  wp_step. eapply wp_at_index; [done |].
  wp_step. apply wp_onBuilder, write_spec; [done |].
  intros b' Hb. wp_step. by apply HQ.
Qed.

(** The same for the three arguments of [atomicCompSwap]. *)
Lemma atomic_head3_spec {A} (stack : list NodeData) (d0 d1 d2 : NodeData) t
    (k : IdRef -> list IdRef -> IdRef -> IdRef -> IdRef
         -> M OutputSPIRVTraverser A) Q :
  mNodeData t = stack ++ [d0; d1; d2] ->
  isOpen (mBuilder t) = true ->
  IsAccessChainRValue (accessChain d0) = false ->
  load_invariants d1 ->
  load_invariants d2 ->
  (forall ptr insC value1 insL1 value2 insL2 b1 b2 b3 d1' d2' scopeId semId t',
      collapse_table d0 (mBuilder t') ptr insC ->
      emits (mBuilder t) b1 insC ->
      loads d1 b1 (mBuilder t') value1 d1' insL1 ->
      emits b1 b2 insL1 ->
      loads d2 b2 (mBuilder t') value2 d2' insL2 ->
      emits b2 b3 insL2 ->
      emits b3 (mBuilder t') [] ->
      mUintConstants (mBuilder t') !! ScopeDevice = Some scopeId ->
      mUintConstants (mBuilder t') !! MemorySemanticsMaskNone = Some semId ->
      wp (k ptr [value1; value2] scopeId semId
            (mNextAvailableId (mBuilder t')))
        (with_mBuilder (with_mNextAvailableId N.succ) t') Q) ->
  wp (slot0 ← paramSlot 3 0;
      pointerId ← onNodeData slot0 accessChainCollapse;
      parameters ←
        foldM (fun parameters paramIndex =>
                 slot ← paramSlot 3 paramIndex;
                 value ← onNodeData slot accessChainLoad;
                 mret (parameters ++ [value]))
          (seq 1 (3 - 1)) [];
      scopeId ← onBuilder (getUintConstant ScopeDevice);
      semanticsId ← onBuilder (getUintConstant MemorySemanticsMaskNone);
      result ← onBuilder getNewId;
      k pointerId parameters scopeId semanticsId result) t Q.
Proof.
  intros Hst Hopen Hl Hinv1 Hinv2 HQ.
  destruct t as [b nd sym sb gs]. simpl in *. subst nd.
  assert (length (stack ++ [d0; d1; d2]) = length stack + 3)%nat as Hlen
    by (rewrite length_app; simpl; lia).
  wp_step. apply wp_paramSlot; [simpl; lia |]. simpl. rewrite Hlen.
  replace (length stack + 3 - 3 + 0)%nat with (length stack) by lia.
  wp_step. eapply wp_onNodeData; [by apply list_lookup_middle |].
  apply accessChainCollapse_spec; [done | done |].
  intros ptr b1 insC H1 Hct. simpl.
  wp_step. simpl. wp_step. wp_step.
  apply wp_paramSlot; [simpl; rewrite length_insert; lia |].
  simpl. rewrite length_insert, Hlen.
  replace (length stack + 3 - 3 + 1)%nat with (S (length stack)) by lia.
  wp_step. eapply wp_onNodeData.
  { simpl. rewrite list_lookup_insert_ne by lia.
    rewrite lookup_app_r by lia.
    by replace (S (length stack) - length stack)%nat with 1%nat by lia. }
  simpl. apply accessChainLoad_spec; [by eapply emits_isOpen | done |].
  intros value1 d1' b2 insL1 Hloads1 H2. simpl.
  wp_step. wp_step. wp_step.
  apply wp_paramSlot; [simpl; rewrite !length_insert; lia |].
  simpl. rewrite !length_insert, Hlen.
  replace (length stack + 3 - 3 + 2)%nat with (S (S (length stack))) by lia.
  wp_step. eapply wp_onNodeData.
  { simpl. rewrite !list_lookup_insert_ne by lia.
    rewrite lookup_app_r by lia.
    by replace (S (S (length stack)) - length stack)%nat with 2%nat by lia. }
  simpl. apply accessChainLoad_spec;
    [by do 2 (eapply emits_isOpen; [eassumption |]) | done |].
  intros value2 d2' b3 insL2 Hloads2 H3. simpl.
  wp_step. wp_step.
  wp_step. apply wp_onBuilder. simpl.
  apply getUintConstant_spec. intros scopeId b4 H4 Hscope.
  wp_step. apply wp_onBuilder. simpl.
  apply getUintConstant_spec. intros semId b5 H5 Hsem.
  wp_step. apply wp_onBuilder. simpl.
  eexists _, _. split; [reflexivity |].
  pose proof (emits_nil_r _ _ _ _ H4 H5) as H45.
  match goal with
  | |- wp _ (with_mBuilder _ ?t0) _ =>
      pose proof (HQ ptr insC value1 insL1 value2 insL2 b1 b2 b3 d1' d2'
                    scopeId semId t0) as HQ'
  end.
  simpl in HQ', H1. apply HQ'; clear HQ' HQ.
  - eapply collapse_table_weaken; [| exact Hct].
    exact (emits_trans _ _ _ _ _ H2 (emits_trans _ _ _ _ _ H3 H45)).
  - exact H1.
  - eapply loads_weaken; [| exact Hloads1].
    exact (emits_trans _ _ _ _ _ H3 H45).
  - exact H2.
  - eapply loads_weaken; [exact H45 | exact Hloads2].
  - exact H3.
  - exact H45.
  - eapply emits_uint; [exact H5 | exact Hscope].
  - exact Hsem.
Qed.
End Atomic.

(** C5.  An atomic built-in takes the pointer its first argument collapses
    to and the loaded values of the others; its scope operand is the uint
    constant Device and its memory semantics the uint constant Relaxed;
    [atomicMin] and [atomicMax] take the unsigned instruction exactly when
    the first argument has basic type uint; [atomicCompSwap] emits
    [OpAtomicCompareExchange] with the third source argument as value and
    the second as comparator. *)
Theorem createAtomicBuiltIn_operands :
  (forall op type function arg0 arg1 resultTypeId stack d0 d1
          (t : OutputSPIRVTraverser) writeAtomicOp,
     atomicInstruction op
       (bool_decide (getBasicType (getType arg0) = EbtUInt))
     = Some writeAtomicOp ->
     mNodeData t = stack ++ [d0; d1] ->
     isOpen (mBuilder t) = true ->
     IsAccessChainRValue (accessChain d0) = false ->
     load_invariants d1 ->
     wp (createAtomicBuiltIn
           (TIntermAggregate op type function [arg0; arg1]) resultTypeId) t
       (fun result t' =>
          exists ptr insC value insL b1 d1' scopeId semId,
            collapse_table d0 (mBuilder t') ptr insC
            /\ loads d1 b1 (mBuilder t') value d1' insL
            /\ mUintConstants (mBuilder t') !! ScopeDevice = Some scopeId
            /\ mUintConstants (mBuilder t') !! MemorySemanticsMaskNone
               = Some semId
            /\ emits (mBuilder t) (mBuilder t')
                 (insC ++ insL ++
                  [writeAtomicOp resultTypeId result ptr scopeId semId
                     value])))
  /\ (forall type function arg0 arg1 arg2 resultTypeId stack d0 d1 d2
             (t : OutputSPIRVTraverser),
        mNodeData t = stack ++ [d0; d1; d2] ->
        isOpen (mBuilder t) = true ->
        IsAccessChainRValue (accessChain d0) = false ->
        load_invariants d1 ->
        load_invariants d2 ->
        wp (createAtomicBuiltIn
              (TIntermAggregate EOpAtomicCompSwap type function
                 [arg0; arg1; arg2]) resultTypeId) t
          (fun result t' =>
             exists ptr insC comparator insL1 value insL2 b1 b2 d1' d2'
                    scopeId semId,
               collapse_table d0 (mBuilder t') ptr insC
               /\ loads d1 b1 (mBuilder t') comparator d1' insL1
               /\ loads d2 b2 (mBuilder t') value d2' insL2
               /\ mUintConstants (mBuilder t') !! ScopeDevice = Some scopeId
               /\ mUintConstants (mBuilder t') !! MemorySemanticsMaskNone
                  = Some semId
               /\ emits (mBuilder t) (mBuilder t')
                    (insC ++ insL1 ++ insL2 ++
                     [OpAtomicCompareExchange resultTypeId result ptr scopeId
                        semId semId value comparator]))).
Proof.
  split.
  - intros op type function arg0 arg1 resultTypeId stack d0 d1 t w Hop Hst
      Hopen Hl Hinv.
    unfold createAtomicBuiltIn.
    change (getChildCount (TIntermAggregate op type function [arg0; arg1]))
      with 2%nat.
    cbv zeta. wp_step. apply wp_ASSERT; [done |].
    eapply (atomic_head_spec stack d0 d1 t); try done.
    intros ptr insC value insL b1 b2 d1' scopeId semId t' Hct H1 Hl1 H2 H3
      Hscope Hsem.
    simpl. wp_step. wp_step.
    assert (isOpen (mBuilder t') = true) as Hopen'
      by (by do 3 (eapply emits_isOpen; [eassumption |])).
    assert (Hfin : forall b',
      emits (mBuilder t') b'
        [w resultTypeId (mNextAvailableId (mBuilder t')) ptr scopeId semId
           value] ->
      exists ptr0 insC0 value0 insL0 b10 d1'0 scopeId0 semId0,
        collapse_table d0 b' ptr0 insC0
        /\ loads d1 b10 b' value0 d1'0 insL0
        /\ mUintConstants b' !! ScopeDevice = Some scopeId0
        /\ mUintConstants b' !! MemorySemanticsMaskNone = Some semId0
        /\ emits (mBuilder t) b'
             (insC0 ++ insL0 ++
              [w resultTypeId (mNextAvailableId (mBuilder t')) ptr0 scopeId0
                 semId0 value0])).
    { intros b' Hb.
      exists ptr, insC, value, insL, b1, d1', scopeId, semId. split_and!.
      - by eapply collapse_table_weaken.
      - by eapply loads_weaken.
      - by eapply emits_uint.
      - by eapply emits_uint.
      - eapply emits_trans; [exact H1 |].
        eapply emits_trans; [exact H2 |]. by eapply emits_nil_l. }
    destruct op; simpl in Hop; try discriminate; injection Hop as <-;
      (eapply (atomic_finish_spec _ _ _ _ _ _ _
                 (with_mBuilder (with_mNextAvailableId N.succ) t'));
       [done | intros b' Hb; simpl; apply Hfin;
               eapply emits_nil_l; [apply emits_getNewId | exact Hb]]).
  - intros type function arg0 arg1 arg2 resultTypeId stack d0 d1 d2 t Hst
      Hopen Hl Hinv1 Hinv2.
    unfold createAtomicBuiltIn.
    change (getChildCount
              (TIntermAggregate EOpAtomicCompSwap type function
                 [arg0; arg1; arg2])) with 3%nat.
    cbv zeta. wp_step. apply wp_ASSERT; [done |].
    eapply (atomic_head3_spec stack d0 d1 d2 t); try done.
    intros ptr insC value1 insL1 value2 insL2 b1 b2 b3 d1' d2' scopeId semId
      t' Hct H1 Hl1 H2 Hl2 H3 H4 Hscope Hsem.
    simpl. wp_step. wp_step.
    assert (isOpen (mBuilder t') = true) as Hopen'
      by (by do 4 (eapply emits_isOpen; [eassumption |])).
    wp_step. apply wp_ASSERT; [done |].
    wp_step. eapply wp_at_index; [done |].
    wp_step. eapply wp_at_index; [done |].
    wp_step. apply wp_onBuilder, write_spec; [done |].
    intros b' Hb. wp_step. simpl in *.
    assert (emits (mBuilder t') b'
              [OpAtomicCompareExchange resultTypeId
                 (mNextAvailableId (mBuilder t')) ptr scopeId semId semId
                 value2 value1]) as Hb'
      by (eapply emits_nil_l; [apply emits_getNewId | exact Hb]).
    exists ptr, insC, value1, insL1, value2, insL2, b1, b2, d1', d2', scopeId,
      semId.
    split_and!.
    + by eapply collapse_table_weaken.
    + by eapply loads_weaken.
    + by eapply loads_weaken.
    + by eapply emits_uint.
    + by eapply emits_uint.
    + eapply emits_trans; [exact H1 |].
      eapply emits_trans; [exact H2 |].
      eapply emits_trans; [exact H3 |]. by eapply emits_nil_l.
Qed.

Lemma createAtomicBuiltIn_operands_witness :
  exists result t',
    createAtomicBuiltIn call_atomicCompSwap 1%N traverser_atomicCompSwap
    = Ok (result, t').
Proof.
  destruct (proj2 createAtomicBuiltIn_operands (uintOf EvqTemporary) None
              (symbolOf (uintOf EvqTemporary))
              (symbolOf (uintOf EvqTemporary))
              (symbolOf (uintOf EvqTemporary)) 1%N [NodeData_default]
              (nodeDataInitLValue 5%N 1%N StorageClassUniform EbsStd140)
              (nodeDataInitRValue 7%N 1%N) (nodeDataInitRValue 8%N 1%N)
              traverser_atomicCompSwap)
    as (result & t' & Hrun & _).
  - reflexivity.
  - reflexivity.
  - reflexivity.
  - constructor; simpl; intros; done.
  - constructor; simpl; intros; done.
  - by exists result, t'.
Defined.

(** ** Function calls *)

Section Call.
Implicit Types (t : OutputSPIRVTraverser) (b : SPIRVBuilder).


End Call.

Section CallLoops.
Implicit Types (t : OutputSPIRVTraverser) (b : SPIRVBuilder).






End CallLoops.

Section CallCopyBack.
Implicit Types (t : OutputSPIRVTraverser) (b : SPIRVBuilder).


End CallCopyBack.

Section CallWhole.
Implicit Types (t : OutputSPIRVTraverser) (b : SPIRVBuilder).







End CallWhole.

Section CallWhole2.
Implicit Types (t : OutputSPIRVTraverser) (b : SPIRVBuilder).




End CallWhole2.





(** ** The stack of node data *)

Section Stack.
Implicit Types (t : OutputSPIRVTraverser).

Lemma pop_back_snoc t (stack : list NodeData) (data : NodeData) Q :
  mNodeData t = stack ++ [data] ->
  Q tt (with_mNodeData (fun _ => stack) t) ->
  wp pop_back t Q.
Proof.
  intros Hst HQ. unfold pop_back. wp_seq. wp_step.
  rewrite bool_decide_eq_false_2
    by (rewrite Hst; by destruct stack).
  wp_step. unfold with_mNodeData in *. rewrite Hst.
  rewrite length_app. simpl.
  replace (length stack + 1 - 1)%nat with (length stack) by lia.
  by rewrite take_app_length.
Qed.

Lemma pop_back_empty t :
  mNodeData t = [] -> pop_back t = Err PopEmptyStack.
Proof.
  intros Hst. unfold pop_back, mbind, M_bind, get. by rewrite Hst.
Qed.

Lemma with_mNodeData_id t : with_mNodeData (fun _ => mNodeData t) t = t.
Proof. by destruct t. Qed.

(** The loop over the statements of a block below the root: every
    statement but the last is followed by the pop of the in-visit. *)
Lemma block_loop_spec (P : OutputSPIRVTraverser -> Prop) (depth count : nat)
    (node : TIntermNode) :
  depth <> 0%nat -> stackBlind P ->
  forall (rest : list TIntermNode) (k : nat) t,
    P t ->
    (k + length rest = count)%nat ->
    rest <> [] ->
    Forall (leavesOneRecord P (S depth)) rest ->
    wp (foldM (fun (v : bool) '(childIndex, child) =>
                 if v then
                   _ ← child;
                   if bool_decide (childIndex <> count - 1)%nat
                   then visitBlock InVisit depth node
                   else mret v
                 else mret v)
          (imap (fun childIndex child => ((k + childIndex)%nat, child))
             (map (traverse (S depth)) rest)) true) t
      (fun v t' => v = true /\ P t'
                   /\ exists data, mNodeData t' = mNodeData t ++ [data]).
Proof.
  intros Hdepth Hblind rest.
  induction rest as [|child rest IH]; intros k t HP Hk Hne Hall; [done |].
  apply Forall_cons in Hall as [Hchild Hall]. simpl.
  wp_seq. wp_seq. eapply wp_mono; [by apply Hchild |].
  intros [] t1 [HP1 [data Hst1]].
  destruct rest as [|child' rest].
  - (* the last statement: no in-visit *)
    simpl in Hk. rewrite bool_decide_eq_false_2 by lia.
    wp_step. simpl. wp_step. split_and!; [done | done |]. by exists data.
  - (* a statement followed by another: the in-visit pops its record *)
    simpl in Hk. rewrite bool_decide_eq_true_2 by lia.
    unfold visitBlock at 1. rewrite bool_decide_eq_false_2 by done.
    rewrite bool_decide_eq_false_2 by done.
    wp_seq. eapply pop_back_snoc; [exact Hst1 |]. wp_step.
    assert (imap ((fun childIndex child => ((k + childIndex)%nat, child)) ∘ S)
              (map (traverse (S depth)) (child' :: rest))
            = imap (fun childIndex child => ((S k + childIndex)%nat, child))
                (map (traverse (S depth)) (child' :: rest))) as ->.
    { apply imap_ext. intros i x _. simpl. f_equal. lia. }
    eapply wp_mono.
    + apply (IH (S k)); [by apply Hblind | simpl; lia | discriminate |].
      exact Hall.
    + intros v t2 (Hv & HP2 & data2 & Hst2). simpl in Hst2.
      split_and!; [done | done |]. by exists data2.
Qed.

(** A block below the root whose statements each leave one record leaves
    the stack as it found it. *)
Lemma traverse_block_balanced (P : OutputSPIRVTraverser -> Prop)
    (depth : nat) (sequence : list TIntermNode) t :
  depth <> 0%nat -> stackBlind P -> P t ->
  Forall (leavesOneRecord P (S depth)) sequence ->
  wp (traverse depth (TIntermBlock sequence)) t
    (fun _ t' => P t' /\ mNodeData t' = mNodeData t).
Proof.
  intros Hdepth Hblind HP Hall. simpl. unfold walkChildren.
  wp_seq. unfold visitBlock at 1.
  rewrite bool_decide_eq_false_2 by done. simpl. wp_step.
  destruct sequence as [|child rest].
  { simpl. by wp_step. }
  rewrite bool_decide_eq_true_2 by (simpl; lia).
  wp_seq. rewrite length_map.
  eapply wp_mono.
  - apply (block_loop_spec P depth (length (child :: rest))
             (TIntermBlock (child :: rest)) Hdepth Hblind (child :: rest) 0 t);
      done.
  - intros v t1 (-> & HP1 & data & Hst1). simpl.
    wp_seq. unfold visitBlock.
    rewrite bool_decide_eq_false_2 by done. simpl.
    wp_seq. eapply pop_back_snoc; [exact Hst1 |].
    wp_step. wp_step. split; [by apply Hblind | done].
Qed.

(** X24.  A block that is itself the only statement of a block below the
    root, its own statements each leaving one record, leaves no record; so
    the post-visit of the enclosing block, entered with an empty stack, pops
    from the empty stack. *)
Lemma traverse_nested_block_underflow (P : OutputSPIRVTraverser -> Prop)
    (depth : nat) (inner : list TIntermNode) t :
  depth <> 0%nat -> stackBlind P -> P t ->
  Forall (leavesOneRecord P (S (S depth))) inner ->
  mNodeData t = [] ->
  traverse depth (TIntermBlock [TIntermBlock inner]) t = Err PopEmptyStack.
Proof.
  intros Hdepth Hblind HP Hall Hst.
  destruct (traverse_block_balanced P (S depth) inner t)
    as ([] & t1 & Hrun & HP1 & Hst1); [done | done | done | done |].
  change (traverse depth (TIntermBlock [TIntermBlock inner]))
    with (walkChildren
            (fun visit => visitBlock visit depth
                            (TIntermBlock [TIntermBlock inner]))
            [traverse (S depth) (TIntermBlock inner)]).
  unfold walkChildren.
  unfold mbind at 1, M_bind at 1. unfold visitBlock at 1.
  rewrite bool_decide_eq_false_2 by done. simpl.
  unfold mbind at 1, M_bind at 1.
  unfold mbind at 1, M_bind at 1.
  unfold mbind at 1, M_bind at 1.
  change (walkChildren _ _ t) with (traverse (S depth) (TIntermBlock inner) t).
  rewrite Hrun. simpl. unfold visitBlock.
  rewrite bool_decide_eq_false_2 by done. simpl.
  unfold mbind at 1, M_bind at 1.
  unfold mbind at 1, M_bind at 1.
  rewrite pop_back_empty; [done | by rewrite Hst1].
Qed.
End Stack.

(** C10.  [void main() { return; }] is walked with a balanced stack and gives
    the function; [void main() { { return; } }] is not: the inner block pops
    the record of [return] itself and leaves none, and the post-visit of
    the body then pops an empty stack, so the walk does not reach the end
    with an empty stack. *)
Theorem OutputSPIRV_nested_block_unbalanced :
  OutputSPIRV program_return
  = Ok [OpFunction 1%N 3%N 2%N; OpLabel 4%N; OpReturn; OpFunctionEnd]
  /\ OutputSPIRV program_nested_block = Err PopEmptyStack.
Proof. split; vm_compute; reflexivity. Qed.

(** * Further properties of the access-chain engine *)

Section AccessChainMore.
Implicit Types (b : SPIRVBuilder) (data : NodeData).

Lemma valid_pos (n : N) : (0 < n)%N -> valid n = true.
Proof. unfold valid. intros H. apply negb_true_iff, N.eqb_neq. lia. Qed.

(** A run that reaches a failing continuation fails. *)
Lemma wp_then_Err {S A B} (m : M S A) (f : A -> M S B) (s : S) e :
  wp m s (fun a s' => f a s' = Err e) -> (m ≫= f) s = Err e.
Proof. intros (a & s' & Hm & Hf). by rewrite (bind_Ok _ _ _ _ _ Hm). Qed.

Lemma write_run i b :
  isOpen b = true ->
  write i b
  = Ok (tt, with_mSpirvCurrentFunctionBlocks (on_back (with_body (.++ [i]))) b).
Proof.
  intros Hopen. unfold write, ASSERT, get, modify, mbind, M_bind, mret, M_ret.
  by rewrite Hopen.
Qed.

Lemma accessChainCollapse_valid data b :
  IsAccessChainRValue (accessChain data) = false ->
  valid (accessChainId (accessChain data)) = true ->
  accessChainCollapse data b = Ok ((accessChainId (accessChain data), data), b).
Proof.
  intros Hl Hv. unfold accessChainCollapse, IsAccessChainRValue in *.
  cbv zeta. rewrite Hl. unfold ASSERT. simpl negb. cbv iota.
  unfold mbind, M_bind, mret, M_ret. rewrite Hv. reflexivity.
Qed.

Lemma foldM_literals (l : list SpirvIdOrLiteral) : forall acc b,
  foldM (fun literalsOut entry =>
           _ ← ASSERT (negb (valid (id entry))) Assert_literalList_id;
           mret (literalsOut ++ [literal entry])) l acc b
  = if forallb (fun e => negb (valid (id e))) l
    then Ok (acc ++ map literal l, b)
    else Err Assert_literalList_id.
Proof.
  induction l as [|e l IH]; intros acc b; simpl.
  - by rewrite app_nil_r.
  - unfold mbind, M_bind at 1. unfold mbind, M_bind at 1.
    destruct (valid (id e)); simpl; [reflexivity |].
    unfold mret, M_ret at 1. rewrite IH.
    by rewrite <- app_assoc.
Qed.

End AccessChainMore.

(** X1.  [accessChainCollapse] caches the pointer it computes: in an open
    block, with ids issued from 1 on, the collapse of an lvalue returns, and
    collapsing the record it leaves returns the same pointer again and
    changes neither the record nor the builder (no second [OpAccessChain],
    no id). *)
Theorem accessChainCollapse_cached (data : NodeData) (b : SPIRVBuilder) :
  IsAccessChainRValue (accessChain data) = false ->
  isOpen b = true ->
  (0 < mNextAvailableId b)%N ->
  wp (accessChainCollapse data) b (fun res b' =>
    accessChainCollapse res.2 b' = Ok (res, b')).
Proof.
  intros Hl Hopen Hpos. unfold accessChainCollapse at 1. cbv zeta.
  pose proof Hl as Hl'. unfold IsAccessChainRValue in Hl'.
  wp_seq. apply wp_ASSERT; [by rewrite Hl' |].
  destruct (valid (accessChainId (accessChain data))) eqn:Hv.
  - wp_step. simpl. by apply accessChainCollapse_valid.
  - destruct (bool_decide (idList data = [])) eqn:Hi.
    + wp_step. simpl. unfold accessChainCollapse. cbv zeta. simpl.
      rewrite Hl'. unfold ASSERT. simpl negb. cbv iota.
      unfold mbind, M_bind, mret, M_ret.
      destruct (valid (baseId data)) eqn:Hb; [reflexivity |].
      rewrite Hi. by destruct data as [? ? []].
    + wp_seq. apply makeAccessChainIdList_spec. intros ids b1 H1 _.
      wp_seq. apply getTypePointerId_spec. intros ty b2 H2.
      wp_seq. apply getNewId_spec. intros b3 H3 _ _.
      wp_seq. apply write_spec.
      { eapply emits_isOpen; [exact H3 |]. eapply emits_isOpen; [exact H2 |].
        by eapply emits_isOpen. }
      intros b4 H4. wp_step. simpl.
      rewrite accessChainCollapse_valid; [done | done |]. simpl.
      apply valid_pos.
      destruct H1 as (_ & _ & ? & _), H2 as (_ & _ & ? & _). lia.
Qed.

Lemma accessChainCollapse_cached_witness :
  let data :=
    accessChainPushLiteral
      (nodeDataInitLValue 5%N 2%N StorageClassFunction EbsUnspecified)
      1%N 3%N in
  wp (accessChainCollapse data) builder0 (fun res b' =>
    accessChainCollapse res.2 b' = Ok (res, b')).
Proof.
  apply accessChainCollapse_cached; [reflexivity | reflexivity | reflexivity].
Defined.

(** X2.  [makeAccessChainLiteralList] is all or nothing: when every entry
    of the index list is a literal it returns the literals in order and
    leaves the builder as it was; as soon as one entry is an id it stops at
    its assertion. *)
Theorem makeAccessChainLiteralList_all_or_nothing (data : NodeData)
    (b : SPIRVBuilder) :
  makeAccessChainLiteralList data b
  = if forallb (fun e => negb (valid (id e))) (idList data)
    then Ok (map literal (idList data), b)
    else Err Assert_literalList_id.
Proof. unfold makeAccessChainLiteralList. by rewrite foldM_literals. Qed.
Section AccessChainMore2.
Implicit Types (b : SPIRVBuilder) (data : NodeData).

Lemma write_emits i b :
  isOpen b = true ->
  emits b (with_mSpirvCurrentFunctionBlocks (on_back (with_body (.++ [i]))) b)
    [i].
Proof.
  intros Hopen.
  apply (wp_inv (write i) b (fun _ b' => emits b b' [i]) tt).
  - by apply write_spec.
  - by apply write_run.
Qed.

Lemma load_invariants_push data index typeId :
  load_invariants data -> load_invariants (accessChainPush data index typeId).
Proof. intros [H1 H2 H3 H4]. by constructor. Qed.

Lemma load_invariants_pushLiteral data index typeId :
  load_invariants data ->
  load_invariants (accessChainPushLiteral data index typeId).
Proof.
  intros [H1 H2 H3 H4]. constructor; try done.
  simpl. intros Hl. apply Forall_app. split; [by apply H3 |].
  by repeat constructor.
Qed.

Lemma accessChainPushSwizzle_run data (swizzle : list Z) typeId n b :
  swizzles (accessChain data) = [] ->
  accessChainPushSwizzle data swizzle typeId n b
  = Ok (match swizzle with
        | [s0] => accessChainPushLiteral data (uint32 s0) typeId
        | _ =>
            on_accessChain (set_swizzledVectorComponentCount n)
              (on_accessChain (set_postSwizzleTypeId typeId)
                 (on_accessChain
                    (fun a => set_swizzles (swizzles a ++ map uint32 swizzle) a)
                    data))
        end, b).
Proof.
  intros Hs. unfold accessChainPushSwizzle. rewrite Hs. unfold ASSERT.
  simpl bool_decide.
  destruct swizzle as [|s0 [|s1 swizzle]]; reflexivity.
Qed.

Lemma accessChainPushSwizzle_pending data (swizzle : list Z) typeId n b :
  swizzles (accessChain data) <> [] ->
  accessChainPushSwizzle data swizzle typeId n b = Err Assert_pushSwizzle_empty.
Proof.
  intros Hs. unfold accessChainPushSwizzle, ASSERT.
  by rewrite bool_decide_eq_false_2.
Qed.

Lemma uint_ids_weaken b b' ins (l : list N) ids :
  emits b b' ins ->
  Forall2 (fun c i => mUintConstants b !! c = Some i) l ids ->
  Forall2 (fun c i => mUintConstants b' !! c = Some i) l ids.
Proof.
  intros He H. eapply Forall2_impl; [exact H |].
  intros c i. by apply emits_uint with ins.
Qed.

Lemma uint_ids_eq b b' (l : list N) ids :
  mUintConstants b' = mUintConstants b ->
  Forall2 (fun c i => mUintConstants b !! c = Some i) l ids ->
  Forall2 (fun c i => mUintConstants b' !! c = Some i) l ids.
Proof. intros ->. done. Qed.

(** The three ways [accessChainPushDynamicComponent] goes. *)
Lemma accessChainPushDynamicComponent_spec data (index typeId : IdRef) b Q :
  valid (dynamicComponent (accessChain data)) = false ->
  isOpen b = true ->
  length (swizzles (accessChain data)) <> 1%nat ->
  (IsAccessChainRValue (accessChain data)
   && areAllIndicesLiteral (accessChain data) = true ->
   Q (on_accessChain (set_postDynamicComponentTypeId typeId)
        (on_accessChain (set_dynamicComponent index) data)) b) ->
  (IsAccessChainRValue (accessChain data)
   && areAllIndicesLiteral (accessChain data) = false ->
   swizzles (accessChain data) = [] ->
   Q (accessChainPush data index typeId) b) ->
  (IsAccessChainRValue (accessChain data)
   && areAllIndicesLiteral (accessChain data) = false ->
   swizzles (accessChain data) <> [] ->
   forall b' uintTypeId uvecTypeId swizzlesId ids newIndex,
     Forall2 (fun c i => mUintConstants b' !! c = Some i)
       (swizzles (accessChain data)) ids ->
     OpConstantComposite uvecTypeId swizzlesId ids
       ∈ mSpirvTypeAndConstantDecls b' ->
     emits b b' [OpVectorExtractDynamic uintTypeId newIndex swizzlesId index] ->
     Q (accessChainPush (on_accessChain (set_swizzles []) data) newIndex
          typeId) b') ->
  wp (accessChainPushDynamicComponent data index typeId) b Q.
Proof.
  intros Hd Hopen Hlen Hkeep Hplain Hfold.
  unfold accessChainPushDynamicComponent. cbv zeta.
  wp_seq. apply wp_ASSERT; [by rewrite Hd |].
  destruct (IsAccessChainRValue (accessChain data)
            && areAllIndicesLiteral (accessChain data)) eqn:Hrl.
  { wp_step. by apply Hkeep. }
  destruct (decide (swizzles (accessChain data) = [])) as [Hs | Hs].
  { rewrite bool_decide_eq_true_2 by done. simpl negb. cbv iota.
    wp_seq. wp_step. simpl. wp_step. by apply Hplain. }
  rewrite bool_decide_eq_false_2 by done. simpl negb. cbv iota.
  wp_seq. wp_seq.
  apply wp_ASSERT.
  { apply bool_decide_eq_true_2.
    destruct (swizzles (accessChain data)) as [|? [|? ?]]; simpl in *;
      [done | done | lia]. }
  wp_seq.
  eapply wp_mono.
  { apply (wp_foldM _
             (fun done (ids : list IdRef) b' =>
                emits b b' []
                /\ Forall2 (fun c i => mUintConstants b' !! c = Some i)
                     done ids)
             (swizzles (accessChain data)) [] []).
    - split; [apply emits_refl | constructor].
    - intros done c ids b1 [He Hids]. wp_seq.
      apply getUintConstant_spec. intros r b2 H2 Hr. wp_step. split.
      + by eapply emits_nil_r.
      + apply Forall2_app; [by eapply uint_ids_weaken | by repeat constructor]. }
  intros ids b1 [He1 Hids]. simpl in Hids.
  wp_seq.
  apply getSpirvTypeData_spec. intros uintTypeId b2 H2 _ Hu2.
  wp_seq.
  apply getSpirvTypeData_spec. intros uvecTypeId b3 H3 _ Hu3.
  wp_seq.
  eapply wp_Ok; [reflexivity |].
  wp_seq. wp_step.
  wp_seq.
  eapply wp_Ok; [reflexivity |].
  wp_seq.
  assert (emits b b3 []) as He3
    by (eapply emits_nil_r; [| exact H3]; by eapply emits_nil_r).
  set (b4 := with_mNextAvailableId N.succ
               (with_mSpirvTypeAndConstantDecls
                  (.++ [OpConstantComposite uvecTypeId (mNextAvailableId b3)
                          ids])
                  (with_mNextAvailableId N.succ b3))).
  assert (emits b3 b4 []) as He4
    by (apply emits_same_blocks; unfold b4; simpl; [done | lia | done]).
  assert (isOpen b4 = true) as Hopen4.
  { eapply emits_isOpen; [exact He4 |]. by eapply emits_isOpen. }
  eapply wp_Ok; [by apply write_run |].
  wp_step. simpl. wp_step.
  eapply (Hfold eq_refl Hs _ uintTypeId uvecTypeId (mNextAvailableId b3) ids).
  - eapply uint_ids_weaken; [by apply write_emits |].
    apply (uint_ids_eq b1); [| done]. simpl. by rewrite Hu3, Hu2.
  - simpl. apply elem_of_app. right. by apply list_elem_of_singleton.
  - eapply emits_nil_l; [eapply emits_nil_r; [exact He3 | exact He4] |].
    by apply write_emits.
Qed.
End AccessChainMore2.

Section AccessChainMore3.
Implicit Types (b : SPIRVBuilder) (data : NodeData).

Lemma load_invariants_pushSwizzle data (swizzle : list Z) typeId n :
  load_invariants data ->
  swizzles (accessChain data) = [] ->
  valid (dynamicComponent (accessChain data)) = false ->
  load_invariants
    match swizzle with
    | [s0] => accessChainPushLiteral data (uint32 s0) typeId
    | _ =>
        on_accessChain (set_swizzledVectorComponentCount n)
          (on_accessChain (set_postSwizzleTypeId typeId)
             (on_accessChain
                (fun a => set_swizzles (swizzles a ++ map uint32 swizzle) a)
                data))
    end.
Proof.
  intros Hinv Hs Hd.
  destruct swizzle as [|s0 [|s1 swizzle]].
  - destruct Hinv as [H1 H2 H3 H4]. constructor; try done.
    + simpl. by rewrite Hs.
    + simpl. intros Hv. by rewrite Hd in Hv.
  - by apply load_invariants_pushLiteral.
  - destruct Hinv as [H1 H2 H3 H4]. constructor; try done.
    + simpl. rewrite Hs. simpl. lia.
    + simpl. intros Hv. by rewrite Hd in Hv.
Qed.

Lemma accessChainCollapse_again data (ptr : IdRef) b :
  IsAccessChainRValue (accessChain data) = false ->
  valid ptr = true \/ (idList data = [] /\ ptr = baseId data) ->
  accessChainCollapse (on_accessChain (set_accessChainId ptr) data) b
  = Ok ((ptr, on_accessChain (set_accessChainId ptr) data), b).
Proof.
  intros Hl Hptr.
  destruct (valid ptr) eqn:Hv.
  - by rewrite accessChainCollapse_valid.
  - destruct Hptr as [? | [Hi ->]]; [done |].
    unfold accessChainCollapse, IsAccessChainRValue in *. cbv zeta. simpl.
    rewrite Hl. unfold ASSERT. simpl negb. cbv iota.
    unfold mbind, M_bind, mret, M_ret. rewrite Hv, Hi. simpl.
    by destruct data as [? ? []].
Qed.

(** [accessChainCollapse_spec], with what makes the pointer stay. *)
Lemma accessChainCollapse_spec_cached data b Q :
  IsAccessChainRValue (accessChain data) = false ->
  isOpen b = true ->
  (0 < mNextAvailableId b)%N ->
  (forall ptr b' ins,
      emits b b' ins ->
      collapse_table data b' ptr ins ->
      (forall b'',
          accessChainCollapse (on_accessChain (set_accessChainId ptr) data) b''
          = Ok ((ptr, on_accessChain (set_accessChainId ptr) data), b'')) ->
      Q (ptr, on_accessChain (set_accessChainId ptr) data) b') ->
  wp (accessChainCollapse data) b Q.
Proof.
  intros Hl Hopen Hpos HQ. unfold accessChainCollapse. cbv zeta.
  pose proof Hl as Hl'. unfold IsAccessChainRValue in Hl'.
  wp_seq. apply wp_ASSERT; [by rewrite Hl' |].
  destruct (valid (accessChainId (accessChain data))) eqn:Hv.
  - wp_step. rewrite <- (on_accessChain_same data) at 2.
    apply (HQ _ _ []); [apply emits_refl | by constructor |].
    intros b''. apply accessChainCollapse_again; [done | by left].
  - destruct (bool_decide (idList data = [])) eqn:Hi.
    + apply bool_decide_eq_true_1 in Hi. wp_step.
      apply (HQ _ _ []); [apply emits_refl | by constructor |].
      intros b''. apply accessChainCollapse_again; [done | by right].
    + apply bool_decide_eq_false_1 in Hi.
      wp_seq. apply makeAccessChainIdList_spec. intros ids b1 H1 Hids.
      wp_seq. apply getTypePointerId_spec. intros ty b2 H2.
      wp_seq. apply getNewId_spec. intros b3 H3 _ _.
      wp_seq. apply write_spec.
      { eapply emits_isOpen; [exact H3 |]. eapply emits_isOpen; [exact H2 |].
        by eapply emits_isOpen. }
      intros b4 H4. wp_step. simpl.
      apply (HQ _ _ [OpAccessChain ty (mNextAvailableId b2) (baseId data) ids]).
      * eapply emits_nil_l; [| exact H4].
        eapply emits_nil_r; [| exact H3]. by eapply emits_nil_r.
      * constructor; [done | done |].
        eapply index_ids_weaken; [exact H4 |].
        eapply index_ids_weaken; [exact H3 |].
        by eapply index_ids_weaken.
      * intros b''. apply accessChainCollapse_again; [done | left].
        apply valid_pos.
        destruct H1 as (_ & _ & ? & _), H2 as (_ & _ & ? & _). lia.
Qed.

End AccessChainMore3.

(** X3.  [rvalue.x]: a one-component swizzle is folded into the index list,
    so on an rvalue whose indices are all literal the load that follows is
    one [OpCompositeExtract] whose path is the literal indices followed by
    the component. *)
Theorem accessChainLoad_rvalue_component (data : NodeData) (s : Z)
    (typeId : IdRef) (n : N) (b : SPIRVBuilder) :
  IsAccessChainRValue (accessChain data) = true ->
  load_invariants data ->
  areAllIndicesLiteral (accessChain data) = true ->
  swizzles (accessChain data) = [] ->
  valid (dynamicComponent (accessChain data)) = false ->
  isOpen b = true ->
  wp (data' ← accessChainPushSwizzle data [s] typeId n;
      accessChainLoad data') b
    (fun res b' =>
       emits b b'
         [OpCompositeExtract typeId res.1 (baseId data)
            (map literal (idList data) ++ [uint32 s])]).
Proof.
  intros Hr Hinv Hlit Hs Hd Hopen.
  wp_seq. eapply wp_Ok; [by apply accessChainPushSwizzle_run |].
  apply accessChainLoad_spec;
    [done | by apply load_invariants_pushLiteral |].
  intros r data' b' ins (r1 & r2 & i1 & i2 & i3 & Ht & Hsw & Hdy & ->) He.
  unfold swizzle_table, dynamic_table in *. simpl in Hsw, Hdy.
  rewrite Hs in Hsw. rewrite Hd in Hdy. simpl in Hsw.
  destruct Hsw as [-> ->], Hdy as [-> ->]. rewrite !app_nil_r in He.
  inversion Ht as [? Hi | r' ? Hi Hl | r' ? ? ? ? ? ? Hi Hl | r' ? ? Hl];
    subst; simpl in *.
  - by destruct (idList data).
  - by rewrite map_app in He.
  - rewrite Hlit in Hl. discriminate.
  - change (IsAccessChainRValue (accessChain data) = false) in Hl.
    rewrite Hr in Hl. discriminate.
Qed.

Lemma accessChainLoad_rvalue_component_witness :
  wp (data' ← accessChainPushSwizzle (nodeDataInitRValue 7%N 1%N) [1] 2%N 4%N;
      accessChainLoad data') builder0
    (fun res b' =>
       emits builder0 b'
         [OpCompositeExtract 2%N res.1 7%N ([] ++ [uint32 1])]).
Proof.
  apply (accessChainLoad_rvalue_component (nodeDataInitRValue 7%N 1%N));
    try reflexivity.
  constructor; simpl; intros; done.
Defined.

(** X4.  [lvalue.xyz[i]]: on a record that is not an rvalue with
    all-literal indices, a dynamic index met while a swizzle is pending is
    folded with it: the swizzle becomes a constant vector of interned uint
    constants, one [OpVectorExtractDynamic] selects its component [i], the
    swizzle is cleared and the selected component is pushed as an index. *)
Theorem accessChainPushDynamicComponent_folds_swizzle (data : NodeData)
    (index typeId : IdRef) (b : SPIRVBuilder) :
  IsAccessChainRValue (accessChain data)
  && areAllIndicesLiteral (accessChain data) = false ->
  valid (dynamicComponent (accessChain data)) = false ->
  (1 < length (swizzles (accessChain data)))%nat ->
  isOpen b = true ->
  wp (accessChainPushDynamicComponent data index typeId) b
    (fun data' b' =>
       exists uintTypeId uvecTypeId swizzlesId ids newIndex,
         Forall2 (fun c i => mUintConstants b' !! c = Some i)
           (swizzles (accessChain data)) ids
         /\ OpConstantComposite uvecTypeId swizzlesId ids
            ∈ mSpirvTypeAndConstantDecls b'
         /\ emits b b'
              [OpVectorExtractDynamic uintTypeId newIndex swizzlesId index]
         /\ data'
            = accessChainPush (on_accessChain (set_swizzles []) data)
                newIndex typeId).
Proof.
  intros Hrl Hd Hlen Hopen.
  apply accessChainPushDynamicComponent_spec; [done | done | lia | | |].
  - intros Hrl'. congruence.
  - intros _ Hs. rewrite Hs in Hlen. simpl in Hlen. lia.
  - intros _ _ b' uintTypeId uvecTypeId swizzlesId ids newIndex H1 H2 H3.
    by exists uintTypeId, uvecTypeId, swizzlesId, ids, newIndex.
Qed.

Lemma accessChainPushDynamicComponent_folds_swizzle_witness :
  wp (accessChainPushDynamicComponent v_zx 8%N 6%N) builder0
    (fun data' b' =>
       exists uintTypeId uvecTypeId swizzlesId ids newIndex,
         Forall2 (fun c i => mUintConstants b' !! c = Some i)
           (swizzles (accessChain v_zx)) ids
         /\ OpConstantComposite uvecTypeId swizzlesId ids
            ∈ mSpirvTypeAndConstantDecls b'
         /\ emits builder0 b'
              [OpVectorExtractDynamic uintTypeId newIndex swizzlesId 8%N]
         /\ data'
            = accessChainPush (on_accessChain (set_swizzles []) v_zx)
                newIndex 6%N).
Proof.
  apply accessChainPushDynamicComponent_folds_swizzle;
    [reflexivity | reflexivity | simpl; lia | reflexivity].
Defined.

(** X5.  The pushes keep a record loadable.  From a record that meets the
    invariants [accessChainLoad] relies on, [accessChainPush] and
    [accessChainPushLiteral] give one that meets them; so does
    [accessChainPushSwizzle] when no swizzle and no dynamic component is
    pending, without touching the builder; and so does
    [accessChainPushDynamicComponent] when no dynamic component is pending,
    unless the record is an rvalue with all-literal indices and a pending
    swizzle. *)
Theorem pushes_keep_load_invariants (data : NodeData) (index typeId : IdRef)
    (literalIndex : LiteralInteger) (swizzle : list Z) (n : N)
    (b : SPIRVBuilder) :
  load_invariants data ->
  load_invariants (accessChainPush data index typeId)
  /\ load_invariants (accessChainPushLiteral data literalIndex typeId)
  /\ (swizzles (accessChain data) = [] ->
      valid (dynamicComponent (accessChain data)) = false ->
      wp (accessChainPushSwizzle data swizzle typeId n) b
        (fun data' b' => b' = b /\ load_invariants data'))
  /\ (valid (dynamicComponent (accessChain data)) = false ->
      isOpen b = true ->
      swizzles (accessChain data) = []
      \/ IsAccessChainRValue (accessChain data)
         && areAllIndicesLiteral (accessChain data) = false ->
      wp (accessChainPushDynamicComponent data index typeId) b
        (fun data' _ => load_invariants data')).
Proof.
  intros Hinv. split_and!.
  - by apply load_invariants_push.
  - by apply load_invariants_pushLiteral.
  - intros Hs Hd. eapply wp_Ok; [by apply accessChainPushSwizzle_run |].
    split; [done | by apply load_invariants_pushSwizzle].
  - intros Hd Hopen Hcase.
    apply accessChainPushDynamicComponent_spec;
      [done | done | by destruct Hinv | | |].
    + intros Hrl. destruct Hcase as [Hs | Hrl']; [| congruence].
      destruct Hinv as [H1 H2 H3 H4]. by constructor.
    + intros _ _. by apply load_invariants_push.
    + intros _ _ b' _ _ _ _ newIndex _ _ _.
      apply load_invariants_push.
      destruct Hinv as [H1 H2 H3 H4]. by constructor.
Qed.

Lemma pushes_keep_load_invariants_witness :
  load_invariants (accessChainPush rvalue_1_0_yx 8%N 6%N).
Proof.
  refine (proj1 (pushes_keep_load_invariants rvalue_1_0_yx 8%N 6%N 0%N [] 0%N
                   builder0 _)).
  constructor; simpl; intros; try done. repeat constructor.
Defined.

(** An rvalue with literal indices on which both a swizzle and a dynamic
    component are pending cannot be loaded. *)
Lemma accessChainLoad_swizzle_and_dynamic (data : NodeData)
    (b : SPIRVBuilder) :
  IsAccessChainRValue (accessChain data) = true ->
  areAllIndicesLiteral (accessChain data) = true ->
  Forall (fun e => valid (id e) = false) (idList data) ->
  (1 < length (swizzles (accessChain data)))%nat ->
  valid (dynamicComponent (accessChain data)) = true ->
  isOpen b = true ->
  accessChainLoad data b = Err Assert_load_dynamicComponent.
Proof.
  intros Hr Hlit Hall Hlen Hv Hopen.
  assert (swizzles (accessChain data) <> []) as Hs
    by (intros Hs; rewrite Hs in Hlen; simpl in Hlen; lia).
  unfold accessChainLoad. cbv zeta. rewrite Hr, Hlit.
  apply wp_then_Err.
  assert (forall r b1, isOpen b1 = true ->
    wp (mret (M := M SPIRVBuilder) (r, data)) b1
      (fun a s' =>
         (let '(loadResult, data0) := a in
          loadResult0 ←
            (if negb (bool_decide (swizzles (accessChain data0) = [])) then
               _ ← ASSERT (bool_decide
                             (1 < length (swizzles (accessChain data0)))%nat)
                     Assert_load_swizzle_size;
               result ← getNewId;
               _ ← write (OpVectorShuffle
                            (postSwizzleTypeId (accessChain data0)) result
                            loadResult loadResult
                            (swizzles (accessChain data0)));
               mret result
             else mret loadResult);
          loadResult1 ←
            (if valid (dynamicComponent (accessChain data0)) then
               _ ← ASSERT (bool_decide (swizzles (accessChain data0) = []))
                     Assert_load_dynamicComponent;
               result ← getNewId;
               _ ← write (OpVectorExtractDynamic
                            (postDynamicComponentTypeId (accessChain data0))
                            result loadResult0
                            (dynamicComponent (accessChain data0)));
               mret result
             else mret loadResult0);
          mret (loadResult1, data0)) s' = Err Assert_load_dynamicComponent))
    as Htail.
  { intros r b1 Hopen1. wp_step.
    rewrite bool_decide_eq_false_2 by done. simpl negb. cbv iota.
    apply wp_then_Err.
    wp_seq. apply wp_ASSERT; [by apply bool_decide_eq_true_2 |].
    wp_seq. apply getNewId_spec. intros b2 H2 _ _.
    wp_seq. apply write_spec; [by eapply emits_isOpen |].
    intros b3 H3. wp_step.
    rewrite Hv. reflexivity. }
  destruct (bool_decide (0 < length (idList data))%nat).
  - wp_seq. apply makeAccessChainLiteralList_spec; [done |].
    wp_seq. apply getNewId_spec. intros b2 H2 _ _.
    wp_seq. apply write_spec; [by eapply emits_isOpen |].
    intros b3 H3. apply Htail.
    eapply emits_isOpen; [exact H3 |]. by eapply emits_isOpen.
  - by apply Htail.
Qed.

(** X6.  [rvalue.xyz[i]]: on an rvalue whose indices are all literal,
    [accessChainPushDynamicComponent] keeps the dynamic index apart even
    when a swizzle is pending, and the load of the record it leaves then
    stops at the assertion that no swizzle is pending with a dynamic
    component. *)
Theorem accessChainLoad_rvalue_swizzle_dynamic_fails (data : NodeData)
    (index typeId : IdRef) (b : SPIRVBuilder) :
  IsAccessChainRValue (accessChain data) = true ->
  areAllIndicesLiteral (accessChain data) = true ->
  Forall (fun e => valid (id e) = false) (idList data) ->
  (1 < length (swizzles (accessChain data)))%nat ->
  valid (dynamicComponent (accessChain data)) = false ->
  valid index = true ->
  isOpen b = true ->
  (data' ← accessChainPushDynamicComponent data index typeId;
   accessChainLoad data') b
  = Err Assert_load_dynamicComponent.
Proof.
  intros Hr Hlit Hall Hlen Hd Hv Hopen.
  apply wp_then_Err.
  unfold accessChainPushDynamicComponent. cbv zeta.
  wp_seq. apply wp_ASSERT; [by rewrite Hd |].
  rewrite Hr, Hlit. simpl andb. cbv iota. wp_step.
  by apply accessChainLoad_swizzle_and_dynamic.
Qed.

Lemma accessChainLoad_rvalue_swizzle_dynamic_fails_witness :
  (data' ← accessChainPushDynamicComponent rvalue_1_0_yx 8%N 6%N;
   accessChainLoad data') builder0
  = Err Assert_load_dynamicComponent.
Proof.
  apply accessChainLoad_rvalue_swizzle_dynamic_fails; try reflexivity.
  - repeat constructor.
  - simpl. lia.
Defined.

(** X7.  A load and a store through the same lvalue share the pointer, as
    in a compound assignment or in the copy of an [inout] argument: in an
    open block, with ids issued from 1 on, and no swizzle or dynamic
    component pending, loading and then storing through the record the load
    leaves emits the code of one collapse (at most one [OpAccessChain]),
    one [OpLoad] and one [OpStore], both through the collapsed pointer. *)
Theorem accessChainLoad_then_Store_share_pointer (data : NodeData)
    (f : IdRef -> IdRef) (b : SPIRVBuilder) :
  IsAccessChainRValue (accessChain data) = false ->
  swizzles (accessChain data) = [] ->
  valid (dynamicComponent (accessChain data)) = false ->
  isOpen b = true ->
  (0 < mNextAvailableId b)%N ->
  wp (res ← accessChainLoad data; accessChainStore res.2 (f res.1)) b
    (fun _ b' =>
       exists ptr insC loaded,
         collapse_table data b' ptr insC
         /\ emits b b'
              (insC ++ [OpLoad (preSwizzleTypeId (accessChain data)) loaded ptr;
                        OpStore ptr (f loaded)])).
Proof.
  intros Hl Hs Hd Hopen Hpos.
  wp_seq. unfold accessChainLoad. cbv zeta. rewrite Hl.
  wp_seq. wp_seq.
  apply accessChainCollapse_spec_cached; [done | done | done |].
  intros ptr b1 insC He1 Ht Hagain.
  wp_seq. apply getNewId_spec. intros b2 H2 _ _.
  wp_seq. apply write_spec.
  { eapply emits_isOpen; [exact H2 |]. by eapply emits_isOpen. }
  intros b3 H3. wp_step. simpl. rewrite Hs, Hd. simpl.
  wp_seq. wp_step. wp_seq. wp_step. wp_step. simpl.
  unfold accessChainStore. simpl. rewrite Hs, Hd. simpl.
  wp_seq. apply wp_ASSERT; [done |].
  wp_seq. apply wp_ASSERT; [done |].
  wp_seq. eapply wp_Ok; [apply Hagain |]. simpl. rewrite Hs. simpl.
  wp_seq. wp_step.
  assert (isOpen b3 = true) as Hopen3.
  { eapply emits_isOpen; [exact H3 |]. eapply emits_isOpen; [exact H2 |].
    by eapply emits_isOpen. }
  wp_seq. apply write_spec; [done |].
  intros b4 H4. wp_step.
  exists ptr, insC, (mNextAvailableId b1). split.
  - eapply collapse_table_weaken; [exact H4 |].
    eapply collapse_table_weaken; [exact H3 |].
    by eapply collapse_table_weaken.
  - eapply emits_trans; [exact He1 |].
    change [OpLoad (preSwizzleTypeId (accessChain data)) (mNextAvailableId b1)
              ptr; OpStore ptr (f (mNextAvailableId b1))]
      with ([OpLoad (preSwizzleTypeId (accessChain data))
               (mNextAvailableId b1) ptr]
            ++ [OpStore ptr (f (mNextAvailableId b1))]).
    eapply emits_trans; [| exact H4]. by eapply emits_nil_l.
Qed.

Lemma accessChainLoad_then_Store_share_pointer_witness :
  let data :=
    accessChainPush
      (nodeDataInitLValue 5%N 2%N StorageClassFunction EbsUnspecified)
      8%N 3%N in
  wp (res ← accessChainLoad data; accessChainStore res.2 (N.succ res.1)) builder0
    (fun _ b' =>
       exists ptr insC loaded,
         collapse_table data b' ptr insC
         /\ emits builder0 b'
              (insC ++ [OpLoad (preSwizzleTypeId (accessChain data)) loaded ptr;
                        OpStore ptr (N.succ loaded)])).
Proof.
  apply (accessChainLoad_then_Store_share_pointer _ N.succ); reflexivity.
Defined.

(** X8.  A store through a chain on which no swizzle is pending emits the
    code of the collapse and exactly one [OpStore] of the value through the
    collapsed pointer, with no load, and caches the pointer in the
    record. *)
Theorem accessChainStore_unswizzled (data : NodeData) (value : IdRef)
    (b : SPIRVBuilder) :
  isOpen b = true ->
  IsAccessChainRValue (accessChain data) = false ->
  valid (dynamicComponent (accessChain data)) = false ->
  swizzles (accessChain data) = [] ->
  wp (accessChainStore data value) b
    (fun data' b' =>
       exists ptr insC,
         collapse_table data b' ptr insC
         /\ emits b b' (insC ++ [OpStore ptr value])
         /\ data' = on_accessChain (set_accessChainId ptr) data).
Proof.
  intros Hopen Hl Hd Hs.
  apply accessChainStore_unswizzled_spec; [done | done | done | done |].
  intros b' ptr insC Ht He. by exists ptr, insC.
Qed.

Lemma accessChainStore_unswizzled_witness :
  let data :=
    accessChainPush
      (nodeDataInitLValue 5%N 2%N StorageClassFunction EbsUnspecified)
      8%N 3%N in
  wp (accessChainStore data 7%N) builder0
    (fun data' b' =>
       exists ptr insC,
         collapse_table data b' ptr insC
         /\ emits builder0 b' (insC ++ [OpStore ptr 7%N])
         /\ data' = on_accessChain (set_accessChainId ptr) data).
Proof.
  apply accessChainStore_unswizzled; reflexivity.
Defined.

(** X9.  What an rvalue record allows.  Collapsing it stops at the
    assertion on the storage class, and so does a store through it (once
    past the assertions on the swizzle and the dynamic component); a load
    of an rvalue with no index, swizzle or dynamic component pending, as
    [nodeDataInitRValue] makes it for the result of an expression, returns
    the base id and changes neither the record nor the builder, whatever
    the state of the builder. *)
Theorem rvalue_record_behaviour (data : NodeData) (value : IdRef)
    (b : SPIRVBuilder) :
  IsAccessChainRValue (accessChain data) = true ->
  accessChainCollapse data b = Err Assert_collapse_storageClass
  /\ (length (swizzles (accessChain data)) <> 1%nat ->
      valid (dynamicComponent (accessChain data)) = false ->
      accessChainStore data value b = Err Assert_collapse_storageClass)
  /\ (idList data = [] ->
      swizzles (accessChain data) = [] ->
      valid (dynamicComponent (accessChain data)) = false ->
      accessChainLoad data b = Ok ((baseId data, data), b)).
Proof.
  intros Hr. split_and!.
  - by apply accessChainCollapse_rvalue.
  - intros Hs Hd. unfold accessChainStore.
    rewrite bool_decide_eq_false_2 by done. rewrite Hd.
    unfold ASSERT at 1 2. simpl negb. cbv iota.
    unfold mbind, M_bind at 1. unfold mret, M_ret at 1.
    unfold mbind, M_bind at 1. unfold mret, M_ret at 1.
    apply bind_Err. by apply accessChainCollapse_rvalue.
  - intros Hi Hs Hd. unfold accessChainLoad. cbv zeta.
    rewrite Hr, Hi. simpl bool_decide. cbv iota.
    unfold mbind, M_bind at 1. unfold mret, M_ret at 1.
    rewrite Hs, Hd. reflexivity.
Qed.

Lemma rvalue_record_behaviour_witness :
  accessChainCollapse (nodeDataInitRValue 7%N 1%N) builder0
  = Err Assert_collapse_storageClass.
Proof.
  exact (proj1 (rvalue_record_behaviour (nodeDataInitRValue 7%N 1%N) 0%N
                  builder0 eq_refl)).
Defined.

Section StoreBounds.
Implicit Types (b : SPIRVBuilder) (data : NodeData).

Lemma storeSwizzleList_loop_Err (count : N) (swizzles : list N) b :
  forall (swizzleList : list N) (srcComponent : N),
    length swizzleList = N.to_nat count ->
    Exists (fun c => (count <= c)%N) swizzles ->
    foldM (fun '(swizzleList, srcComponent) dstComponent =>
             swizzleList ←
               set_index swizzleList (N.to_nat dstComponent)
                 ((count + srcComponent) mod 2 ^ 32)%N;
             mret (swizzleList, ((srcComponent + 1) mod 2 ^ 32)%N))
      swizzles (swizzleList, srcComponent) b
    = Err IndexOutOfRange.
Proof.
  induction swizzles as [|c swizzles IH]; intros swizzleList srcComponent Hlen Hex.
  - by apply Exists_nil in Hex.
  - simpl. unfold set_index. case_bool_decide as Hc.
    + apply Exists_cons in Hex as [Hex | Hex]; [lia |].
      unfold mbind, M_bind at 1. unfold mbind, M_bind at 1.
      unfold mret, M_ret at 1. unfold mret, M_ret at 1.
      apply IH; [by rewrite length_insert | done].
    + reflexivity.
Qed.

Lemma storeSwizzleList_Err (count : N) (swizzles : list N) b :
  Exists (fun c => (count <= c)%N) swizzles ->
  storeSwizzleList count swizzles b = Err IndexOutOfRange.
Proof.
  intros Hex. unfold storeSwizzleList. cbv zeta. apply bind_Err.
  apply storeSwizzleList_loop_Err; [| done].
  by rewrite length_map, length_seq.
Qed.
End StoreBounds.

(** X21.  A store through a swizzle that names a lane the vector does not
    have is refused: when one of the pending swizzle components is not
    less than the component count recorded with the swizzle, the store
    stops at the bounds check of the shuffle mask, before any [OpStore] is
    written. *)
Theorem accessChainStore_lane_out_of_range (data : NodeData) (value : IdRef)
    (b : SPIRVBuilder) :
  IsAccessChainRValue (accessChain data) = false ->
  valid (dynamicComponent (accessChain data)) = false ->
  (1 < length (swizzles (accessChain data)))%nat ->
  Exists (fun c => (swizzledVectorComponentCount (accessChain data) <= c)%N)
    (swizzles (accessChain data)) ->
  isOpen b = true ->
  accessChainStore data value b = Err IndexOutOfRange.
Proof.
  intros Hl Hd Hlen Hex Hopen. unfold accessChainStore.
  apply wp_then_Err. apply wp_ASSERT.
  { rewrite bool_decide_eq_false_2; [done | lia]. }
  apply wp_then_Err. apply wp_ASSERT; [by rewrite Hd |].
  apply wp_then_Err. apply accessChainCollapse_spec; [done | done |].
  intros ptr b1 insC He _. simpl.
  rewrite bool_decide_eq_false_2
    by (intros Hs; rewrite Hs in Hlen; simpl in Hlen; lia).
  simpl negb. cbv iota.
  apply bind_Err.
  apply wp_then_Err. apply getNewId_spec. intros b2 H2 _ _.
  apply wp_then_Err. apply write_spec.
  { eapply emits_isOpen; [exact H2 |]. by eapply emits_isOpen. }
  intros b3 H3. apply bind_Err. by apply storeSwizzleList_Err.
Qed.

Lemma accessChainStore_lane_out_of_range_witness :
  accessChainStore
    (on_accessChain (set_swizzledVectorComponentCount 2%N) v_zx) 8%N builder0
  = Err IndexOutOfRange.
Proof.
  apply accessChainStore_lane_out_of_range;
    [reflexivity | reflexivity | simpl; lia | | reflexivity].
  apply Exists_cons_hd. simpl. lia.
Defined.


(** * Further properties of the constructors *)

Section Extract.
Implicit Types (b : SPIRVBuilder) (parameters extracted : list IdRef).

Lemma componentFrom_weaken parameters ins ins' c :
  componentFrom parameters ins c -> componentFrom parameters (ins ++ ins') c.
Proof.
  intros [H | (ty & p & path & H)]; [by left | right].
  exists ty, p, path. apply elem_of_app. by left.
Qed.

Lemma componentFrom_weaken_l parameters ins ins' c :
  componentFrom parameters ins' c -> componentFrom parameters (ins ++ ins') c.
Proof.
  intros [H | (ty & p & path & H)]; [by left | right].
  exists ty, p, path. apply elem_of_app. by right.
Qed.

Lemma extracts_refl parameters extracted b : extracts parameters extracted b extracted b.
Proof.
  exists [], []. rewrite app_nil_r. split_and!; [done | apply emits_refl | done | done].
Qed.

Lemma extracts_trans parameters e0 b0 e1 b1 e2 b2 :
  extracts parameters e0 b0 e1 b1 -> extracts parameters e1 b1 e2 b2 ->
  extracts parameters e0 b0 e2 b2.
Proof.
  intros (n1 & i1 & -> & He1 & Hf1 & Hc1) (n2 & i2 & -> & He2 & Hf2 & Hc2).
  exists (n1 ++ n2), (i1 ++ i2). split_and!.
  - by rewrite app_assoc.
  - by eapply emits_trans.
  - by apply Forall_app.
  - apply Forall_app. split.
    + eapply Forall_impl; [exact Hc1 |]. intros c. apply componentFrom_weaken.
    + eapply Forall_impl; [exact Hc2 |]. intros c. apply componentFrom_weaken_l.
Qed.

Lemma extracts_emits0 parameters e0 b0 b1 e2 b2 :
  emits b0 b1 [] -> extracts parameters e0 b1 e2 b2 ->
  extracts parameters e0 b0 e2 b2.
Proof.
  intros He (n & i & -> & He2 & Hf & Hc). exists n, i.
  split_and!; [done | by eapply emits_nil_l | done | done].
Qed.

Lemma extracts_isOpen parameters e0 b0 e1 b1 :
  extracts parameters e0 b0 e1 b1 -> isOpen b0 = true -> isOpen b1 = true.
Proof. intros (n & i & _ & He & _). by apply emits_isOpen with i. Qed.

(** A loop that extracts one component per element of [l], as long as
    fewer than [componentCount] are there. *)
Lemma extract_loop_spec (componentCount : nat) parameters
    (componentTypeId parameterId : IdRef) (path : Z -> list LiteralInteger)
    (l : list Z) extracted b :
  isOpen b = true ->
  (length extracted <= componentCount)%nat ->
  parameterId ∈ parameters ->
  wp (foldM (fun extracted index =>
               whileFewer componentCount extracted
                 (componentId ← getNewId;
                  _ ← write (OpCompositeExtract componentTypeId componentId
                               parameterId (path index));
                  mret (extracted ++ [componentId])))
        l extracted) b
    (fun out b' =>
       length out = (componentCount `min` (length extracted + length l))%nat
       /\ extracts parameters extracted b out b').
Proof.
  intros Hopen Hle Hp.
  eapply wp_mono.
  - apply (wp_foldM _
             (fun done out b' =>
                length out
                = (componentCount `min` (length extracted + length done))%nat
                /\ extracts parameters extracted b out b') l []).
    + simpl. split; [lia | apply extracts_refl].
    + intros done index out b1 [Hlen He]. unfold whileFewer.
      rewrite length_app. simpl.
      case_bool_decide as Hlt.
      * wp_seq. apply getNewId_spec. intros b2 H2 _ _.
        wp_seq. apply write_spec.
        { eapply emits_isOpen; [exact H2 |]. by eapply extracts_isOpen. }
        intros b3 H3. wp_step. split; [rewrite length_app; simpl; lia |].
        eapply extracts_trans; [exact He |].
        exists [mNextAvailableId b1],
          [OpCompositeExtract componentTypeId (mNextAvailableId b1)
             parameterId (path index)].
        split_and!; [done | by eapply emits_nil_l | |].
        -- constructor; [| done]. by eexists _, _, _, _.
        -- constructor; [| done]. right. eexists _, _, _.
           by apply list_elem_of_singleton.
      * wp_step. split; [lia | done].
  - intros out b' [Hlen He]. by split.
Qed.
End Extract.
Section Extract2.
Implicit Types (b : SPIRVBuilder) (parameters extracted : list IdRef).

Lemma length_upto (n : Z) : length (upto n) = Z.to_nat n.
Proof. unfold upto. by rewrite length_seqZ. Qed.

(** The two nested loops over the components of a matrix argument. *)
Lemma extract_matrix_loop_spec (componentCount : nat) parameters
    (componentTypeId parameterId : IdRef) (cols rows : Z) extracted b :
  isOpen b = true ->
  (length extracted <= componentCount)%nat ->
  parameterId ∈ parameters ->
  wp (foldM (fun extracted columnIndex =>
               whileFewer componentCount extracted
                 (foldM (fun extracted componentIndex =>
                           whileFewer componentCount extracted
                             (componentId ← getNewId;
                              _ ← write (OpCompositeExtract componentTypeId
                                           componentId parameterId
                                           [uint32 columnIndex;
                                            uint32 componentIndex]);
                              mret (extracted ++ [componentId])))
                    (upto rows) extracted))
        (upto cols) extracted) b
    (fun out b' =>
       length out
       = (componentCount
            `min` (length extracted + Z.to_nat cols * Z.to_nat rows))%nat
       /\ extracts parameters extracted b out b').
Proof.
  intros Hopen Hle Hp.
  eapply wp_mono.
  - apply (wp_foldM _
             (fun done out b' =>
                length out
                = (componentCount
                     `min` (length extracted + length done * Z.to_nat rows))%nat
                /\ extracts parameters extracted b out b') (upto cols) []).
    + simpl. split; [lia | apply extracts_refl].
    + intros done columnIndex out b1 [Hlen He]. unfold whileFewer at 1.
      rewrite length_app. simpl.
      case_bool_decide as Hlt.
      * eapply wp_mono.
        { apply (extract_loop_spec componentCount parameters componentTypeId
                   parameterId
                   (fun componentIndex =>
                      [uint32 columnIndex; uint32 componentIndex]));
            [by eapply extracts_isOpen | lia | done]. }
        intros out' b2 [Hlen' He']. rewrite length_upto in Hlen'. split.
        -- rewrite Hlen', Hlen. nia.
        -- by eapply extracts_trans.
      * wp_step. split; [nia | done].
  - intros out b' [Hlen He]. simpl in Hlen. rewrite length_upto in Hlen.
    by split.
Qed.

Lemma sum_list_with_indexed {A} (f : A -> nat) (l : list A) :
  forall g : nat -> nat,
    sum_list_with (fun p : nat * A => f p.2) (imap (fun i a => (g i, a)) l)
    = sum_list_with f l.
Proof.
  induction l as [|a l IH]; intros g; [done |].
  simpl. f_equal. apply (IH (g ∘ S)).
Qed.

Lemma extractComponents_spec (node : TIntermNode) (componentCount : nat)
    parameters b Q :
  length (getSequence node) = length parameters ->
  Forall (fun argument =>
            isScalar (getType argument) || isVector (getType argument)
            || isMatrix (getType argument) = true) (getSequence node) ->
  isOpen b = true ->
  (forall out b',
      length out
      = (componentCount
           `min` sum_list_with (fun argument =>
                                  componentCountOf (getType argument))
                   (getSequence node))%nat ->
      extracts parameters [] b out b' ->
      Q out b') ->
  wp (extractComponents node componentCount parameters) b Q.
Proof.
  intros Hlen Hall Hopen HQ. unfold extractComponents. cbv zeta.
  wp_seq. apply wp_ASSERT; [by apply bool_decide_eq_true_2 |].
  set (arguments := getSequence node) in *.
  eapply wp_mono.
  - apply (wp_foldM_at _
             (imap (fun argumentIndex argument => (argumentIndex, argument))
                arguments)
             (fun done out b' =>
                length out
                = (componentCount
                     `min` sum_list_with (fun p => componentCountOf (getType p.2))
                             done)%nat
                /\ extracts parameters [] b out b')
             _ []); [done | |].
    + simpl. split; [lia | apply extracts_refl].
    + intros done [argumentIndex argument] rest out b1 Hw [Hl He].
      assert (arguments !! argumentIndex = Some argument) as Harg.
      { assert (imap (fun i a => (i, a)) arguments !! length done
                = Some (argumentIndex, argument)) as Hlk
          by (rewrite Hw; by apply list_lookup_middle).
        rewrite list_lookup_imap in Hlk.
        destruct (arguments !! length done) eqn:E; simpl in Hlk; [| done].
        by injection Hlk as <- <-. }
      destruct (lookup_lt_is_Some_2 parameters argumentIndex) as [p Hp].
      { rewrite <- Hlen. by eapply lookup_lt_Some. }
      assert (p ∈ parameters) as Hin by (by eapply list_elem_of_lookup_2).
      pose proof (proj1 (Forall_lookup _ _) Hall _ _ Harg) as Hty.
      simpl in Hty.
      assert (isOpen b1 = true) as Hopen1 by (by eapply extracts_isOpen).
      rewrite sum_list_with_app. simpl. rewrite Nat.add_0_r.
      set (total := sum_list_with _ done) in *.
      unfold whileFewer at 1. case_bool_decide as Hlt; [| wp_step; split; [lia | done]].
      wp_seq. eapply wp_at_index; [exact Hp |].
      unfold componentCountOf.
      destruct (isScalar (getType argument)) eqn:Hsc.
      { wp_step. split; [rewrite length_app; simpl; lia |].
        eapply extracts_trans; [exact He |].
        exists [p], []. split_and!; [done | apply emits_refl | done |].
        constructor; [by left | done]. }
      destruct (isVector (getType argument)) eqn:Hvec.
      { wp_seq. apply getSpirvTypeData_spec. intros ty b2 H2 _ _.
        eapply wp_mono.
        { apply (extract_loop_spec componentCount parameters ty p
                   (fun componentIndex => [uint32 componentIndex]));
            [by eapply emits_isOpen | lia | done]. }
        intros out' b3 [Hl' He']. rewrite length_upto in Hl'.
        split; [unfold getNominalSize in *; lia |].
        eapply extracts_trans; [exact He |]. by eapply extracts_emits0. }
      simpl in Hty. rewrite Hty.
      wp_seq. apply wp_ASSERT; [done |].
      wp_seq. apply getSpirvTypeData_spec. intros ty b2 H2 _ _.
      eapply wp_mono.
      { apply (extract_matrix_loop_spec componentCount parameters ty p);
          [by eapply emits_isOpen | lia | done]. }
      intros out' b3 [Hl' He']. split; [lia |].
      eapply extracts_trans; [exact He |]. by eapply extracts_emits0.
  - intros out b' [Hl He]. apply HQ; [| done].
    rewrite Hl. f_equal.
    apply (sum_list_with_indexed
             (fun argument => componentCountOf (getType argument)) arguments
             (fun i => i)).
Qed.
End Extract2.

(** X10.  [extractComponents] returns exactly the components asked for,
    when the arguments have them, and never more: for arguments that are
    scalars, vectors or matrices, as many as parameters, the list it returns
    has [componentCount] entries or, if the arguments together have fewer
    components, as many as they have; every entry is a parameter or the
    result of an [OpCompositeExtract] from a parameter, and these
    extractions are all the code written. *)
Theorem extractComponents_count (node : TIntermNode) (componentCount : nat)
    (parameters : list IdRef) (b : SPIRVBuilder) :
  length (getSequence node) = length parameters ->
  Forall (fun argument =>
            isScalar (getType argument) || isVector (getType argument)
            || isMatrix (getType argument) = true) (getSequence node) ->
  isOpen b = true ->
  wp (extractComponents node componentCount parameters) b
    (fun out b' =>
       length out
       = (componentCount
            `min` sum_list_with (fun argument =>
                                   componentCountOf (getType argument))
                    (getSequence node))%nat
       /\ extracts parameters [] b out b').
Proof.
  intros Hlen Hall Hopen. by apply extractComponents_spec.
Qed.

Lemma extractComponents_count_witness :
  let node :=
    TIntermAggregate EOpConstruct (floatMatrix 3 1) None
      [symbolOf (floatMatrix 2 1); symbolOf floatScalar] in
  wp (extractComponents node 3 [7%N; 8%N]) builder0
    (fun out b' =>
       length out
       = (3 `min` sum_list_with (fun argument =>
                                   componentCountOf (getType argument))
                    (getSequence node))%nat
       /\ extracts [7%N; 8%N] [] builder0 out b').
Proof.
  apply extractComponents_count; [reflexivity | | reflexivity].
  repeat constructor.
Defined.

(** X11.  [vecN(v1.zy, v2.x)] and [vecN(m)]: when the arguments are scalars,
    vectors or matrices with at least N components between them, the
    constructor emits the extractions of [extractComponents] and then one
    [OpCompositeConstruct] of exactly N components, each a parameter or
    extracted from a parameter. *)
Theorem createConstructorVectorFromNonScalar_components (node : TIntermNode)
    (typeId : IdRef) (parameters : list IdRef) (b : SPIRVBuilder) :
  let size := Z.to_nat (getNominalSize (getType node)) in
  length (getSequence node) = length parameters ->
  Forall (fun argument =>
            isScalar (getType argument) || isVector (getType argument)
            || isMatrix (getType argument) = true) (getSequence node) ->
  (size <= sum_list_with (fun argument => componentCountOf (getType argument))
             (getSequence node))%nat ->
  isOpen b = true ->
  wp (createConstructorVectorFromNonScalar node typeId parameters) b
    (fun result b' =>
       exists components insE,
         length components = size
         /\ Forall (extractsFrom parameters) insE
         /\ Forall (componentFrom parameters insE) components
         /\ emits b b'
              (insE ++ [OpCompositeConstruct typeId result components])).
Proof.
  intros size Hlen Hall Hsize Hopen.
  unfold createConstructorVectorFromNonScalar.
  wp_seq. apply extractComponents_spec; [done | done | done |].
  intros out b1 Hl (new & insE & -> & He & Hf & Hc). simpl in *.
  wp_seq. apply getNewId_spec. intros b2 H2 _ _.
  wp_seq. apply write_spec.
  { eapply emits_isOpen; [exact H2 |]. by eapply emits_isOpen. }
  intros b3 H3. wp_step.
  exists new, insE. split_and!; [fold size in Hl; lia | done | done |].
  eapply emits_trans; [exact He |]. by eapply emits_nil_l.
Qed.

Lemma createConstructorVectorFromNonScalar_components_witness :
  let node :=
    TIntermAggregate EOpConstruct (floatMatrix 3 1) None
      [symbolOf (floatMatrix 2 1); symbolOf floatScalar] in
  wp (createConstructorVectorFromNonScalar node 2%N [7%N; 8%N]) builder0
    (fun result b' =>
       exists components insE,
         length components = 3%nat
         /\ Forall (extractsFrom [7%N; 8%N]) insE
         /\ Forall (componentFrom [7%N; 8%N] insE) components
         /\ emits builder0 b'
              (insE ++ [OpCompositeConstruct 2%N result components])).
Proof.
  apply (createConstructorVectorFromNonScalar_components
           (TIntermAggregate EOpConstruct (floatMatrix 3 1) None
              [symbolOf (floatMatrix 2 1); symbolOf floatScalar]));
    [reflexivity | repeat constructor | simpl; lia | reflexivity].
Defined.

(** X12.  [matNxM(v1.zy, v2.x, ...)]: when the arguments are scalars,
    vectors or matrices with at least N times M components between them,
    the constructor extracts exactly N times M components, emits one
    [OpCompositeConstruct] per column, column [c] taking the M components
    from position [c] times M on, and then one [OpCompositeConstruct] of
    the N columns. *)
Theorem createConstructorMatrixFromVectors_columns (node : TIntermNode)
    (typeId : IdRef) (parameters : list IdRef) (b : SPIRVBuilder) :
  let cols := Z.to_nat (getCols (getType node)) in
  let rows := Z.to_nat (getRows (getType node)) in
  0 <= getCols (getType node) ->
  0 <= getRows (getType node) ->
  length (getSequence node) = length parameters ->
  Forall (fun argument =>
            isScalar (getType argument) || isVector (getType argument)
            || isMatrix (getType argument) = true) (getSequence node) ->
  (cols * rows
   <= sum_list_with (fun argument => componentCountOf (getType argument))
        (getSequence node))%nat ->
  isOpen b = true ->
  wp (createConstructorMatrixFromVectors node typeId parameters) b
    (fun result b' =>
       exists components insE columnTypeId columnIds,
         length components = (cols * rows)%nat
         /\ length columnIds = cols
         /\ Forall (extractsFrom parameters) insE
         /\ Forall (componentFrom parameters insE) components
         /\ emits b b'
              (insE
               ++ imap (fun c columnId =>
                          OpCompositeConstruct columnTypeId columnId
                            (take rows (drop (c * rows) components)))
                    columnIds
               ++ [OpCompositeConstruct typeId result columnIds])).
Proof.
  intros cols rows Hc0 Hr0 Hlen Hall Hsize Hopen.
  unfold createConstructorMatrixFromVectors. cbv zeta.
  wp_seq. apply extractComponents_spec; [done | done | done |].
  intros out b1 Hl (new & insE & -> & He & Hf & Hcf). simpl in *.
  assert (length new = (cols * rows)%nat) as Hnew.
  { rewrite Hl. rewrite Z2Nat.inj_mul by done. fold cols rows. lia. }
  wp_seq. apply getSpirvTypeData_spec. intros columnTypeId b2 H2 _ _.
  assert (isOpen b2 = true) as Hopen2.
  { eapply emits_isOpen; [exact H2 |]. by eapply emits_isOpen. }
  wp_seq.
  set (column := fun (c : nat) (columnId : IdRef) =>
         OpCompositeConstruct columnTypeId columnId
           (take rows (drop (c * rows) new))).
  eapply wp_mono.
  - apply (wp_foldM_at _ (upto (getCols (getType node)))
             (fun done (columnIds : list IdRef) b' =>
                length columnIds = length done
                /\ emits b2 b' (imap column columnIds))
             _ []); [done | |].
    + split; [done | apply emits_refl].
    + intros done x rest columnIds b3 Hw [Hcl Hem].
      assert (x = Z.of_nat (length done)
              /\ Z.of_nat (length done) < getCols (getType node))
        as [-> Hx].
      { assert (upto (getCols (getType node)) !! length done = Some x) as Hlk
          by (rewrite Hw; by apply list_lookup_middle).
        unfold upto in Hlk. apply lookup_seqZ in Hlk as [-> ?]. lia. }
      wp_seq. apply getNewId_spec. intros b4 H4 _ _.
      replace (Z.to_nat (Z.of_nat (length done) * getRows (getType node)))
        with (length done * rows)%nat
        by (rewrite Z2Nat.inj_mul by lia; by rewrite Nat2Z.id).
      wp_seq. apply wp_ASSERT.
      { apply bool_decide_eq_true_2. fold rows. rewrite Hnew.
        assert (length done < cols)%nat by (unfold cols; lia). nia. }
      wp_seq. apply write_spec.
      { eapply emits_isOpen; [exact H4 |]. by eapply emits_isOpen. }
      intros b5 H5. wp_step. rewrite !length_app. simpl. split; [lia |].
      rewrite imap_app. simpl. rewrite Hcl, Nat.add_0_r.
      eapply emits_trans; [exact Hem |]. by eapply emits_nil_l.
  - intros columnIds b3 [Hcl Hem]. simpl.
    wp_seq. apply getNewId_spec. intros b4 H4 _ _.
    wp_seq. apply write_spec.
    { eapply emits_isOpen; [exact H4 |]. by eapply emits_isOpen. }
    intros b5 H5. wp_step.
    exists new, insE, columnTypeId, columnIds. split_and!; [done | | done | done |].
    + rewrite Hcl. by rewrite length_upto.
    + eapply emits_trans; [exact He |].
      eapply emits_nil_l; [exact H2 |].
      eapply emits_trans; [exact Hem |]. by eapply emits_nil_l.
Qed.

Lemma createConstructorMatrixFromVectors_columns_witness :
  let node :=
    TIntermAggregate EOpConstruct (floatMatrix 2 2) None
      [symbolOf (floatMatrix 2 1); symbolOf (floatMatrix 2 1)] in
  exists result b',
    createConstructorMatrixFromVectors node 2%N [7%N; 8%N] builder0
    = Ok (result, b').
Proof.
  destruct (createConstructorMatrixFromVectors_columns
              (TIntermAggregate EOpConstruct (floatMatrix 2 2) None
                 [symbolOf (floatMatrix 2 1); symbolOf (floatMatrix 2 1)])
              2%N [7%N; 8%N] builder0)
    as (result & b' & Hrun & _);
    [simpl; lia | simpl; lia | reflexivity | repeat constructor
    | simpl; lia | reflexivity |].
  by exists result, b'.
Defined.

Section MatrixFromScalarMore.
Implicit Types (b : SPIRVBuilder).

Lemma foldM_app {S A B} (f : B -> A -> M S B) (l1 l2 : list A) :
  forall (acc : B) (s : S),
    foldM f (l1 ++ l2) acc s = (foldM f l1 acc ≫= foldM f l2) s.
Proof.
  induction l1 as [|x l1 IH]; intros acc s; simpl.
  - reflexivity.
  - unfold mbind, M_bind.
    destruct (f acc x s) as [[acc' s'] | e]; [| done].
    apply IH.
Qed.
End MatrixFromScalarMore.

(** X13.  [matNxM(s)] with more columns than rows cannot be built: the
    loop over the columns writes the scalar at the index of the column in
    a list that has one entry per row, and for the first column whose
    index is not a row that write is past the end of the list. *)
Theorem createConstructorMatrixFromScalar_more_columns (node : TIntermNode)
    (typeId scalarId : IdRef) (others : list IdRef) (b : SPIRVBuilder) :
  let type := getType node in
  getBasicType type = EbtFloat \/ getBasicType type = EbtInt
  \/ getBasicType type = EbtUInt \/ getBasicType type = EbtBool ->
  0 <= getRows type < getCols type ->
  isOpen b = true ->
  createConstructorMatrixFromScalar node typeId (scalarId :: others) b
  = Err IndexOutOfRange.
Proof.
  intros type Hbt Hsize Hopen. unfold createConstructorMatrixFromScalar.
  fold type. cbv zeta.
  apply wp_then_Err. eapply wp_at_index; [done |].
  apply wp_then_Err. apply getZeroConstant_spec; [done |].
  intros zeroId b0 H0 _.
  apply wp_then_Err. apply getSpirvTypeData_spec.
  intros columnTypeId b1 H1 _ _.
  assert (isOpen b1 = true) as Hopen1.
  { eapply emits_isOpen; [exact H1 |]. by eapply emits_isOpen. }
  apply bind_Err.
  replace (upto (getCols type))
    with (upto (getRows type)
          ++ getRows type :: seqZ (Z.succ (getRows type))
                               (Z.pred (getCols type - getRows type))).
  2:{ unfold upto. symmetry.
      transitivity (seqZ 0 (getRows type + (getCols type - getRows type)));
        [f_equal; lia |].
      rewrite seqZ_app by lia. f_equal. by rewrite seqZ_cons by lia. }
  rewrite foldM_app. apply wp_then_Err.
  apply matrixFromScalar_loop_spec; [done | lia |].
  intros componentIds columnIds b2 _ Hlen _. simpl.
  apply bind_Err. apply wp_then_Err. apply getNewId_spec. intros b3 _ _ _.
  apply bind_Err. unfold set_index.
  rewrite bool_decide_eq_false_2 by lia. reflexivity.
Qed.

Lemma createConstructorMatrixFromScalar_more_columns_witness :
  createConstructorMatrixFromScalar
    (TIntermAggregate EOpConstruct (floatMatrix 4 2) None
       [symbolOf floatScalar]) 2%N [7%N] builder0
  = Err IndexOutOfRange.
Proof.
  apply (createConstructorMatrixFromScalar_more_columns
           (TIntermAggregate EOpConstruct (floatMatrix 4 2) None
              [symbolOf floatScalar]));
    [by left | simpl; lia | reflexivity].
Defined.

Lemma createConstructorMatrixFromScalar_diagonal_witness :
  exists result b',
    createConstructorMatrixFromScalar
      (TIntermAggregate EOpConstruct (floatMatrix 2 3) None
         [symbolOf floatScalar]) 2%N [7%N] builder0
    = Ok (result, b').
Proof.
  destruct (createConstructorMatrixFromScalar_diagonal
              (TIntermAggregate EOpConstruct (floatMatrix 2 3) None
                 [symbolOf floatScalar]) 2%N 7%N builder0)
    as (result & b' & Hrun & _); [by left | simpl; lia | reflexivity |].
  by exists result, b'.
Defined.

Lemma concat_imap_snoc {A B} (f : nat -> A -> list B) (l : list A) (x : A) :
  concat (imap f (l ++ [x])) = concat (imap f l) ++ f (length l) x.
Proof.
  rewrite imap_app, concat_app. simpl. by rewrite app_nil_r, Nat.add_0_r.
Qed.

(** X15.  [matNxM(m)] with [m] at least as large in both directions: the
    constructor takes the first N columns of [m], one [OpCompositeExtract]
    each, cuts each of them to its first M components with an
    [OpVectorShuffle] when [m] has more than M rows (and takes the
    extracted column itself when it has exactly M), and emits the
    [OpCompositeConstruct] of the N columns. *)
Theorem createConstructorMatrixFromMatrix_submatrix (op : TOperator)
    (type : TType) (function : option TFunction)
    (parameter : TIntermNode) (rest : list TIntermNode)
    (typeId parameter0 : IdRef) (b : SPIRVBuilder) :
  let node := TIntermAggregate op type function (parameter :: rest) in
  let parameterType := getType parameter in
  let needsSwizzle := getRows type <? getRows parameterType in
  0 <= getCols type <= getCols parameterType ->
  0 <= getRows type <= getRows parameterType ->
  getRows type <= 4 ->
  isOpen b = true ->
  wp (createConstructorMatrixFromMatrix node typeId [parameter0]) b
    (fun result b' =>
       exists paramColumnTypeId columnTypeId (columns : list (IdRef * IdRef)),
         length columns = Z.to_nat (getCols type)
         /\ (needsSwizzle = false -> Forall (fun p => p.2 = p.1) columns)
         /\ emits b b'
              (concat
                 (imap (fun c p =>
                          OpCompositeExtract paramColumnTypeId p.1 parameter0
                            [uint32 (Z.of_nat c)]
                          :: (if needsSwizzle
                              then [OpVectorShuffle columnTypeId p.2 p.1 p.1
                                      (take (Z.to_nat (getRows type))
                                         [0; 1; 2; 3]%N)]
                              else []))
                    columns)
               ++ [OpCompositeConstruct typeId result (columns.*2)])).
Proof.
  intros node parameterType needsSwizzle Hc Hr Hr4 Hopen.
  unfold parameterType in *. clear parameterType.
  unfold createConstructorMatrixFromMatrix. cbv zeta. simpl getType.
  wp_seq. apply wp_ASSERT; [done |].
  wp_seq. eapply wp_at_index; [done |].
  wp_seq. apply getSpirvTypeData_spec. intros columnTypeId b1 H1 _ _.
  rewrite (proj2 (Z.leb_le _ _) (proj2 Hc)), (proj2 (Z.leb_le _ _) (proj2 Hr)).
  simpl andb. cbv iota.
  wp_seq. wp_seq.
  apply getSpirvTypeData_spec. intros paramColumnTypeId b2 H2 _ _.
  fold needsSwizzle.
  replace (resize (Z.to_nat (getRows type)) 0%N [0%N; 1%N; 2%N; 3%N])
    with (take (Z.to_nat (getRows type)) [0; 1; 2; 3]%N).
  2:{ unfold resize. simpl length.
      replace (Z.to_nat (getRows type) - 4)%nat with 0%nat by lia.
      simpl replicate. by rewrite app_nil_r. }
  set (code := fun (c : nat) (p : IdRef * IdRef) =>
         OpCompositeExtract paramColumnTypeId p.1 parameter0
           [uint32 (Z.of_nat c)]
         :: (if needsSwizzle
             then [OpVectorShuffle columnTypeId p.2 p.1 p.1
                     (take (Z.to_nat (getRows type)) [0; 1; 2; 3]%N)]
             else [])).
  assert (isOpen b2 = true) as Hopen2.
  { eapply emits_isOpen; [exact H2 |]. by eapply emits_isOpen. }
  eapply wp_mono.
  - apply (wp_foldM_at _ (upto (getCols type))
             (fun done (columnIds : list IdRef) b' =>
                exists columns : list (IdRef * IdRef),
                  columnIds = columns.*2
                  /\ length columns = length done
                  /\ (needsSwizzle = false ->
                      Forall (fun p => p.2 = p.1) columns)
                  /\ emits b2 b' (concat (imap code columns)))
             _ []); [done | |].
    + exists []. split_and!; [done | done | done | apply emits_refl].
    + intros done x rest' columnIds b3 Hw (columns & -> & Hlen & Hsame & He).
      assert (x = Z.of_nat (length done)) as ->.
      { assert (upto (getCols type) !! length done = Some x) as Hlk
          by (rewrite Hw; by apply list_lookup_middle).
        unfold upto in Hlk. apply lookup_seqZ in Hlk as [-> ?]. lia. }
      assert (isOpen b3 = true) as Hopen3 by (by eapply emits_isOpen).
      wp_seq. apply getNewId_spec. intros b4 H4 _ _.
      wp_seq. apply write_spec; [by eapply emits_isOpen |].
      intros b5 H5.
      assert (emits b3 b5
                [OpCompositeExtract paramColumnTypeId (mNextAvailableId b3)
                   parameter0 [uint32 (Z.of_nat (length done))]]) as H35
        by (by eapply emits_nil_l).
      wp_seq. destruct needsSwizzle eqn:Hns.
      * wp_seq. apply getNewId_spec. intros b6 H6 _ _.
        wp_seq. apply write_spec.
        { eapply emits_isOpen; [exact H6 |]. by eapply emits_isOpen. }
        intros b7 H7. wp_step. wp_step.
        exists (columns ++ [(mNextAvailableId b3, mNextAvailableId b5)]).
        split_and!.
        -- by rewrite fmap_app.
        -- rewrite !length_app. simpl. lia.
        -- done.
        -- rewrite concat_imap_snoc, Hlen.
           eapply emits_trans; [exact He |]. unfold code. simpl.
           change [?x; ?y] with ([x] ++ [y]).
           eapply emits_trans; [exact H35 |]. by eapply emits_nil_l.
      * wp_step. wp_step.
        exists (columns ++ [(mNextAvailableId b3, mNextAvailableId b3)]).
        split_and!.
        -- by rewrite fmap_app.
        -- rewrite !length_app. simpl. lia.
        -- intros _. apply Forall_app. split; [by apply Hsame |].
           by repeat constructor.
        -- rewrite concat_imap_snoc, Hlen.
           eapply emits_trans; [exact He |]. exact H35.
  - intros columnIds b3 (columns & -> & Hlen & Hsame & He).
    wp_seq. apply getNewId_spec. intros b4 H4 _ _.
    wp_seq. apply write_spec.
    { eapply emits_isOpen; [exact H4 |]. by eapply emits_isOpen. }
    intros b5 H5. wp_step.
    exists paramColumnTypeId, columnTypeId, columns. split_and!.
    + rewrite Hlen. apply length_upto.
    + done.
    + eapply emits_nil_l; [eapply emits_nil_r; [exact H1 | exact H2] |].
      eapply emits_trans; [exact He |]. by eapply emits_nil_l.
Qed.

Lemma createConstructorMatrixFromMatrix_submatrix_witness :
  exists result b',
    createConstructorMatrixFromMatrix
      (TIntermAggregate EOpConstruct (floatMatrix 2 2) None
         [symbolOf (floatMatrix 3 3)]) 2%N [7%N] builder0
    = Ok (result, b').
Proof.
  destruct (createConstructorMatrixFromMatrix_submatrix EOpConstruct
              (floatMatrix 2 2) None (symbolOf (floatMatrix 3 3)) [] 2%N 7%N
              builder0)
    as (result & b' & Hrun & _);
    [simpl; lia | simpl; lia | simpl; lia | reflexivity |].
  by exists result, b'.
Defined.
Section Constructor.
Implicit Types (t : OutputSPIRVTraverser) (b : SPIRVBuilder).

Lemma loadsAll_emits params b values params' ins b' :
  loadsAll params b values params' ins b' ->
  emits b b' ins /\ length params' = length params
  /\ length values = length params.
Proof.
  induction 1 as [b | ? ? ? ? ? ? ? ? ? ? ? Hl He Hall (IH1 & IH2 & IH3)].
  - split_and!; [apply emits_refl | done | done].
  - split_and!; [by eapply emits_trans | simpl; lia | simpl; lia].
Qed.

(** The loop of [createConstructor] that loads the arguments. *)
Lemma createConstructor_parameters_spec (parameterCount : nat)
    (below : list NodeData) :
  forall (rest : list NodeData) (done' : list NodeData) (values : list IdRef)
         t Q,
    mNodeData t = below ++ done' ++ rest ->
    (length done' + length rest = parameterCount)%nat ->
    Forall load_invariants rest ->
    isOpen (mBuilder t) = true ->
    (forall values' rest' ins t',
        loadsAll rest (mBuilder t) values' rest' ins (mBuilder t') ->
        mNodeData t' = below ++ done' ++ rest' ->
        Q (values ++ values') t') ->
    wp (foldM (fun parameters paramIndex =>
                 slot ← paramSlot parameterCount paramIndex;
                 paramValue ← onNodeData slot accessChainLoad;
                 mret (parameters ++ [paramValue]))
          (seq (length done') (length rest)) values) t Q.
Proof.
  induction rest as [|data rest IH]; intros done' values t Q Hs Hlen Hinv Hopen HQ.
  - simpl. wp_step. rewrite <- (app_nil_r values).
    apply (HQ [] [] []); [constructor | done].
  - simpl. apply Forall_cons in Hinv as [Hd Hrest].
    assert (length (mNodeData t)
            = (length below + length done' + S (length rest))%nat) as Hl
      by (rewrite Hs, !length_app; simpl; lia).
    simpl in Hlen.
    wp_seq. wp_seq. apply wp_paramSlot; [lia |].
    replace (length (mNodeData t) - parameterCount + length done')%nat
      with (length (below ++ done')) by (rewrite length_app; lia).
    wp_seq. eapply wp_onNodeData.
    { rewrite Hs, app_assoc. apply list_lookup_middle. done. }
    apply accessChainLoad_spec; [done | done |].
    intros value data' b1 ins Hloads He. simpl.
    wp_step.
    replace (S (length done')) with (length (done' ++ [data']))
      by (rewrite length_app; simpl; lia).
    apply IH.
    + simpl. rewrite Hs, app_assoc.
      rewrite insert_app_r_alt by done. rewrite Nat.sub_diag. simpl.
      by rewrite <- !app_assoc.
    + rewrite length_app. simpl. lia.
    + done.
    + simpl. by eapply emits_isOpen.
    + intros values' rest' inss t' Hall Hs'. simpl in Hall.
      rewrite <- app_assoc. simpl.
      apply (HQ (value :: values') (data' :: rest') (ins ++ inss)).
      * by econstructor.
      * rewrite Hs'. by rewrite <- app_assoc.
Qed.
End Constructor.

(** X20.  [createConstructor] loads every argument in order through its
    record on the stack, and then: for an array or a struct it emits one
    [OpCompositeConstruct] of the values; for a scalar it returns the value
    of the first argument and emits nothing more; for a vector built from
    one scalar it emits one [OpCompositeConstruct] that repeats the value
    once per component. *)
Theorem createConstructor_dispatch (op : TOperator) (type : TType)
    (function : option TFunction) (argument0 : TIntermNode)
    (arguments : list TIntermNode) (typeId : IdRef)
    (t : OutputSPIRVTraverser) (below params : list NodeData) :
  let node := TIntermAggregate op type function (argument0 :: arguments) in
  mNodeData t = below ++ params ->
  length params = S (length arguments) ->
  Forall load_invariants params ->
  isOpen (mBuilder t) = true ->
  (isArray type || isStruct type = true ->
   wp (createConstructor node typeId) t
     (fun result t' =>
        exists values params' ins b1,
          loadsAll params (mBuilder t) values params' ins b1
          /\ mNodeData t' = below ++ params'
          /\ emits (mBuilder t) (mBuilder t')
               (ins ++ [OpCompositeConstruct typeId result values])))
  /\ (isArray type || isStruct type = false ->
      isScalar type = true ->
      wp (createConstructor node typeId) t
        (fun result t' =>
           exists values params' ins,
             loadsAll params (mBuilder t) values params' ins (mBuilder t')
             /\ mNodeData t' = below ++ params'
             /\ head values = Some result))
  /\ (isArray type || isStruct type = false ->
      isScalar type = false ->
      isVector type = true ->
      arguments = [] ->
      isScalar (getType argument0) = true ->
      wp (createConstructor node typeId) t
        (fun result t' =>
           exists value params' ins b1,
             loadsAll params (mBuilder t) [value] params' ins b1
             /\ mNodeData t' = below ++ params'
             /\ emits (mBuilder t) (mBuilder t')
                  (ins ++ [OpCompositeConstruct typeId result
                             (replicate (Z.to_nat (getNominalSize type))
                                value)]))).
Proof.
  intros node Hs Hlen Hinv Hopen.
  assert (forall Q,
    (forall values params' ins t',
        loadsAll params (mBuilder t) values params' ins (mBuilder t') ->
        mNodeData t' = below ++ params' ->
        wp ((fun parameters =>
               if isArray type || isStruct type then
                 onBuilder (createArrayOrStructConstructor node typeId
                              parameters)
               else if isScalar type then at_index parameters 0
               else if isVector type then
                 if bool_decide (length (argument0 :: arguments) = 1%nat)
                    && isScalar (getType argument0)
                 then onBuilder (createConstructorVectorFromScalar type typeId
                                   parameters)
                 else onBuilder (createConstructorVectorFromNonScalar node
                                   typeId parameters)
               else
                 _ ← ASSERT (isMatrix type) Assert_visit;
                 if isScalar (getType argument0)
                 then onBuilder (createConstructorMatrixFromScalar node typeId
                                   parameters)
                 else if isMatrix (getType argument0)
                 then onBuilder (createConstructorMatrixFromMatrix node typeId
                                   parameters)
                 else onBuilder (createConstructorMatrixFromVectors node
                                   typeId parameters)) values) t' Q) ->
    wp (createConstructor node typeId) t Q) as Hhead.
  { intros Q HQ. unfold createConstructor. cbv zeta. simpl getSequence.
    simpl getChildCount. simpl getType.
    wp_seq. eapply wp_at_index; [done |].
    wp_seq. rewrite <- Hlen.
    apply (createConstructor_parameters_spec (length params) below
             params [] []);
      [done | simpl; lia | done | done |].
    intros values params' ins t' Hall Hs'. simpl. by eapply HQ. }
  split_and!.
  - intros Hty. apply Hhead. intros values params' ins t' Hall Hs'.
    rewrite Hty. apply wp_onBuilder. unfold createArrayOrStructConstructor.
    destruct (loadsAll_emits _ _ _ _ _ _ Hall) as (He & _ & _).
    wp_seq. apply getNewId_spec. intros b2 H2 _ _.
    wp_seq. apply write_spec.
    { eapply emits_isOpen; [exact H2 |]. by eapply emits_isOpen. }
    intros b3 H3. wp_step. simpl.
    exists values, params', ins, (mBuilder t'). split_and!; [done | done |].
    eapply emits_trans; [exact He |]. by eapply emits_nil_l.
  - intros Hty Hsc. apply Hhead. intros values params' ins t' Hall Hs'.
    rewrite Hty, Hsc.
    destruct (loadsAll_emits _ _ _ _ _ _ Hall) as (_ & _ & Hlv).
    destruct values as [|value values]; [simpl in Hlv; lia |].
    eapply wp_at_index; [done |].
    by exists (value :: values), params', ins.
  - intros Hty Hsc Hvec -> Harg. apply Hhead.
    intros values params' ins t' Hall Hs'.
    rewrite Hty, Hsc, Hvec, Harg. simpl.
    destruct (loadsAll_emits _ _ _ _ _ _ Hall) as (He & _ & Hlv).
    destruct values as [|value [|? ?]]; simpl in Hlv, Hlen; [lia | | lia].
    apply wp_onBuilder. unfold createConstructorVectorFromScalar.
    wp_seq. apply wp_ASSERT; [done |].
    wp_seq. eapply wp_at_index; [done |].
    wp_seq. apply getNewId_spec. intros b2 H2 _ _.
    wp_seq. apply write_spec.
    { eapply emits_isOpen; [exact H2 |]. by eapply emits_isOpen. }
    intros b3 H3. wp_step. simpl.
    exists value, params', ins, (mBuilder t'). split_and!; [done | done |].
    eapply emits_trans; [exact He |]. by eapply emits_nil_l.
Qed.

Lemma createConstructor_dispatch_witness :
  exists result t',
    createConstructor
      (TIntermAggregate EOpConstruct (floatMatrix 3 1) None
         [symbolOf floatScalar]) 2%N
      {| mBuilder := builder0;
         mNodeData := [NodeData_default; nodeDataInitRValue 7%N 1%N];
         mSymbolIdMap := ∅; mIsSymbolBeingDeclared := false;
         mInGlobalScope := false |}
    = Ok (result, t').
Proof.
  destruct (createConstructor_dispatch EOpConstruct (floatMatrix 3 1) None
              (symbolOf floatScalar) [] 2%N
              {| mBuilder := builder0;
                 mNodeData := [NodeData_default; nodeDataInitRValue 7%N 1%N];
                 mSymbolIdMap := ∅; mIsSymbolBeingDeclared := false;
                 mInGlobalScope := false |}
              [NodeData_default] [nodeDataInitRValue 7%N 1%N]
              eq_refl eq_refl)
    as (_ & _ & H); [| reflexivity |].
  { repeat constructor; simpl; intros; done. }
  destruct (H eq_refl eq_refl eq_refl eq_refl eq_refl)
    as (result & t' & Hrun & _).
  by exists result, t'.
Defined.

(** * Further properties of the traverser *)

Section Keeps.
Context (P : OutputSPIRVTraverser -> Prop).
Implicit Types (t : OutputSPIRVTraverser).

Lemma keeps_ret {A} (phi : A -> Prop) (a : A) : phi a -> keeps P phi (mret a).
Proof. intros Ha t Ht. by apply post_ret. Qed.

Lemma keeps_fail {A} (phi : A -> Prop) e : keeps P phi (fail e).
Proof. intros t Ht. done. Qed.

Lemma keeps_bind {A B} (phi : A -> Prop) (psi : B -> Prop)
    (m : M OutputSPIRVTraverser A) (f : A -> M OutputSPIRVTraverser B) :
  keeps P phi m -> (forall a, phi a -> keeps P psi (f a)) ->
  keeps P psi (m ≫= f).
Proof.
  intros Hm Hf t Ht. apply post_bind.
  eapply post_mono; [by apply Hm | | done].
  intros a t' [Ht' Ha]. by apply Hf.
Qed.

Lemma keeps_weaken {A} (phi psi : A -> Prop) (m : M OutputSPIRVTraverser A) :
  keeps P phi m -> (forall a, phi a -> psi a) -> keeps P psi m.
Proof.
  intros Hm Himp t Ht. eapply post_mono; [by apply Hm | | done].
  intros a t' [Ht' Ha]. auto.
Qed.

Lemma keeps_ASSERT (c : bool) e : keeps P (fun _ => True) (ASSERT c e).
Proof. intros t Ht. by apply post_ASSERT. Qed.

Lemma keeps_at_index {A} (l : list A) (i : nat) :
  keeps P (fun _ => True) (at_index l i).
Proof. intros t Ht. unfold at_index. by destruct (l !! i). Qed.

Lemma keeps_set_index {A} (l : list A) (i : nat) (x : A) :
  keeps P (fun _ => True) (set_index l i x).
Proof. intros t Ht. unfold set_index. by case_bool_decide. Qed.

Lemma keeps_get : keeps P P get.
Proof. intros t Ht. done. Qed.

Lemma keeps_foldM {A B} (phi : B -> Prop) (f : B -> A -> M OutputSPIRVTraverser B)
    (l : list A) :
  (forall acc x, phi acc -> keeps P phi (f acc x)) ->
  forall acc, phi acc -> keeps P phi (foldM f l acc).
Proof.
  intros Hf. induction l as [|x l IH]; intros acc Hacc; simpl.
  - by apply keeps_ret.
  - eapply keeps_bind; [by apply Hf |]. intros acc' Hacc'. by apply IH.
Qed.
End Keeps.

Section Framed.
Context (l0 : list NodeData) (k : nat).
Implicit Types (t : OutputSPIRVTraverser).

Lemma keeps_onBuilder {A} (m : M SPIRVBuilder A) :
  keeps (framed l0 k) (fun _ => True) (onBuilder m).
Proof.
  intros t Ht. unfold post, onBuilder.
  by destruct (m (mBuilder t)) as [[a b']|e].
Qed.

Lemma keeps_paramSlot (parameterCount paramIndex : nat) :
  parameterCount = k ->
  keeps (framed l0 k) (fun slot => (length l0 - k <= slot)%nat)
    (paramSlot parameterCount paramIndex).
Proof.
  intros -> t Ht. unfold post, paramSlot, get, mbind, M_bind.
  case_bool_decide; [| done]. simpl. split; [done |].
  destruct Ht as [-> _]. lia.
Qed.

Lemma keeps_onNodeData {A} (slot : nat)
    (f : NodeData -> M SPIRVBuilder (A * NodeData)) :
  (length l0 - k <= slot)%nat ->
  keeps (framed l0 k) (fun _ => True) (onNodeData slot f).
Proof.
  intros Hslot t [Hlen Htake]. unfold post, onNodeData, get, at_index.
  unfold mbind, M_bind at 1. unfold mbind, M_bind at 1.
  destruct (mNodeData t !! slot) as [data|]; [| done].
  unfold mret, M_ret at 1. unfold mbind, M_bind at 1. unfold onBuilder.
  destruct (f data (mBuilder t)) as [[[a data'] b']|e]; [| done].
  simpl. split; [| done]. split; simpl.
  - by rewrite length_insert.
  - by rewrite take_insert_ge.
Qed.
End Framed.

Ltac keeps_step :=
  lazymatch goal with
  | |- keeps _ _ (mret _) => apply keeps_ret; try exact I
  | |- keeps _ _ (fail _) => apply keeps_fail
  | |- keeps _ _ UNIMPLEMENTED => apply keeps_fail
  | |- keeps _ _ (paramSlot _ _ ≫= _) =>
      eapply keeps_bind; [apply keeps_paramSlot; reflexivity | intros ? ?]
  | |- keeps _ _ (get ≫= _) =>
      eapply keeps_bind; [apply keeps_get | intros ? ?]
  | |- keeps _ _ (_ ≫= _) =>
      eapply (keeps_bind _ (fun _ => True)); [| intros ? _]
  | |- keeps _ _ (ASSERT _ _) => apply keeps_ASSERT
  | |- keeps _ _ (at_index _ _) => apply keeps_at_index
  | |- keeps _ _ (set_index _ _ _) => apply keeps_set_index
  | |- keeps _ _ (onBuilder _) => apply keeps_onBuilder
  | |- keeps _ _ (onNodeData _ _) => apply keeps_onNodeData; assumption
  | |- keeps _ _ (foldM _ _ _) =>
      apply (keeps_foldM _ (fun _ => True)); [intros ? ? _ | exact I]
  | |- keeps _ _ (if ?c then _ else _) => destruct c
  | |- keeps _ _ (match ?x with _ => _ end) => destruct x
  | |- keeps _ _ (let _ := _ in _) => cbv zeta
  end.

Section Creators.
Context (l0 : list NodeData).
Implicit Types (t : OutputSPIRVTraverser) (node : TIntermNode).

Lemma keeps_createConstructor node typeId :
  keeps (framed l0 (getChildCount node)) (fun _ => True)
    (createConstructor node typeId).
Proof. unfold createConstructor. repeat keeps_step. Qed.

Lemma keeps_createFunctionCall node resultTypeId :
  keeps (framed l0 (getChildCount node)) (fun _ => True)
    (createFunctionCall node resultTypeId).
Proof.
  unfold createFunctionCall.
  repeat (keeps_step
          || unfold createFunctionCall_parameter, createFunctionCall_copyBack).
Qed.

Lemma keeps_createAtomicBuiltIn node resultTypeId :
  keeps (framed l0 (getChildCount node)) (fun _ => True)
    (createAtomicBuiltIn node resultTypeId).
Proof. unfold createAtomicBuiltIn. repeat keeps_step. Qed.
End Creators.

Section AggregateResult.
Implicit Types (t : OutputSPIRVTraverser) (node : TIntermNode).

Lemma bind_Ok_inv {S A B} (m : M S A) (f : A -> M S B) s r :
  (m ≫= f) s = Ok r -> exists a s1, m s = Ok (a, s1) /\ f a s1 = Ok r.
Proof.
  unfold mbind, M_bind. destruct (m s) as [[a s1]|e]; [| done].
  intros H. by exists a, s1.
Qed.

Lemma ASSERT_Ok_inv {S} (c : bool) e (s s' : S) u :
  ASSERT c e s = Ok (u, s') -> c = true /\ s' = s.
Proof. unfold ASSERT. destruct c; [| done]. intros H. by inversion H. Qed.

Lemma keeps_run {A} (P : OutputSPIRVTraverser -> Prop) (phi : A -> Prop)
    (m : M OutputSPIRVTraverser A) t a t' :
  keeps P phi m -> P t -> m t = Ok (a, t') -> P t'.
Proof.
  intros Hk HP Hrun. specialize (Hk t HP). unfold post in Hk.
  rewrite Hrun in Hk. by destruct Hk.
Qed.
End AggregateResult.

(** X16.  The post-visit of an aggregate (a constructor, a call or an
    atomic built-in) pops exactly its parameters: if it returns, it tells
    the walker to stop, the records below the node's own are as they were,
    and the node's own record is left on top; unless the node is of type
    void that record is the rvalue of the id the creator of the node
    returned ([createConstructor], [createFunctionCall] or
    [createAtomicBuiltIn], by the operator), typed with the interned type
    of the node, and the builder is as the creator left it. *)
Theorem visitAggregate_leaves_own_record (node : TIntermNode)
    (t t' : OutputSPIRVTraverser) (v : bool) :
  visitAggregate PostVisit node t = Ok (v, t') ->
  v = false
  /\ exists below own typeId t1 result t2,
      take (length (mNodeData t) - getChildCount node) (mNodeData t)
      = below ++ [own]
      /\ onBuilder (getTypeData (getType node) EbsUnspecified) t
         = Ok (typeId, t1)
      /\ (getOp node = EOpConstruct ->
          createConstructor node typeId t1 = Ok (result, t2))
      /\ (getOp node = EOpCallFunctionInAST ->
          createFunctionCall node typeId t1 = Ok (result, t2))
      /\ (getOp node <> EOpConstruct ->
          getOp node <> EOpCallFunctionInAST ->
          createAtomicBuiltIn node typeId t1 = Ok (result, t2))
      /\ mBuilder t' = mBuilder t2
      /\ mNodeData t'
         = below
           ++ [if bool_decide (getBasicType (getType node) = EbtVoid)
               then own else nodeDataInitRValue result typeId].
Proof.
  unfold visitAggregate. intros Hrun.
  apply bind_Ok_inv in Hrun as ([] & t0 & Hassert & Hrun).
  apply ASSERT_Ok_inv in Hassert as [_ ->].
  simpl bool_decide in Hrun. cbv iota in Hrun.
  apply bind_Ok_inv in Hrun as (tg & t0 & Hget & Hrun).
  inversion Hget; subst tg t0; clear Hget.
  apply bind_Ok_inv in Hrun as ([] & t0 & Hassert & Hrun).
  apply ASSERT_Ok_inv in Hassert as [Hlt ->].
  apply bool_decide_eq_true_1 in Hlt.
  apply bind_Ok_inv in Hrun as (typeId & t1 & Htype & Hrun).
  apply bind_Ok_inv in Hrun as (result & t2 & Hcreate & Hrun).
  assert (framed (mNodeData t) (getChildCount node) t1) as Hf1.
  { eapply (keeps_run _ _ _ t);
      [apply (keeps_onBuilder (mNodeData t) (getChildCount node)) | by split
      | exact Htype]. }
  assert (framed (mNodeData t) (getChildCount node) t2) as [Hlen Htake].
  { destruct (getOp node) eqn:Hop;
      first [by eapply (keeps_run _ _ _ t1);
                [apply keeps_createConstructor | exact Hf1 | exact Hcreate]
            | by eapply (keeps_run _ _ _ t1);
                [apply keeps_createFunctionCall | exact Hf1 | exact Hcreate]
            | by eapply (keeps_run _ _ _ t1);
                [apply keeps_createAtomicBuiltIn | exact Hf1 | exact Hcreate]
            | done]. }
  apply bind_Ok_inv in Hrun as ([] & t3 & Hpop & Hrun).
  inversion Hpop; subst t3; clear Hpop.
  apply bind_Ok_inv in Hrun as ([] & t4 & Hset & Hrun).
  inversion Hrun; subst v t'; clear Hrun.
  split; [done |].
  set (n := (length (mNodeData t) - getChildCount node)%nat) in *.
  destruct (take n (mNodeData t)) as [|own below _] eqn:Et using rev_ind.
  { apply (f_equal length) in Et. rewrite length_take in Et. simpl in Et.
    lia. }
  assert (take (length (mNodeData t2) - getChildCount node) (mNodeData t2)
          = below ++ [own]) as Ht2 by (by rewrite Hlen).
  exists below, own, typeId, t1, result, t2.
  split; [done |]. split; [done |].
  split; [by intros Hop; rewrite Hop in Hcreate |].
  split; [by intros Hop; rewrite Hop in Hcreate |].
  split.
  { intros Hc Hf. by destruct (getOp node). }
  case_bool_decide as Hvoid; simpl negb in Hset; cbv iota in Hset.
  - inversion Hset; subst t4; clear Hset. simpl. by rewrite Ht2.
  - unfold setBack in Hset.
    apply bind_Ok_inv in Hset as (slot & t5 & Hslot & Hset).
    unfold backSlot in Hslot.
    apply bind_Ok_inv in Hslot as (tg & t6 & Hget & Hslot).
    inversion Hget; subst tg t6; clear Hget.
    simpl in Hslot. rewrite Ht2 in Hslot.
    rewrite bool_decide_eq_false_2 in Hslot by (by destruct below).
    inversion Hslot; subst slot t5; clear Hslot.
    inversion Hset; subst t4; clear Hset. simpl. rewrite Ht2.
    split; [done |].
    rewrite length_app. simpl.
    replace (length below + 1 - 1)%nat with (length below + 0)%nat by lia.
    by rewrite insert_app_r.
Qed.

Lemma visitAggregate_leaves_own_record_witness :
  exists t' typeId t1 result t2,
    visitAggregate PostVisit call_atomicCompSwap traverser_atomicCompSwap
    = Ok (false, t')
    /\ createAtomicBuiltIn call_atomicCompSwap typeId t1 = Ok (result, t2)
    /\ mNodeData t' = [nodeDataInitRValue result typeId].
Proof.
  assert (exists v t',
             visitAggregate PostVisit call_atomicCompSwap
               traverser_atomicCompSwap = Ok (v, t')) as (v & t' & Hrun)
    by (vm_compute; eauto).
  destruct (visitAggregate_leaves_own_record _ _ _ _ Hrun)
    as (-> & below & own & typeId & t1 & result & t2 & Htake & _ & _ & _
        & Hatomic & _ & Hstack).
  exists t', typeId, t1, result, t2.
  split; [exact Hrun |]. split; [by apply Hatomic |].
  rewrite Hstack.
  change (take _ _) with ([] ++ [NodeData_default]) in Htake.
  apply app_inj_tail in Htake as [<- _]. reflexivity.
Defined.

Section SwizzleMore.
Implicit Types (t : OutputSPIRVTraverser).

Lemma wp_backSlot t (stack : list NodeData) (back : NodeData) Q :
  mNodeData t = stack ++ [back] ->
  Q (length stack) t ->
  wp backSlot t Q.
Proof.
  intros Hs HQ. unfold backSlot. wp_seq. wp_step. rewrite Hs.
  rewrite bool_decide_eq_false_2 by (by destruct stack).
  wp_step. rewrite length_app. simpl.
  by replace (length stack + 1 - 1)%nat with (length stack) by lia.
Qed.

Lemma lookup_back (stack : list NodeData) (back : NodeData) :
  (stack ++ [back]) !! length stack = Some back.
Proof. by apply list_lookup_middle. Qed.

Lemma insert_back (stack : list NodeData) (back data : NodeData) :
  <[length stack := data]> (stack ++ [back]) = stack ++ [data].
Proof.
  replace (length stack) with (length stack + 0)%nat by lia.
  by rewrite insert_app_r.
Qed.
End SwizzleMore.

(** X17.  A swizzle that is not the identity emits nothing at its node: at
    the post-visit the record on top of the stack, that of the operand, is
    replaced by the record with the swizzle pushed (a literal index for one
    component, a pending swizzle otherwise), the type of the swizzled
    expression is interned, and the current block is left as it was; when a
    swizzle is already pending on the operand the visit stops at the
    assertion of [accessChainPushSwizzle]. *)
Theorem visitSwizzle_pushes (type : TType) (operand : TIntermNode)
    (swizzle : list Z) (t : OutputSPIRVTraverser) (stack : list NodeData)
    (back : NodeData) :
  let node := TIntermSwizzle type operand swizzle in
  let n := Z.to_N (getNominalSize (getType operand) mod 2 ^ 8) in
  hasConstantValue operand = false ->
  mNodeData t = stack ++ [back] ->
  isIdentitySwizzle n swizzle = false ->
  (swizzles (accessChain back) <> [] ->
   visitSwizzle PostVisit node t = Err Assert_pushSwizzle_empty)
  /\ (swizzles (accessChain back) = [] ->
      wp (visitSwizzle PostVisit node) t
        (fun v t' =>
           v = true
           /\ exists typeId,
               mTypeMap (mBuilder t')
                 !! getSpirvType type (baseBlockStorage (accessChain back))
               = Some typeId
               /\ emits (mBuilder t) (mBuilder t') []
               /\ mNodeData t'
                  = stack
                    ++ [match swizzle with
                        | [s0] =>
                            accessChainPushLiteral back (uint32 s0) typeId
                        | _ =>
                            on_accessChain
                              (set_swizzledVectorComponentCount n)
                              (on_accessChain (set_postSwizzleTypeId typeId)
                                 (on_accessChain
                                    (fun a =>
                                       set_swizzles
                                         (swizzles a ++ map uint32 swizzle) a)
                                    back))
                        end])).
Proof.
  intros node n Hc Hs Hid. unfold node, visitSwizzle. simpl hasConstantValue.
  rewrite Hc. fold n. rewrite Hid. simpl bool_decide. cbv iota.
  split.
  - intros Hpending.
    apply wp_then_Err. apply wp_ASSERT; [done |].
    apply wp_then_Err. apply wp_ASSERT; [done |].
    apply wp_then_Err. wp_step.
    apply wp_then_Err. apply wp_ASSERT.
    { apply bool_decide_eq_true_2. rewrite Hs, length_app. simpl. lia. }
    apply wp_then_Err. eapply wp_backSlot; [exact Hs |].
    apply wp_then_Err. eapply wp_at_index; [rewrite Hs; apply lookup_back |].
    apply wp_then_Err. apply wp_onBuilder. unfold getTypeData.
    apply getSpirvTypeData_spec. intros typeId b' He Hty _.
    apply bind_Err. unfold onNodeData.
    apply wp_then_Err. wp_step.
    apply wp_then_Err.
    eapply wp_at_index; [simpl; rewrite Hs; apply lookup_back |].
    apply bind_Err. unfold onBuilder. simpl.
    by rewrite (bind_Err _ _ _ _
                  (accessChainPushSwizzle_pending back swizzle typeId n b'
                     Hpending)).
  - intros Hnone.
    wp_seq. apply wp_ASSERT; [done |].
    wp_seq. apply wp_ASSERT; [done |].
    wp_seq. wp_step.
    wp_seq. apply wp_ASSERT.
    { apply bool_decide_eq_true_2. rewrite Hs, length_app. simpl. lia. }
    wp_seq. eapply wp_backSlot; [exact Hs |].
    wp_seq. eapply wp_at_index; [rewrite Hs; apply lookup_back |].
    wp_seq. apply wp_onBuilder. unfold getTypeData.
    apply getSpirvTypeData_spec. intros typeId b' He Hty _.
    wp_seq. eapply wp_onNodeData; [simpl; rewrite Hs; apply lookup_back |].
    simpl. wp_seq.
    eapply wp_Ok; [by apply accessChainPushSwizzle_run |].
    wp_step. simpl. wp_step. split; [done |].
    exists typeId. split_and!; [done | done |].
    simpl. rewrite Hs. by rewrite insert_back.
Qed.

Lemma visitSwizzle_pushes_witness :
  exists t',
    visitSwizzle PostVisit
      (TIntermSwizzle (floatMatrix 2 1) (symbolOf (floatMatrix 4 1)) [2; 0])
      {| mBuilder := builder0;
         mNodeData :=
           [nodeDataInitLValue 5%N 2%N StorageClassFunction EbsUnspecified];
         mSymbolIdMap := ∅; mIsSymbolBeingDeclared := false;
         mInGlobalScope := false |}
    = Ok (true, t').
Proof.
  destruct (proj2 (visitSwizzle_pushes (floatMatrix 2 1)
                     (symbolOf (floatMatrix 4 1)) [2; 0]
                     {| mBuilder := builder0;
                        mNodeData :=
                          [nodeDataInitLValue 5%N 2%N StorageClassFunction
                             EbsUnspecified];
                        mSymbolIdMap := ∅; mIsSymbolBeingDeclared := false;
                        mInGlobalScope := false |}
                     []
                     (nodeDataInitLValue 5%N 2%N StorageClassFunction
                        EbsUnspecified)
                     eq_refl eq_refl eq_refl) eq_refl)
    as (v & t' & Hrun & -> & _).
  by exists t'.
Defined.

Section BranchMore.
Implicit Types (t : OutputSPIRVTraverser) (b : SPIRVBuilder).

Lemma isOpen_blocks b :
  isOpen b = true -> mSpirvCurrentFunctionBlocks b <> [].
Proof. unfold isOpen. intros H Hb. by rewrite Hb in H. Qed.

Lemma terminateCurrentFunctionBlock_spec b Q :
  mSpirvCurrentFunctionBlocks b <> [] ->
  (forall b',
      currentBody b' = currentBody b ->
      functionVariables b' = functionVariables b ->
      isOpen b' = false ->
      mSpirvFunctions b' = mSpirvFunctions b ->
      Q tt b') ->
  wp terminateCurrentFunctionBlock b Q.
Proof.
  intros Hb HQ. unfold terminateCurrentFunctionBlock.
  wp_seq. wp_step. wp_seq.
  apply wp_ASSERT; [by rewrite bool_decide_eq_false_2 |].
  wp_step. apply HQ.
  - rewrite !currentBody_last. simpl. rewrite last_on_back.
    by destruct (last (mSpirvCurrentFunctionBlocks b)).
  - rewrite !functionVariables_head. simpl.
    by rewrite (head_on_back _ localVariables).
  - rewrite isOpen_last. simpl. rewrite last_on_back.
    destruct (last (mSpirvCurrentFunctionBlocks b)) eqn:E; [done |].
    by apply last_None in E.
  - done.
Qed.
End BranchMore.

(** X18.  [return] at its post-visit.  Without an expression it writes
    [OpReturn] to the open block and terminates the block, and the stack
    stays as it is, with the record the pre-visit pushed on top.  With an
    expression, whose record is on top of the node's own, it loads the
    value, pops the record of the expression, writes [OpReturnValue] of the
    value and terminates the block. *)
Theorem visitBranch_return (t : OutputSPIRVTraverser) :
  isOpen (mBuilder t) = true ->
  wp (visitBranch PostVisit (TIntermBranch EOpReturn None)) t
    (fun v t' =>
       v = true
       /\ mNodeData t' = mNodeData t
       /\ currentBody (mBuilder t') = currentBody (mBuilder t) ++ [OpReturn]
       /\ isOpen (mBuilder t') = false)
  /\ (forall expression below own top,
        mNodeData t = below ++ [own; top] ->
        load_invariants top ->
        wp (visitBranch PostVisit (TIntermBranch EOpReturn (Some expression)))
          t
          (fun v t' =>
             v = true
             /\ mNodeData t' = below ++ [own]
             /\ exists value top' insL b1,
                 loads top (mBuilder t) b1 value top' insL
                 /\ emits (mBuilder t) b1 insL
                 /\ currentBody (mBuilder t')
                    = currentBody b1 ++ [OpReturnValue value]
                 /\ isOpen (mBuilder t') = false)).
Proof.
  intros Hopen. split_and!.
  - unfold visitBranch. simpl bool_decide. cbv iota.
    wp_seq. apply wp_ASSERT; [done |].
    wp_seq. wp_seq. apply wp_onBuilder. apply write_spec; [done |].
    intros b1 H1. apply wp_onBuilder.
    apply terminateCurrentFunctionBlock_spec.
    { apply isOpen_blocks. by eapply emits_isOpen. }
    intros b2 Hbody _ Hclosed _. wp_step. simpl in *.
    split_and!; [done | done | | done].
    rewrite Hbody. by destruct H1 as (-> & _).
  - intros expression below own top Hs Hinv.
    assert (mNodeData t = (below ++ [own]) ++ [top]) as Hs'
      by (by rewrite Hs, <- app_assoc).
    unfold visitBranch. simpl bool_decide. cbv iota.
    wp_seq. apply wp_ASSERT; [done |].
    wp_seq. wp_seq. wp_step.
    wp_seq. apply wp_ASSERT.
    { apply bool_decide_eq_true_2. rewrite Hs, length_app. simpl. lia. }
    wp_seq. unfold loadBack. wp_seq.
    eapply (wp_backSlot _ (below ++ [own]) top); [exact Hs' |].
    eapply wp_onNodeData; [rewrite Hs'; apply lookup_back |].
    apply accessChainLoad_spec; [done | done |].
    intros value top' b1 insL Hloads He. simpl.
    wp_seq. eapply pop_back_snoc.
    { simpl. rewrite Hs'. apply insert_back. }
    wp_seq. apply wp_onBuilder. simpl.
    apply write_spec; [by eapply emits_isOpen |].
    intros b2 H2. apply wp_onBuilder. simpl.
    apply terminateCurrentFunctionBlock_spec.
    { apply isOpen_blocks. eapply emits_isOpen; [exact H2 |].
      by eapply emits_isOpen. }
    intros b3 Hbody _ Hclosed _. wp_step. simpl in *.
    split_and!; [done | done |].
    exists value, top', insL, b1. split_and!; [done | done | | done].
    rewrite Hbody. by destruct H2 as (-> & _).
Qed.

Lemma visitBranch_return_witness :
  exists t',
    visitBranch PostVisit (TIntermBranch EOpReturn None)
      {| mBuilder := builder0; mNodeData := [NodeData_default];
         mSymbolIdMap := ∅; mIsSymbolBeingDeclared := false;
         mInGlobalScope := false |}
    = Ok (true, t').
Proof.
  destruct (proj1 (visitBranch_return
                     {| mBuilder := builder0; mNodeData := [NodeData_default];
                        mSymbolIdMap := ∅; mIsSymbolBeingDeclared := false;
                        mInGlobalScope := false |} eq_refl))
    as (v & t' & Hrun & -> & _).
  by exists t'.
Defined.

Section FunctionMore.
Implicit Types (t : OutputSPIRVTraverser) (b : SPIRVBuilder).

Lemma on_back_snoc {A} (f : A -> A) (l : list A) (x : A) :
  on_back f (l ++ [x]) = l ++ [f x].
Proof.
  unfold on_back. rewrite reverse_app. simpl. by rewrite reverse_involutive.
Qed.

Lemma forallb_Forall {A} (p : A -> bool) (l : list A) :
  Forall (fun x => p x = true) l -> forallb p l = true.
Proof.
  induction 1 as [|x l Hx _ IH]; [done |]. simpl. by rewrite Hx, IH.
Qed.

Lemma onBuilder_run {A} (m : M SPIRVBuilder A) t a b' :
  m (mBuilder t) = Ok (a, b') ->
  onBuilder m t = Ok (a, with_mBuilder (fun _ => b') t).
Proof. intros H. unfold onBuilder. by rewrite H. Qed.

Lemma isCurrentFunctionBlockTerminated_run b k :
  last (mSpirvCurrentFunctionBlocks b) = Some k ->
  isCurrentFunctionBlockTerminated b = Ok (isTerminated k, b).
Proof.
  intros H. unfold isCurrentFunctionBlockTerminated, get, mbind, M_bind.
  by rewrite H.
Qed.

Lemma terminateCurrentFunctionBlock_run b :
  mSpirvCurrentFunctionBlocks b <> [] ->
  terminateCurrentFunctionBlock b
  = Ok (tt, with_mSpirvCurrentFunctionBlocks
              (on_back (with_isTerminated (fun _ => true))) b).
Proof.
  intros H. unfold terminateCurrentFunctionBlock, get, ASSERT, modify.
  unfold mbind, M_bind. by rewrite bool_decide_eq_false_2.
Qed.

Lemma assembleSpirvFunctionBlocks_run b :
  Forall (fun k => isTerminated k = true) (mSpirvCurrentFunctionBlocks b) ->
  assembleSpirvFunctionBlocks b
  = Ok (tt,
        with_mSpirvCurrentFunctionBlocks (fun _ => [])
          (with_mSpirvFunctions
             (.++ concat (map (fun k => OpLabel (labelId k)
                                        :: localVariables k ++ body k)
                            (mSpirvCurrentFunctionBlocks b))) b)).
Proof.
  intros H. unfold assembleSpirvFunctionBlocks, get, ASSERT, modify.
  unfold mbind, M_bind. by rewrite forallb_Forall.
Qed.

(** The end of the post-visit: the blocks go to the functions section. *)
Lemma visitFunctionDefinition_tail t b1 :
  Forall (fun k => isTerminated k = true) (mSpirvCurrentFunctionBlocks b1) ->
  (_ ← onBuilder assembleSpirvFunctionBlocks;
   _ ← onBuilder (writeFunctions OpFunctionEnd);
   mret true) (with_mBuilder (fun _ => b1) t)
  = Ok (true,
        with_mBuilder
          (fun _ =>
             with_mSpirvFunctions (.++ [OpFunctionEnd])
               (with_mSpirvCurrentFunctionBlocks (fun _ => [])
                  (with_mSpirvFunctions
                     (.++ concat (map (fun k => OpLabel (labelId k)
                                                :: localVariables k ++ body k)
                                    (mSpirvCurrentFunctionBlocks b1))) b1)))
          t).
Proof.
  intros H.
  erewrite bind_Ok;
    [| apply onBuilder_run; by apply assembleSpirvFunctionBlocks_run].
  reflexivity.
Qed.
End FunctionMore.

(** X19.  The post-visit of a function definition ends the function.  When
    the block being written is not terminated, a function that does not
    return void stops at the assertion, and a void function gets an
    [OpReturn]; then the blocks of the function, each as its label, its
    variables and its body, go to the functions section, followed by
    [OpFunctionEnd], and no block is left.  When the block is already
    terminated nothing is added to it.  The stack of records is not
    touched. *)
Theorem visitFunctionDefinition_ends_function (function : TFunction)
    (functionBody : TIntermNode) (t : OutputSPIRVTraverser)
    (blocks : list SpirvBlock) (k : SpirvBlock) :
  let node := TIntermFunctionDefinition function functionBody in
  let assembled := fun (blocks : list SpirvBlock) =>
    concat (map (fun k => OpLabel (labelId k) :: localVariables k
                          ++ body k) blocks) in
  mSpirvCurrentFunctionBlocks (mBuilder t) = blocks ++ [k] ->
  Forall (fun k => isTerminated k = true) blocks ->
  (isTerminated k = false ->
   getBasicType (fn_returnType function) <> EbtVoid ->
   visitFunctionDefinition PostVisit node t = Err Assert_return_type)
  /\ (isTerminated k = false ->
      getBasicType (fn_returnType function) = EbtVoid ->
      wp (visitFunctionDefinition PostVisit node) t
        (fun v t' =>
           v = true
           /\ mNodeData t' = mNodeData t
           /\ mSpirvCurrentFunctionBlocks (mBuilder t') = []
           /\ mSpirvFunctions (mBuilder t')
              = mSpirvFunctions (mBuilder t)
                ++ assembled (blocks ++ [with_body (.++ [OpReturn]) k])
                ++ [OpFunctionEnd]))
  /\ (isTerminated k = true ->
      wp (visitFunctionDefinition PostVisit node) t
        (fun v t' =>
           v = true
           /\ mNodeData t' = mNodeData t
           /\ mSpirvCurrentFunctionBlocks (mBuilder t') = []
           /\ mSpirvFunctions (mBuilder t')
              = mSpirvFunctions (mBuilder t)
                ++ assembled (blocks ++ [k]) ++ [OpFunctionEnd])).
Proof.
  intros node assembled Hblocks Hdone.
  assert (last (mSpirvCurrentFunctionBlocks (mBuilder t)) = Some k) as Hlast
    by (rewrite Hblocks; apply last_snoc).
  unfold node, visitFunctionDefinition.
  rewrite (bool_decide_eq_false_2 (PostVisit = PreVisit)) by done.
  rewrite (bool_decide_eq_true_2 (PostVisit = PostVisit)) by done.
  split_and!.
  - intros Hk Hvoid.
    erewrite bind_Ok;
      [| apply onBuilder_run; by apply isCurrentFunctionBlockTerminated_run].
    rewrite Hk. simpl negb. cbv iota.
    apply bind_Err, bind_Err. unfold ASSERT.
    by rewrite bool_decide_eq_false_2.
  - intros Hk Hvoid.
    assert (isOpen (mBuilder t) = true) as Hopen
      by (unfold isOpen; by rewrite Hlast, Hk).
    eapply wp_Ok.
    { erewrite bind_Ok;
        [| apply onBuilder_run; by apply isCurrentFunctionBlockTerminated_run].
      rewrite Hk. simpl negb. cbv iota.
      erewrite bind_Ok.
      2:{ unfold ASSERT. rewrite bool_decide_eq_true_2 by done.
          erewrite bind_Ok; [| reflexivity].
          erewrite bind_Ok; [| apply onBuilder_run; by apply write_run].
          apply onBuilder_run. apply terminateCurrentFunctionBlock_run.
          cbn. rewrite Hblocks, on_back_snoc. by destruct blocks. }
      cbn [mBuilder with_mBuilder].
      apply visitFunctionDefinition_tail.
      cbn. rewrite Hblocks, !on_back_snoc.
      apply Forall_app. split; [done |]. by repeat constructor. }
    cbn. rewrite Hblocks, !on_back_snoc.
    split_and!; [done | done | done |].
    rewrite <- !app_assoc. do 2 f_equal.
    unfold assembled. rewrite !map_app. by destruct k.
  - intros Hk.
    eapply wp_Ok.
    { erewrite bind_Ok;
        [| apply onBuilder_run; by apply isCurrentFunctionBlockTerminated_run].
      rewrite Hk. simpl negb. cbv iota.
      erewrite bind_Ok; [| reflexivity].
      apply visitFunctionDefinition_tail.
      rewrite Hblocks. apply Forall_app. split; [done |].
      by repeat constructor. }
    cbn. rewrite Hblocks.
    split_and!; [done | done | done |].
    by rewrite <- !app_assoc.
Qed.

Lemma visitFunctionDefinition_ends_function_witness :
  exists t',
    visitFunctionDefinition PostVisit
      (TIntermFunctionDefinition main_function (TIntermBlock []))
      {| mBuilder := builder0; mNodeData := []; mSymbolIdMap := ∅;
         mIsSymbolBeingDeclared := false; mInGlobalScope := false |}
    = Ok (true, t').
Proof.
  destruct (proj1 (proj2 (visitFunctionDefinition_ends_function main_function
                            (TIntermBlock [])
                            {| mBuilder := builder0; mNodeData := [];
                               mSymbolIdMap := ∅;
                               mIsSymbolBeingDeclared := false;
                               mInGlobalScope := false |}
                            [] block0 eq_refl (Forall_nil_2 _)))
              eq_refl eq_refl)
    as (v & t' & Hrun & -> & _).
  by exists t'.
Defined.

(** X22.  What an atomic built-in refuses: fewer than two arguments stop at
    the assertion on the parameter count, and a first argument whose record
    is an rvalue stops at the assertion of [accessChainCollapse], since the
    pointer operand needs an lvalue. *)
Theorem createAtomicBuiltIn_refuses (node : TIntermNode)
    (resultTypeId : IdRef) (t : OutputSPIRVTraverser) :
  ((getChildCount node < 2)%nat ->
   createAtomicBuiltIn node resultTypeId t = Err Assert_parameterCount)
  /\ (forall below pointer others,
        (2 <= getChildCount node)%nat ->
        mNodeData t = below ++ pointer :: others ->
        S (length others) = getChildCount node ->
        IsAccessChainRValue (accessChain pointer) = true ->
        createAtomicBuiltIn node resultTypeId t
        = Err Assert_collapse_storageClass).
Proof.
  split.
  - intros Hlt. unfold createAtomicBuiltIn. cbv zeta. apply bind_Err.
    unfold ASSERT. by rewrite bool_decide_eq_false_2 by lia.
  - intros below pointer others Hge Hs Hlen Hr.
    unfold createAtomicBuiltIn. cbv zeta.
    apply wp_then_Err. apply wp_ASSERT; [by apply bool_decide_eq_true_2 |].
    assert (length (mNodeData t)
            = (length below + getChildCount node)%nat) as Hl
      by (rewrite Hs, length_app; simpl; lia).
    apply wp_then_Err. apply wp_paramSlot; [lia |].
    apply bind_Err. unfold onNodeData.
    apply wp_then_Err. wp_step.
    apply wp_then_Err. eapply wp_at_index.
    { rewrite Hs.
      replace (length (below ++ pointer :: others) - getChildCount node + 0)%nat
        with (length below) by (rewrite length_app; simpl; lia).
      by apply list_lookup_middle. }
    apply bind_Err. unfold onBuilder.
    by rewrite accessChainCollapse_rvalue.
Qed.

Lemma createAtomicBuiltIn_refuses_witness :
  createAtomicBuiltIn
    (TIntermAggregate EOpAtomicAdd (uintOf EvqTemporary) None
       [symbolOf (uintOf EvqTemporary)]) 1%N traverser_atomicCompSwap
  = Err Assert_parameterCount.
Proof.
  apply (proj1 (createAtomicBuiltIn_refuses
                  (TIntermAggregate EOpAtomicAdd (uintOf EvqTemporary) None
                     [symbolOf (uintOf EvqTemporary)]) 1%N
                  traverser_atomicCompSwap)).
  simpl. lia.
Defined.
Section Declares.
Implicit Types (b : SPIRVBuilder) (t : OutputSPIRVTraverser).

Lemma declaresOnly_refl b : declaresOnly b b.
Proof. by split_and!. Qed.

Lemma declaresOnly_trans b1 b2 b3 :
  declaresOnly b1 b2 -> declaresOnly b2 b3 -> declaresOnly b1 b3.
Proof.
  intros (H1 & H2 & H3 & H4 & H5) (H6 & H7 & H8 & H9 & H10).
  split_and!; [congruence | congruence | congruence | |];
    by etrans.
Qed.

Lemma getNewId_declares b Q :
  (forall b', declaresOnly b b' -> Q (mNextAvailableId b) b') ->
  wp getNewId b Q.
Proof.
  intros HQ. eapply wp_Ok; [reflexivity |]. apply HQ. by split_and!.
Qed.

Lemma getSpirvTypeData_declares type b Q :
  (forall r b', declaresOnly b b' -> mTypeMap b' !! type = Some r -> Q r b') ->
  wp (getSpirvTypeData type) b Q.
Proof.
  intros HQ. unfold getSpirvTypeData. wp_seq. wp_step.
  destruct (mTypeMap b !! type) as [r|] eqn:E.
  - wp_step. apply HQ; [apply declaresOnly_refl | done].
  - wp_seq. eapply wp_Ok; [reflexivity |]. wp_seq. wp_step. wp_seq. wp_step.
    wp_step. apply HQ; simpl; [| by rewrite lookup_insert_eq].
    split_and!; simpl; [done | done | done | by apply insert_subseteq | done].
Qed.

Lemma getTypePointerId_declares typeId sc b Q :
  (forall r b', declaresOnly b b' ->
                mTypePointerIdMap b' !! (typeId, sc) = Some r -> Q r b') ->
  wp (getTypePointerId typeId sc) b Q.
Proof.
  intros HQ. unfold getTypePointerId. wp_seq. wp_step.
  destruct (mTypePointerIdMap b !! (typeId, sc)) as [r|] eqn:E.
  - wp_step. apply HQ; [apply declaresOnly_refl | done].
  - wp_seq. eapply wp_Ok; [reflexivity |]. wp_seq. wp_step. wp_seq. wp_step.
    wp_step. apply HQ; simpl; [| by rewrite lookup_insert_eq].
    split_and!; simpl; [done | done | done | done | by apply insert_subseteq].
Qed.

Lemma getFunctionTypeId_declares returnTypeId paramTypeIds b Q :
  (forall r b', declaresOnly b b' -> Q r b') ->
  wp (getFunctionTypeId returnTypeId paramTypeIds) b Q.
Proof.
  intros HQ. unfold getFunctionTypeId. wp_seq. wp_step.
  destruct (mFunctionTypeIdMap b !! (returnTypeId, paramTypeIds)) as [r|].
  - wp_step. apply HQ. apply declaresOnly_refl.
  - wp_seq. eapply wp_Ok; [reflexivity |]. wp_seq. wp_step. wp_seq. wp_step.
    wp_step. apply HQ. by split_and!.
Qed.

Lemma parameterTyped_weaken b b' param paramTypeId :
  declaresOnly b b' -> parameterTyped b param paramTypeId ->
  parameterTyped b' param paramTypeId.
Proof.
  intros (_ & _ & _ & Hty & Hptr) (valueTypeId & Hv & Hp).
  exists valueTypeId. split.
  - by eapply lookup_weaken.
  - case_bool_decide; [done |]. by eapply lookup_weaken.
Qed.

(** The first loop of the pre-visit: the type ids of the parameters. *)
Lemma parameterTypes_spec (params : list TVariable) t Q :
  (forall paramTypeIds b',
      declaresOnly (mBuilder t) b' ->
      Forall2 (parameterTyped b') params paramTypeIds ->
      Q paramTypeIds (with_mBuilder (fun _ => b') t)) ->
  wp (foldM (fun paramTypeIds paramVar =>
               let paramType := var_type paramVar in
               paramId ← onBuilder (getTypeData paramType EbsUnspecified);
               paramId ←
                 (if negb (bool_decide (getQualifier paramType = EvqConst))
                  then onBuilder (getTypePointerId paramId
                                    StorageClassFunction)
                  else mret paramId);
               mret (paramTypeIds ++ [paramId]))
        params []) t Q.
Proof.
  intros HQ.
  eapply wp_mono.
  - apply (wp_foldM _
             (fun done paramTypeIds t' =>
                exists b',
                  t' = with_mBuilder (fun _ => b') t
                  /\ declaresOnly (mBuilder t) b'
                  /\ Forall2 (parameterTyped b') done paramTypeIds)
             params [] []).
    + exists (mBuilder t). split_and!;
        [by destruct t | apply declaresOnly_refl | constructor].
    + intros done param ids t1 (b1 & -> & Hd & Hall). cbv zeta.
      wp_seq. apply wp_onBuilder. unfold getTypeData.
      apply getSpirvTypeData_declares. intros valueTypeId b2 H2 Hv. simpl in *.
      wp_seq. case_bool_decide as Hc; simpl negb; cbv iota.
      * wp_step. wp_step. exists b2. split_and!; [done | |].
        -- by eapply declaresOnly_trans.
        -- apply Forall2_app.
           ++ eapply Forall2_impl; [exact Hall |].
              intros p i. by apply parameterTyped_weaken.
           ++ repeat constructor. exists valueTypeId.
              by rewrite bool_decide_eq_true_2.
      * apply wp_onBuilder. simpl.
        apply getTypePointerId_declares. intros ptr b3 H3 Hp. simpl.
        wp_step. exists b3. split_and!; [done | |].
        -- eapply declaresOnly_trans; [exact Hd |].
           by eapply declaresOnly_trans.
        -- apply Forall2_app.
           ++ eapply Forall2_impl; [exact Hall |].
              intros p i Hpi. eapply parameterTyped_weaken; [exact H3 |].
              by eapply parameterTyped_weaken.
           ++ repeat constructor. exists valueTypeId. split.
              ** destruct H3 as (_ & _ & _ & Hty & _).
                 by eapply lookup_weaken.
              ** by rewrite bool_decide_eq_false_2.
  - intros ids t' (b' & -> & Hd & Hall). by apply HQ.
Qed.
End Declares.
Lemma imap_indexed_inv {A} (l : list A) done i x rest :
  imap (fun i x => (i, x)) l = done ++ (i, x) :: rest ->
  i = length done /\ l !! length done = Some x.
Proof.
  intros H.
  assert (imap (fun i x => (i, x)) l !! length done = Some (i, x)) as Hl.
  { rewrite H. by rewrite list_lookup_middle. }
  rewrite list_lookup_imap in Hl.
  destruct (l !! length done); simpl in Hl; [| done].
  by inversion Hl.
Qed.

Lemma Forall2_impl_elem {A B} (P Q : A -> B -> Prop) l k :
  Forall2 P l k -> (forall x y, x ∈ l -> P x y -> Q x y) -> Forall2 Q l k.
Proof.
  induction 1 as [|x y l k Hxy Hlk IH]; intros HPQ; constructor.
  - apply HPQ; [left | done].
  - apply IH. intros x' y' Hin. apply HPQ. by right.
Qed.

Lemma zip_with_snoc {A B C} (f : A -> B -> C) l k x y :
  length l = length k ->
  zip_with f (l ++ [x]) (k ++ [y]) = zip_with f l k ++ [f x y].
Proof. intros H. by rewrite zip_with_app. Qed.

(** The second loop of the pre-visit: one OpFunctionParameter and one
    symbol-table entry per parameter. *)
Lemma parameterIds_spec (params : list TVariable) (paramTypeIds : list IdRef)
    t Q :
  length paramTypeIds = length params ->
  NoDup (map var_symbol params) ->
  (forall s, s ∈ map var_symbol params -> mSymbolIdMap t !! s = None) ->
  (forall paramIds t',
      length paramIds = length params ->
      mSpirvFunctions (mBuilder t')
      = mSpirvFunctions (mBuilder t)
        ++ zip_with OpFunctionParameter paramTypeIds paramIds ->
      declaresOnly
        (with_mSpirvFunctions (fun _ => mSpirvFunctions (mBuilder t'))
           (mBuilder t)) (mBuilder t') ->
      Forall2 (fun p i => mSymbolIdMap t' !! var_symbol p = Some i)
        params paramIds ->
      (forall s, s ∉ map var_symbol params ->
                 mSymbolIdMap t' !! s = mSymbolIdMap t !! s) ->
      Q tt t') ->
  wp (foldM (fun _ '(paramIndex, paramVariable) =>
               paramId ← onBuilder getNewId;
               paramTypeId ← at_index paramTypeIds paramIndex;
               _ ← onBuilder (writeFunctions
                                (OpFunctionParameter paramTypeId paramId));
               t ← get;
               _ ← ASSERT (bool_decide
                             (mSymbolIdMap t
                                !! var_symbol paramVariable = None))
                     Assert_symbol_fresh;
               modify (with_mSymbolIdMap
                         <[var_symbol paramVariable := paramId]>))
        (imap (fun paramIndex paramVariable => (paramIndex, paramVariable))
           params)
        tt) t Q.
Proof.
  intros Hlen Hnodup Hfresh HQ.
  eapply wp_mono.
  - apply (wp_foldM_at _
             (imap (fun paramIndex paramVariable =>
                      (paramIndex, paramVariable)) params)
             (fun done (_ : unit) t' =>
                let n := length done in
                exists paramIds,
                  length paramIds = n
                  /\ mSpirvFunctions (mBuilder t')
                     = mSpirvFunctions (mBuilder t)
                       ++ zip_with OpFunctionParameter
                            (take n paramTypeIds) paramIds
                  /\ declaresOnly
                       (with_mSpirvFunctions
                          (fun _ => mSpirvFunctions (mBuilder t'))
                          (mBuilder t)) (mBuilder t')
                  /\ Forall2 (fun p i =>
                                mSymbolIdMap t' !! var_symbol p = Some i)
                       (take n params) paramIds
                  /\ (forall s, s ∉ map var_symbol (take n params) ->
                                mSymbolIdMap t' !! s = mSymbolIdMap t !! s))
             _ [] tt); [done | |].
    + exists []. rewrite !take_0. simpl. rewrite app_nil_r.
      split_and!; [done | done | | constructor | done].
      by split_and!.
    + intros done [n param] rest [] t1 Hw (paramIds & Hl & Hf & Hd & Hsym & Hrest).
      apply imap_indexed_inv in Hw as [Hi Hn].
      cbv zeta in *. rewrite length_app. simpl length.
      rewrite Nat.add_1_r. rewrite <- Hi in *. clear Hi done.
      assert (is_Some (paramTypeIds !! n)) as [paramTypeId Hty].
      { apply lookup_lt_is_Some. rewrite Hlen. by eapply lookup_lt_Some. }
      wp_seq. apply wp_onBuilder. apply getNewId_declares.
      intros b2 H2. simpl.
      wp_seq. apply wp_at_index with (x := paramTypeId); [done |].
      wp_seq. apply wp_onBuilder. unfold writeFunctions. wp_step. simpl.
      wp_seq. wp_step. wp_seq. apply wp_ASSERT.
      { apply bool_decide_eq_true_2. simpl. rewrite Hrest.
        - apply Hfresh. apply list_elem_of_fmap. exists param.
          split; [done |]. by eapply list_elem_of_lookup_2.
        - intros Hin. apply list_elem_of_fmap in Hin as (q & Hq & Hin).
          apply elem_of_take in Hin as (i & Hi & Hlt).
          assert (map var_symbol params !! i = Some (var_symbol param)).
          { rewrite list_lookup_fmap, Hi. simpl. by rewrite Hq. }
          assert (map var_symbol params !! n = Some (var_symbol param)).
          { by rewrite list_lookup_fmap, Hn. }
          assert (i = n) by (by eapply NoDup_lookup). lia. }
      wp_step. simpl.
      exists (paramIds ++ [mNextAvailableId (mBuilder t1)]).
      rewrite (take_S_r _ _ _ Hty), (take_S_r _ _ _ Hn).
      split_and!.
      * rewrite length_app. simpl. lia.
      * destruct H2 as (-> & _). rewrite Hf.
        rewrite zip_with_snoc.
        -- by rewrite <- app_assoc.
        -- rewrite length_take. apply lookup_lt_Some in Hty. lia.
      * destruct H2 as (H2a & H2b & H2c & H2d & H2e).
        destruct Hd as (Hd1 & Hd2 & Hd3 & Hd4 & Hd5). simpl in *.
        split_and!; simpl; [done | congruence | congruence | |]; by etrans.
      * apply Forall2_app.
        -- eapply Forall2_impl_elem; [exact Hsym |].
           intros q i Hin Hq. simpl. rewrite lookup_insert_ne; [done |].
           intros Heq. apply elem_of_take in Hin as (j & Hj & Hlt).
           assert (map var_symbol params !! j = Some (var_symbol q)).
           { by rewrite list_lookup_fmap, Hj. }
           assert (map var_symbol params !! n = Some (var_symbol q)).
           { rewrite list_lookup_fmap, Hn. simpl. by rewrite Heq. }
           assert (j = n) by (by eapply NoDup_lookup). lia.
        -- repeat constructor. simpl. by rewrite lookup_insert_eq.
      * intros s Hs. rewrite fmap_app in Hs. simpl in Hs.
        rewrite lookup_insert_ne.
        -- apply Hrest. intros Hin. apply Hs.
           apply elem_of_app. by left.
        -- intros <-. apply Hs. apply elem_of_app. right. by left.
  - intros [] t' (paramIds & Hl & Hf & Hd & Hsym & Hrest).
    rewrite length_imap in Hl, Hf, Hsym, Hrest.
    rewrite firstn_all in Hsym, Hrest.
    rewrite <- Hlen, firstn_all in Hf. by eapply HQ.
Qed.

(** X23.  The pre-visit of a function definition, when no function is in
    progress and the symbols of the function and of its parameters are
    distinct and not yet in the symbol table: it appends to the functions
    section one OpFunction followed by one OpFunctionParameter per
    parameter, in order; a [const] parameter is declared with the id of its
    type and any other with the Function-class pointer to it; the symbol
    table gains exactly the function and its parameters, each mapped to the
    id of its declaration; the entry point becomes this function when it is
    [main] and is kept otherwise; and the children are to be visited. *)
Theorem visitFunctionDefinition_declares (function : TFunction)
    (functionBody : TIntermNode) (t : OutputSPIRVTraverser) :
  mSpirvCurrentFunctionBlocks (mBuilder t) = [] ->
  NoDup (fn_symbol function :: map var_symbol (fn_params function)) ->
  (forall s, s ∈ fn_symbol function :: map var_symbol (fn_params function) ->
             mSymbolIdMap t !! s = None) ->
  wp (visitFunctionDefinition PreVisit
        (TIntermFunctionDefinition function functionBody)) t
    (fun visitChildren t' =>
       visitChildren = true
       /\ exists returnTypeId functionId functionTypeId paramTypeIds paramIds,
         mSpirvFunctions (mBuilder t')
         = mSpirvFunctions (mBuilder t)
           ++ OpFunction returnTypeId functionId functionTypeId
              :: zip_with OpFunctionParameter paramTypeIds paramIds
         /\ length paramIds = length (fn_params function)
         /\ mTypeMap (mBuilder t')
              !! getSpirvType (fn_returnType function) EbsUnspecified
            = Some returnTypeId
         /\ Forall2 (parameterTyped (mBuilder t')) (fn_params function)
              paramTypeIds
         /\ mSymbolIdMap t' !! fn_symbol function = Some functionId
         /\ Forall2 (fun param paramId =>
                       mSymbolIdMap t' !! var_symbol param = Some paramId)
              (fn_params function) paramIds
         /\ (forall s,
                s ∉ fn_symbol function :: map var_symbol (fn_params function) ->
                mSymbolIdMap t' !! s = mSymbolIdMap t !! s)
         /\ mEntryPointId (mBuilder t')
            = if isMain function then functionId
              else mEntryPointId (mBuilder t)).
Proof.
  intros Hblocks Hnodup Hfresh.
  apply NoDup_cons in Hnodup as [Hfn Hnodup].
  unfold visitFunctionDefinition.
  rewrite (bool_decide_eq_true_2 (PreVisit = PreVisit) eq_refl).
  wp_seq. apply wp_onBuilder. unfold getTypeData.
  apply getSpirvTypeData_declares. intros returnTypeId b1 H1 Hret. simpl.
  wp_seq. apply parameterTypes_spec. intros paramTypeIds b2 H2 Hparams.
  simpl in H2.
  wp_seq. apply wp_onBuilder. apply getFunctionTypeId_declares.
  intros functionTypeId b3 H3. simpl.
  wp_seq. apply wp_onBuilder. apply getNewId_declares.
  intros b4 H4. simpl.
  wp_seq. apply wp_onBuilder. unfold writeFunctions. wp_step. simpl.
  assert (declaresOnly (mBuilder t) b4) as H04.
  { eapply declaresOnly_trans; [exact H1 |].
    eapply declaresOnly_trans; [exact H2 |].
    by eapply declaresOnly_trans. }
  assert (declaresOnly b2 b4) as H24 by (by eapply declaresOnly_trans).
  wp_seq. apply parameterIds_spec.
  { symmetry. by eapply Forall2_length. }
  { done. }
  { intros s Hs. simpl. apply Hfresh. by right. }
  intros paramIds t5 Hlen Hfuncs H5 Hsyms Hrest. simpl in Hfuncs, H5, Hrest.
  destruct H5 as (_ & H5b & H5c & H5d & H5e). simpl in H5b, H5c, H5d, H5e.
  destruct H04 as (H04a & H04b & H04c & H04d & H04e).
  set (functionId := mNextAvailableId b3) in *.
  wp_seq.
  eapply wp_mono with
    (Q := fun _ t6 =>
            mSpirvFunctions (mBuilder t6) = mSpirvFunctions (mBuilder t5)
            /\ mSpirvCurrentFunctionBlocks (mBuilder t6) = []
            /\ mTypeMap (mBuilder t6) = mTypeMap (mBuilder t5)
            /\ mTypePointerIdMap (mBuilder t6)
               = mTypePointerIdMap (mBuilder t5)
            /\ mSymbolIdMap t6 = mSymbolIdMap t5
            /\ mEntryPointId (mBuilder t6)
               = if isMain function then functionId
                 else mEntryPointId (mBuilder t)).
  { destruct (isMain function).
    - apply wp_onBuilder. unfold setEntryPointId. wp_step. simpl.
      split_and!; [done | congruence | done | done | done | done].
    - wp_step. split_and!; [done | congruence | done | done | done |].
      congruence. }
  intros [] t6 (H6a & H6b & H6c & H6d & H6e & H6f). simpl.
  wp_seq. apply wp_onBuilder. unfold startNewFunction.
  wp_seq. wp_step. wp_seq. apply wp_ASSERT.
  { by apply bool_decide_eq_true_2. }
  wp_seq. eapply wp_Ok; [reflexivity |]. wp_seq. wp_step. wp_step. simpl.
  wp_seq. wp_step. wp_seq. apply wp_ASSERT.
  { apply bool_decide_eq_true_2. simpl. rewrite H6e, Hrest; [| done].
    apply Hfresh. by left. }
  wp_seq. wp_step. wp_step. simpl.
  split; [done |].
  exists returnTypeId, functionId, functionTypeId, paramTypeIds, paramIds.
  split_and!.
  - rewrite H6a, Hfuncs, H04a. by rewrite <- app_assoc.
  - done.
  - rewrite H6c. eapply lookup_weaken; [| exact H5d]. simpl.
    destruct H1 as (_ & _ & _ & H1d & _).
    destruct H2 as (_ & _ & _ & H2d & _).
    destruct H3 as (_ & _ & _ & H3d & _).
    destruct H4 as (_ & _ & _ & H4d & _).
    eapply lookup_weaken; [| exact H4d].
    eapply lookup_weaken; [| exact H3d].
    eapply lookup_weaken; [| exact H2d]. done.
  - eapply Forall2_impl; [exact Hparams |].
    intros param paramTypeId (valueTypeId & Hv & Hp).
    destruct H24 as (_ & _ & _ & H24d & H24e).
    exists valueTypeId. simpl. rewrite H6c, H6d. split.
    + eapply lookup_weaken; [| exact H5d]. simpl.
      by eapply lookup_weaken.
    + case_bool_decide; [done |].
      eapply lookup_weaken; [| exact H5e]. simpl.
      by eapply lookup_weaken.
  - by rewrite lookup_insert_eq.
  - eapply Forall2_impl_elem; [exact Hsyms |].
    intros param paramId Hin Hp. rewrite lookup_insert_ne; [by rewrite H6e |].
    intros Heq. apply Hfn. rewrite Heq.
    apply list_elem_of_fmap. by exists param.
  - intros s Hs. rewrite lookup_insert_ne.
    + rewrite H6e. apply Hrest. intros Hin. apply Hs. by right.
    + intros <-. apply Hs. by left.
  - done.
Qed.

Lemma visitFunctionDefinition_declares_witness :
  exists t',
    visitFunctionDefinition PreVisit
      (TIntermFunctionDefinition
         {| fn_symbol := 300%N; fn_name := "scale"; fn_returnType := floatScalar;
            fn_params :=
              [{| var_symbol := 301%N;
                  var_type :=
                    {| getBasicType := EbtFloat; getQualifier := EvqConst;
                       primarySize := 1; secondarySize := 1;
                       arraySizes := []; isStruct := false |} |};
               {| var_symbol := 302%N; var_type := floatMatrix 3 1 |}];
            isMain := false |}
         (TIntermBlock []))
      {| mBuilder := with_mSpirvCurrentFunctionBlocks (fun _ => []) builder0;
         mNodeData := []; mSymbolIdMap := ∅;
         mIsSymbolBeingDeclared := false; mInGlobalScope := true |}
    = Ok (true, t').
Proof.
  destruct (visitFunctionDefinition_declares
              {| fn_symbol := 300%N; fn_name := "scale";
                 fn_returnType := floatScalar;
                 fn_params :=
                   [{| var_symbol := 301%N;
                       var_type :=
                         {| getBasicType := EbtFloat; getQualifier := EvqConst;
                            primarySize := 1; secondarySize := 1;
                            arraySizes := []; isStruct := false |} |};
                    {| var_symbol := 302%N; var_type := floatMatrix 3 1 |}];
                 isMain := false |}
              (TIntermBlock [])
              {| mBuilder :=
                   with_mSpirvCurrentFunctionBlocks (fun _ => []) builder0;
                 mNodeData := []; mSymbolIdMap := ∅;
                 mIsSymbolBeingDeclared := false; mInGlobalScope := true |}
              eq_refl)
    as (v & t' & Hrun & -> & _).
  - apply (bool_decide_unpack _). by vm_compute.
  - intros s _. apply lookup_empty.
  - by exists t'.
Defined.

(** An expression statement that is a declared temporary leaves its record
    and keeps the symbol table and the declaration flag. *)
Lemma symbol_statement_leavesOneRecord (type : TType) (variable : TVariable)
    (symbolId : IdRef) (depth : nat) :
  getQualifier type = EvqTemporary ->
  IsOpaqueType (getBasicType type) = false ->
  getBasicType type <> EbtInterfaceBlock ->
  leavesOneRecord
    (fun t => mIsSymbolBeingDeclared t = false
              /\ mSymbolIdMap t !! var_symbol variable = Some symbolId)
    depth (TIntermSymbol type variable false).
Proof.
  intros Hq Hopaque Hblock t [Hdecl Hsym]. simpl. unfold visitSymbol.
  wp_seq. apply wp_ASSERT; [done |].
  wp_seq. wp_step. rewrite Hdecl.
  wp_seq. unfold emplace_back. wp_step. cbv zeta.
  wp_seq. apply wp_onBuilder. unfold getTypeData.
  apply getSpirvTypeData_declares. intros typeId b1 _ _. simpl.
  rewrite bool_decide_eq_false_2 by (by rewrite Hq).
  wp_seq. unfold getSymbolIdAndStorageClass.
  wp_seq. unfold GetStorageClass. rewrite Hopaque.
  rewrite bool_decide_eq_false_2 by done. rewrite Hq. wp_step.
  wp_seq. wp_step. simpl. rewrite Hsym. wp_step. simpl.
  unfold setBack. wp_seq.
  eapply (wp_backSlot _ (mNodeData t) NodeData_default); [done |].
  wp_step. simpl. split_and!; [done | done |].
  eexists. apply insert_back.
Qed.

Lemma traverse_nested_block_underflow_witness :
  traverse 1
    (TIntermBlock
       [TIntermBlock
          [TIntermSymbol floatScalar
             {| var_symbol := 1%N; var_type := floatScalar |} false;
           TIntermSymbol floatScalar
             {| var_symbol := 1%N; var_type := floatScalar |} false]])
    {| mBuilder := builder0; mNodeData := [];
       mSymbolIdMap := {[ 1%N := 5%N ]};
       mIsSymbolBeingDeclared := false; mInGlobalScope := false |}
  = Err PopEmptyStack.
Proof.
  apply (traverse_nested_block_underflow
           (fun t => mIsSymbolBeingDeclared t = false
                     /\ mSymbolIdMap t
                          !! var_symbol
                               {| var_symbol := 1%N; var_type := floatScalar |}
                        = Some 5%N)
           1
           [TIntermSymbol floatScalar
              {| var_symbol := 1%N; var_type := floatScalar |} false;
            TIntermSymbol floatScalar
              {| var_symbol := 1%N; var_type := floatScalar |} false]).
  - lia.
  - by intros t f H.
  - split; reflexivity.
  - repeat apply Forall_cons_2;
      [apply symbol_statement_leavesOneRecord; done
      | apply symbol_statement_leavesOneRecord; done
      | apply Forall_nil_2].
  - reflexivity.
Defined.
(** * The records of l-value expressions *)

Section LValueRecords.
Implicit Types (b : SPIRVBuilder) (data : NodeData)
  (t : OutputSPIRVTraverser).








End LValueRecords.

Section LValueVisits.
Implicit Types (b : SPIRVBuilder) (data : NodeData)
  (t : OutputSPIRVTraverser).




End LValueVisits.


